(** * SpacemanDMM: the DreamMaker lexer and parser

    A shallow embedding of [src/dreammaker/lexer.rs] and
    [src/dreammaker/parser.rs].  Bytes and characters are [Z] code points
    (the lexer decodes Latin-1, so a Rust [String] produced by the lexer is
    exactly its byte list); stateful code is written in explicit state
    passing, with [None] standing for a Rust panic.  Every Rust [loop] that
    consumes one input item per iteration is given a fuel argument that is
    larger than the remaining input, and running out of fuel is reported as
    a panic. *)

From Stdlib Require Import ZArith List String Ascii Bool Lia.
Set Warnings "-register-all".
Import ListNotations.
Open Scope Z_scope.

(* ------------------------------------------------------------------------- *)
(** ** Bytes *)

(** The byte string of an ASCII literal such as [b"=="]. *)
Definition bytes (s : string) : list Z :=
  map (fun a => Z.of_nat (nat_of_ascii a)) (list_ascii_of_string s).

Fixpoint list_Z_eqb (a b : list Z) : bool :=
  match a, b with
  | [], [] => true
  | x :: a', y :: b' => (x =? y) && list_Z_eqb a' b'
  | _, _ => false
  end.

(** [slice::starts_with]. *)
Fixpoint starts_with (hay needle : list Z) : bool :=
  match needle, hay with
  | [], _ => true
  | n :: needle', h :: hay' => (n =? h) && starts_with hay' needle'
  | _ :: _, [] => false
  end.

(** [char::to_digit(radix)] on a Latin-1 character. *)
Definition to_digit (c radix : Z) : option Z :=
  let d :=
    if (48 <=? c) && (c <=? 57) then c - 48
    else if (97 <=? c) && (c <=? 122) then c - 97 + 10
    else if (65 <=? c) && (c <=? 90) then c - 65 + 10
    else 99 in
  if d <? radix then Some d else None.

Definition is_digit_radix (c radix : Z) : bool :=
  match to_digit c radix with Some _ => true | None => false end.

(** [lexer::is_digit] and [lexer::is_ident]. *)
Definition is_digit (ch : Z) : bool := (48 <=? ch) && (ch <=? 57).
Definition is_ident (ch : Z) : bool :=
  ((97 <=? ch) && (ch <=? 122)) || ((65 <=? ch) && (ch <=? 90)) || (ch =? 95).

(** Decimal digits of a non-negative integer (as characters). *)
Fixpoint digits_aux (fuel : nat) (n : Z) (acc : list Z) : list Z :=
  match fuel with
  | O => acc
  | S f => if n <? 10 then (48 + n) :: acc
           else digits_aux f (n / 10) ((48 + n mod 10) :: acc)
  end.
Definition dec_digits (n : Z) : list Z := digits_aux (Z.to_nat (Z.log2 n) + 2) n [].

(* ------------------------------------------------------------------------- *)
(** ** Punctuation and [PUNCT_TABLE] *)

Inductive Punctuation :=
| Tab | Newline | Space | Not | NotEq | DoubleQuote | Hash | TokenPaste
| Mod | ModAssign | BitAnd | And | BitAndAssign | SingleQuote | LParen
| RParen | Mul | Pow | MulAssign | Add | PlusPlus | AddAssign | Comma
| Sub | MinusMinus | SubAssign | Dot | Super | Ellipsis | Slash
| BlockComment | LineComment | DivAssign | Colon | Semicolon | Less
| LShift | LShiftAssign | LessEq | LessGreater | Assign | Eq | Greater
| GreaterEq | RShift | RShiftAssign | QuestionMark | SafeDot | SafeColon
| LBracket | RBracket | BitXor | BitXorAssign | LBrace | BlockString
| BitOr | BitOrAssign | Or | RBrace | BitNot | NotEquiv | Equiv | In.

Scheme Equality for Punctuation.

(** The table, in source order ("Order is significant; see read_punct"). *)
Definition PUNCT_TABLE : list (list Z * Punctuation) :=
  [ ([9], Tab); ([10], Newline); (bytes " ", Space); (bytes "!", Not);
    (bytes "!=", NotEq); ([34], DoubleQuote); (bytes "#", Hash);
    (bytes "##", TokenPaste); (bytes "%", Mod); (bytes "%=", ModAssign);
    (bytes "&", BitAnd); (bytes "&&", And); (bytes "&=", BitAndAssign);
    ([39], SingleQuote); (bytes "(", LParen); (bytes ")", RParen);
    (bytes "*", Mul); (bytes "**", Pow); (bytes "*=", MulAssign);
    (bytes "+", Add); (bytes "++", PlusPlus); (bytes "+=", AddAssign);
    (bytes ",", Comma); (bytes "-", Sub); (bytes "--", MinusMinus);
    (bytes "-=", SubAssign); (bytes ".", Dot); (bytes "..", Super);
    (bytes "...", Ellipsis); (bytes "/", Slash); (bytes "/*", BlockComment);
    (bytes "//", LineComment); (bytes "/=", DivAssign); (bytes ":", Colon);
    (bytes ";", Semicolon); (bytes "<", Less); (bytes "<<", LShift);
    (bytes "<<=", LShiftAssign); (bytes "<=", LessEq);
    (bytes "<>", LessGreater); (bytes "=", Assign); (bytes "==", Eq);
    (bytes ">", Greater); (bytes ">=", GreaterEq); (bytes ">>", RShift);
    (bytes ">>=", RShiftAssign); (bytes "?", QuestionMark);
    (bytes "?.", SafeDot); (bytes "?:", SafeColon); (bytes "[", LBracket);
    (bytes "]", RBracket); (bytes "^", BitXor); (bytes "^=", BitXorAssign);
    (bytes "{", LBrace); (123 :: [34], BlockString); (bytes "|", BitOr);
    (bytes "|=", BitOrAssign); (bytes "||", Or); (bytes "}", RBrace);
    (bytes "~", BitNot); (bytes "~!", NotEquiv); (bytes "~=", Equiv);
    (* Keywords - not checked by read_punct *)
    (bytes "in", In) ].

(** [Punctuation::value]: the table entry of a punctuation kind. *)
Definition punct_value (p : Punctuation) : list Z :=
  match find (fun e => Punctuation_beq (snd e) p) PUNCT_TABLE with
  | Some (v, _) => v
  | None => []
  end.

(* ------------------------------------------------------------------------- *)
(** ** [f32] values

    A finite [f32] is [F32Fin neg m e], the value [(-1)^neg * m * 2^e] in
    canonical form: normal numbers have [2^23 <= m < 2^24] and
    [-149 <= e <= 104], subnormal numbers and zero have [e = -149]. *)

Inductive f32 := F32Fin (neg : bool) (m e : Z) | F32Inf (neg : bool) | F32NaN.

Definition f32_zero : f32 := F32Fin false 0 (-149).

(** [floor (num / (den * 2^e))] and the remainder test of round-half-even. *)
Definition scaled (num den e : Z) : Z * Z :=
  if e >=? 0 then (num, den * 2 ^ e) else (num * 2 ^ (- e), den).

(** Correct rounding (to nearest, ties to even) of [num/den >= 0]. *)
Definition round_f32 (neg : bool) (num den : Z) : f32 :=
  if num =? 0 then F32Fin neg 0 (-149) else
  let e0 := Z.log2 num - Z.log2 den - 23 in
  let e1 := let '(n, d) := scaled num den e0 in
            if n / d <? 2 ^ 23 then e0 - 1 else e0 in
  let e := Z.max e1 (-149) in
  let '(n, d) := scaled num den e in
  let m0 := n / d in
  let r := n mod d in
  let m := if (2 * r >? d) || ((2 * r =? d) && Z.odd m0) then m0 + 1 else m0 in
  let '(m, e) := if m =? 2 ^ 24 then (2 ^ 23, e + 1) else (m, e) in
  if e >? 104 then F32Inf neg else F32Fin neg m e.

Inductive FloatErrorKind := FEEmpty | FEInvalid.

Fixpoint span_digits (s : list Z) : list Z * list Z :=
  match s with
  | c :: t => if is_digit c then let '(d, r) := span_digits t in (c :: d, r)
              else ([], s)
  | [] => ([], [])
  end.

Definition digits_value (d : list Z) : Z :=
  fold_left (fun acc c => acc * 10 + (c - 48)) d 0.

Definition to_lower (c : Z) : Z := if (65 <=? c) && (c <=? 90) then c + 32 else c.

(** [f32::from_str]: optional sign, [inf], [infinity] or [nan] in any case,
    or a decimal [digits [. digits] [(e|E) [+|-] digits]] with at least one
    digit in the mantissa; the result is correctly rounded. *)
Definition f32_from_str (s : list Z) : f32 + FloatErrorKind :=
  match s with
  | [] => inr FEEmpty
  | _ =>
    let '(neg, s1) := match s with
                      | 43 :: t => (false, t)
                      | 45 :: t => (true, t)
                      | _ => (false, s)
                      end in
    let low := map to_lower s1 in
    if list_Z_eqb low (bytes "inf") || list_Z_eqb low (bytes "infinity")
    then inl (F32Inf neg)
    else if list_Z_eqb low (bytes "nan") then inl F32NaN
    else
      let '(d1, s2) := span_digits s1 in
      let '(d2, s3) := match s2 with
                       | 46 :: t => span_digits t
                       | _ => ([], s2)
                       end in
      let exp :=
        match s3 with
        | [] => Some 0
        | c :: t =>
          if (c =? 101) || (c =? 69) then
            let '(eneg, t') := match t with
                               | 43 :: t' => (false, t')
                               | 45 :: t' => (true, t')
                               | _ => (false, t)
                               end in
            let '(d3, rest) := span_digits t' in
            match d3, rest with
            | _ :: _, [] => Some (if eneg then - digits_value d3 else digits_value d3)
            | _, _ => None
            end
          else None
        end in
      match d1 ++ d2, exp with
      | [], _ => inr FEInvalid
      | _, None => inr FEInvalid
      | ds, Some x =>
        let k := x - Z.of_nat (List.length d2) in
        let n := digits_value ds in
        inl (if k >=? 0 then round_f32 neg (n * 10 ^ k) 1
             else round_f32 neg n (10 ^ (- k)))
      end
  end.

(** [a * 10^k] against [b * 2^p], for non-negative [a] and [b]. *)
Definition cmp_dec_bin (a k b p : Z) : comparison :=
  Z.compare (a * 10 ^ Z.max k 0 * 2 ^ Z.max (- p) 0)
            (b * 2 ^ Z.max p 0 * 10 ^ Z.max (- k) 0).

(** [floor (b * 2^p / 10^k)]. *)
Definition div_bin_dec (b p k : Z) : Z :=
  (b * 2 ^ Z.max p 0 * 10 ^ Z.max (- k) 0) / (2 ^ Z.max (- p) 0 * 10 ^ Z.max k 0).

Definition is_gt (c : comparison) : bool := match c with Gt => true | _ => false end.
Definition is_lt (c : comparison) : bool := match c with Lt => true | _ => false end.

Fixpoint adjust_down (fuel : nat) (g b p : Z) : Z :=
  match fuel with
  | O => g
  | S f => if is_gt (cmp_dec_bin 1 g b p) then adjust_down f (g - 1) b p else g
  end.
Fixpoint adjust_up (fuel : nat) (g b p : Z) : Z :=
  match fuel with
  | O => g
  | S f => if negb (is_gt (cmp_dec_bin 1 (g + 1) b p)) then adjust_up f (g + 1) b p else g
  end.

(** The shortest decimal [c * 10^k] that reads back as the positive finite
    [f32] [m * 2^e] (round-half-even boundaries are included when [m] is
    even); among the shortest, the closest.  This is the digit generation
    of Rust's [Display for f32] ([flt2dec::to_shortest_str]). *)
Definition shortest_digits (m e : Z) : Z * Z :=
  let p := e - 2 in
  let v := 4 * m in
  let lo := if (m =? 2 ^ 23) && (e >? -149) then 4 * m - 1 else 4 * m - 2 in
  let hi := 4 * m + 2 in
  let incl := Z.even m in
  let in_range c k :=
    let l := cmp_dec_bin c k lo p in
    let h := cmp_dec_bin c k hi p in
    if incl then negb (is_lt l) && negb (is_gt h) else is_gt l && is_lt h in
  let g := ((Z.log2 m + e) * 30103) / 100000 in
  let e10 := adjust_up 4 (adjust_down 4 g v p) v p in
  let fix search (fuel : nat) (n : Z) : Z * Z :=
    match fuel with
    | O => (0, 0)
    | S f =>
      let k := e10 + 1 - n in
      let c1 := div_bin_dec v p k in
      let c2 := c1 + 1 in
      match in_range c1 k, in_range c2 k with
      | true, true =>
        match cmp_dec_bin (2 * c1 + 1) k (2 * v) p with
        | Gt => (c1, k)
        | Lt => (c2, k)
        | Datatypes.Eq => if Z.even c1 then (c1, k) else (c2, k)
        end
      | true, false => (c1, k)
      | false, true => (c2, k)
      | false, false => search f (n + 1)
      end
    end in
  search 17%nat 1.

Fixpoint strip_zeros (fuel : nat) (c k : Z) : Z * Z :=
  match fuel with
  | O => (c, k)
  | S f => if (c >? 0) && (c mod 10 =? 0) then strip_zeros f (c / 10) (k + 1) else (c, k)
  end.

(** Positional notation of [c * 10^k], as [Display for f32] prints it. *)
Definition format_decimal (c k : Z) : list Z :=
  let s := dec_digits c in
  if k >=? 0 then s ++ repeat 48 (Z.to_nat k)
  else
    let pt := Z.of_nat (List.length s) + k in
    if pt >? 0 then firstn (Z.to_nat pt) s ++ [46] ++ skipn (Z.to_nat pt) s
    else [48; 46] ++ repeat 48 (Z.to_nat (- pt)) ++ s.

(** [f32::to_string]. *)
Definition f32_to_string (v : f32) : list Z :=
  match v with
  | F32NaN => bytes "NaN"
  | F32Inf neg => (if neg then [45] else []) ++ bytes "inf"
  | F32Fin neg m e =>
    (if neg then [45] else []) ++
    (if m =? 0 then [48]
     else let '(c, k) := shortest_digits m e in
          let '(c, k) := strip_zeros 20 c k in
          format_decimal c k)
  end.

(** [PartialEq for f32]: NaN is unequal to itself, the two zeros are equal. *)
Definition f32_eqb (a b : f32) : bool :=
  match a, b with
  | F32Fin n1 m1 e1, F32Fin n2 m2 e2 =>
    ((m1 =? 0) && (m2 =? 0)) || (Bool.eqb n1 n2 && (m1 =? m2) && (e1 =? e2))
  | F32Inf n1, F32Inf n2 => Bool.eqb n1 n2
  | _, _ => false
  end.

(* ------------------------------------------------------------------------- *)
(** ** [i32::from_str_radix] *)

Inductive IntErrorKind := IEEmpty | IEInvalidDigit | IEPosOverflow | IENegOverflow.

Definition i32_min : Z := - 2 ^ 31.
Definition i32_max : Z := 2 ^ 31 - 1.

(** One digit at a time: the digit is checked, then [checked_mul], then
    [checked_add] (or [checked_sub] for a negative literal). *)
Fixpoint accumulate (pos : bool) (radix result : Z) (digits : list Z) : Z + IntErrorKind :=
  match digits with
  | [] => inl result
  | c :: t =>
    match to_digit c radix with
    | None => inr IEInvalidDigit
    | Some x =>
      let mul := result * radix in
      if pos then
        if mul >? i32_max then inr IEPosOverflow
        else if mul + x >? i32_max then inr IEPosOverflow
        else accumulate pos radix (mul + x) t
      else
        if mul <? i32_min then inr IENegOverflow
        else if mul - x <? i32_min then inr IENegOverflow
        else accumulate pos radix (mul - x) t
    end
  end.

Definition from_str_radix_i32 (src : list Z) (radix : Z) : Z + IntErrorKind :=
  match src with
  | [] => inr IEEmpty
  | [43] | [45] => inr IEInvalidDigit
  | 43 :: t => accumulate true radix 0 t
  | 45 :: t => accumulate false radix 0 t
  | _ => accumulate true radix 0 src
  end.

(* ------------------------------------------------------------------------- *)
(** ** Tokens, locations and diagnostics *)

(** [Token]; [TString] is [Token::String].  Strings are Latin-1 code points. *)
Inductive Token :=
| Eof
| Punct (p : Punctuation)
| Ident (name : list Z) (ws : bool)
| TString (s : list Z)
| InterpStringBegin (s : list Z)
| InterpStringPart (s : list Z)
| InterpStringEnd (s : list Z)
| Resource (s : list Z)
| Int (i : Z)
| Float (f : f32).

(** [PartialEq for Token] (derived; floats compare as [f32]). *)
Definition token_eqb (a b : Token) : bool :=
  match a, b with
  | Eof, Eof => true
  | Punct p, Punct q => Punctuation_beq p q
  | Ident x w1, Ident y w2 => list_Z_eqb x y && Bool.eqb w1 w2
  | TString x, TString y | InterpStringBegin x, InterpStringBegin y
  | InterpStringPart x, InterpStringPart y | InterpStringEnd x, InterpStringEnd y
  | Resource x, Resource y => list_Z_eqb x y
  | Int x, Int y => x =? y
  | Float x, Float y => f32_eqb x y
  | _, _ => false
  end.

(** Modelled from the spec: [Location] of §3 (file id, line, column). *)
Record Location := mkLocation { file : N; line : N; column : N }.

(** Modelled from the spec: the severities of §6 (default [Error]). *)
Inductive Severity := SevError | SevWarning | SevHint.

(** An entry of the parser's [expected] list: a literal label, or
    [format!("'{}'", tok)] as [exact] builds it, or
    [format!("newline, '{}'", terminator)] as [tree_entries] builds it. *)
Inductive Label := LStr (s : string) | LTok (t : Token) | LNewlineTok (t : Token).

(** Diagnostic messages.  A message built with [format!] is kept as the
    constructor of its format string applied to the formatted values. *)
Inductive Msg :=
| MsgIo                                        (* "i/o error" *)
| MsgText (s : string)                         (* a fixed message *)
| MsgPrecisionLoss (buf : list Z) (val : f32)  (* "precision loss of integer constant: \"{}\" to {}" *)
| MsgBadInteger (radix : Z) (buf : list Z) (e : IntErrorKind)  (* "bad base-{} integer \"{}\": {}" *)
| MsgBadFloat (buf : list Z) (e : FloatErrorKind)              (* "bad float \"{}\": {}" *)
| MsgIllegalByte (b : Z)                       (* "illegal byte 0x{:x}" *)
| MsgGotExpected (got : Token) (expected : list Label)  (* "got '{}', expected one of: {}" *)
| MsgIoExpected (expected : list Label)       (* "i/o error, expected one of: {}" *)
| MsgPathStarted (p : Punctuation)             (* "path started by '{}', should be unprefixed" *)
| MsgPathSeparated (p : Punctuation)           (* "path separated by '{}', should be '/'" *)
| MsgNestedAbsolute (path parent : list (list Z))  (* "nested absolute path: {:?} inside {:?}" *)
| MsgBadInputType (ident : list Z).            (* "bad input type: '{}'" *)

(** Modelled from the spec: [DMError] of §6 (location, severity, message). *)
Record Diag := mkDiag { dloc : Location; dsev : Severity; dmsg : Msg }.

Definition set_severity (s : Severity) (d : Diag) : Diag := mkDiag (dloc d) s (dmsg d).

Record LocatedToken := mkLocatedToken { location : Location; token : Token }.

(* ------------------------------------------------------------------------- *)
(** ** The lexer *)

(** One item of the input iterator [Iterator<Item = io::Result<u8>>]. *)
Inductive IoItem := IoByte (b : Z) | IoErr.

(** [Interpolation]: the saved end delimiter and the bracket depth. *)
Record Interpolation := mkInterp { iend : list Z; bracket_depth : Z }.

Inductive Directive := DNone | DHash | DOrdinary | DStringy.

Definition directive_eqb (a b : Directive) : bool :=
  match a, b with
  | DNone, DNone | DHash, DHash | DOrdinary, DOrdinary | DStringy, DStringy => true
  | _, _ => false
  end.

(** The fields of [Lexer] and of its [LocationTracker], and the diagnostics
    registered with the shared [Context] so far (oldest first).  The
    interpolation stack has its top (Rust's [last]) first. *)
Record LexState := mkLex {
  ctx : list Diag;
  inner : list IoItem;              (* LocationTracker.inner *)
  loc : Location;                   (* LocationTracker.location *)
  at_line_end : bool;               (* LocationTracker.at_line_end *)
  nextb : option Z;                 (* Lexer.next *)
  final_newline : bool;
  at_line_head : bool;
  directive : Directive;
  interp_stack : list Interpolation;
}.

Definition set_ctx c s := mkLex c (inner s) (loc s) (at_line_end s) (nextb s) (final_newline s) (at_line_head s) (directive s) (interp_stack s).
Definition set_inner i s := mkLex (ctx s) i (loc s) (at_line_end s) (nextb s) (final_newline s) (at_line_head s) (directive s) (interp_stack s).
Definition set_loc l s := mkLex (ctx s) (inner s) l (at_line_end s) (nextb s) (final_newline s) (at_line_head s) (directive s) (interp_stack s).
Definition set_at_line_end b s := mkLex (ctx s) (inner s) (loc s) b (nextb s) (final_newline s) (at_line_head s) (directive s) (interp_stack s).
Definition set_nextb n s := mkLex (ctx s) (inner s) (loc s) (at_line_end s) n (final_newline s) (at_line_head s) (directive s) (interp_stack s).
Definition set_final_newline b s := mkLex (ctx s) (inner s) (loc s) (at_line_end s) (nextb s) b (at_line_head s) (directive s) (interp_stack s).
Definition set_at_line_head b s := mkLex (ctx s) (inner s) (loc s) (at_line_end s) (nextb s) (final_newline s) b (directive s) (interp_stack s).
Definition set_directive d s := mkLex (ctx s) (inner s) (loc s) (at_line_end s) (nextb s) (final_newline s) (at_line_head s) d (interp_stack s).
Definition set_interp_stack st s := mkLex (ctx s) (inner s) (loc s) (at_line_end s) (nextb s) (final_newline s) (at_line_head s) (directive s) st.

(** [Lexer::new]. *)
Definition lexer_new (file_number : N) (input : list IoItem) : LexState :=
  mkLex [] input (mkLocation file_number 0 0) true None false true DNone [].

(** The lexer monad: state passing, [None] is a panic. *)
Definition LexM (A : Type) := LexState -> option (A * LexState).
Definition lret {A} (a : A) : LexM A := fun s => Some (a, s).
Definition lbind {A B} (m : LexM A) (k : A -> LexM B) : LexM B :=
  fun s => match m s with Some (a, s') => k a s' | None => None end.
Declare Scope lex_scope.
Notation "x <- m ;; k" := (lbind m (fun x => k))
  (at level 61, m at next level, right associativity) : lex_scope.
Notation "m ;;; k" := (lbind m (fun _ => k)) (at level 61, right associativity) : lex_scope.
Open Scope lex_scope.
Definition lget : LexM LexState := fun s => Some (s, s).
Definition lmodify (f : LexState -> LexState) : LexM unit := fun s => Some (tt, f s).
Definition lpanic {A} : LexM A := fun _ => None.

(** [Context::register_error]. *)
Definition register_error (d : Diag) : LexM unit := lmodify (fun s => set_ctx (ctx s ++ [d]) s).

(** [HasLocation::error]: a diagnostic at the tracker's location. *)
Definition lex_error (m : Msg) : LexM Diag := fun s => Some (mkDiag (loc s) SevError m, s).

(** [LocationTracker::next]: line and column are updated as in the source
    (the [checked_add] overflow panics are not modelled). *)
Definition tracker_next (s : LexState) : option (Z + Diag) * LexState :=
  let s := if at_line_end s
           then set_loc (mkLocation (file (loc s)) (line (loc s) + 1)%N 0) (set_at_line_end false s)
           else s in
  match inner s with
  | [] => (None, s)
  | IoByte ch :: rest =>
    let s := set_inner rest s in
    let s := if ch =? 10 then set_at_line_end true s else s in
    (Some (inl ch), set_loc (mkLocation (file (loc s)) (line (loc s)) (column (loc s) + 1)%N) s)
  | IoErr :: rest =>
    (Some (inr (mkDiag (loc s) SevError MsgIo)), set_inner rest s)
  end.

(** [Lexer::next] (the byte-level one). *)
Definition next : LexM (option Z) := fun s =>
  match nextb s with
  | Some b => Some (Some b, set_nextb None s)
  | None =>
    let previous_loc := loc s in
    let '(result, s) := tracker_next s in
    let s := if N.ltb (line previous_loc) (line (loc s))
             then set_directive DNone (set_at_line_head true s) else s in
    match result with
    | None => Some (None, s)
    | Some (inl ch) =>
      Some (Some ch, if negb (ch =? 9) && negb (ch =? 32) then set_at_line_head false s else s)
    | Some (inr err) => Some (None, set_ctx (ctx s ++ [err]) s)
    end
  end.

(** [Lexer::put_back]: panics when the slot is already full. *)
Definition put_back (v : option Z) : LexM unit := fun s =>
  match nextb s with
  | Some _ => None
  | None => Some (tt, set_nextb v s)
  end.

(** Fuel for a loop that reads one byte per iteration: more than the
    bytes still to come (the input and the put-back slot). *)
Definition lex_fuel (s : LexState) : nat := (List.length (inner s) + 2)%nat.

(** [Lexer::skip_block_comments]; [depth] is an [i32], [buffer] a [[u8; 2]]. *)
Fixpoint skip_block_loop (fuel : nat) (depth b0 b1 : Z) : LexM unit :=
  match fuel with
  | O => lpanic
  | S f =>
    if depth >? 0 then
      let b0 := b1 in
      c <- next ;;
      match c with
      | Some b1 =>
        if (b0 =? 47) && (b1 =? 42) then skip_block_loop f (depth + 1) b0 b1
        else if (b0 =? 42) && (b1 =? 47) then skip_block_loop f (depth - 1) b0 b1
        else skip_block_loop f depth b0 b1
      | None =>
        e <- lex_error (MsgText "still skipping comments at end of file") ;;
        register_error e
      end
    else lret tt
  end.
Definition skip_block_comments : LexM unit := fun s => skip_block_loop (lex_fuel s) 1 0 0 s.

(** [Lexer::skip_line_comment]. *)
Fixpoint skip_line_loop (fuel : nat) (backslash : bool) : LexM unit :=
  match fuel with
  | O => lpanic
  | S f =>
    c <- next ;;
    match c with
    | None => lret tt
    | Some ch =>
      if ch =? 13 then skip_line_loop f backslash
      else if backslash then skip_line_loop f false
      else if ch =? 10 then lret tt
      else if ch =? 92 then skip_line_loop f true
      else skip_line_loop f backslash
    end
  end.
Definition skip_line_comment : LexM unit := fun s => skip_line_loop (lex_fuel s) false s.

(** The [for &expect in b"INF"] loop of [read_number_inner]. *)
Fixpoint expect_inf (expects buf : list Z) : LexM (bool * Z * list Z) :=
  match expects with
  | [] => lret (false, 10, bytes "inf")
  | e :: rest =>
    c <- next ;;
    match c with
    | Some ch => if ch =? e then expect_inf rest buf else lret (false, 10, buf ++ [ch])
    | None => lret (false, 10, buf)
    end
  end.

(** The main loop of [Lexer::read_number_inner]. *)
Fixpoint number_loop (fuel : nat) (integer exponent : bool) (radix : Z) (buf : list Z)
  : LexM (bool * Z * list Z) :=
  match fuel with
  | O => lpanic
  | S f =>
    c <- next ;;
    match c with
    | Some ch =>
      if ch =? 95 then number_loop f integer exponent radix buf
      else if (ch =? 46) || (ch =? 101) then
        number_loop f false (exponent || (ch =? 101)) radix (buf ++ [ch])
      else if ((ch =? 43) || (ch =? 45)) && exponent then
        number_loop f integer exponent radix (buf ++ [ch])
      else if (ch =? 35) && negb integer then expect_inf (bytes "INF") (buf ++ [35])
      else if is_digit_radix ch (Z.max radix 10) then
        number_loop f integer false radix (buf ++ [ch])
      else put_back (Some ch) ;;; lret (integer, radix, buf)
    | None => put_back None ;;; lret (integer, radix, buf)
    end
  end.

(** [Lexer::read_number_inner]: (integer?, radix, digits). *)
Definition read_number_inner (first : Z) : LexM (bool * Z * list Z) :=
  if first =? 46 then (fun s => number_loop (lex_fuel s) false false 10 [first] s)
  else if first =? 48 then
    c <- next ;;
    match c with
    | Some 120 => fun s => number_loop (lex_fuel s) true false 16 [first] s
    | ch => put_back ch ;;; (fun s => number_loop (lex_fuel s) true false 8 [first] s)
    end
  else (fun s => number_loop (lex_fuel s) true false 10 [first] s).

(** [Lexer::read_number]. *)
Definition read_number (first : Z) : LexM Token :=
  r <- read_number_inner first ;;
  let '(integer, radix, buf) := r in
  if integer then
    match from_str_radix_i32 buf radix with
    | inl val => lret (Int val)
    | inr original_error =>
      let retry := if radix =? 10 then
                     match f32_from_str buf with inl val => Some val | inr _ => None end
                   else None in
      match retry with
      | Some val =>
        (if negb (list_Z_eqb (f32_to_string val) buf) then
           e <- lex_error (MsgPrecisionLoss buf val) ;;
           register_error (set_severity SevWarning e)
         else lret tt) ;;;
        lret (Float val)
      | None =>
        e <- lex_error (MsgBadInteger radix buf original_error) ;;
        register_error e ;;;
        lret (Int 0)
      end
    end
  else
    match f32_from_str buf with
    | inl val => lret (Float val)
    | inr err =>
      e <- lex_error (MsgBadFloat buf err) ;;
      register_error e ;;;
      lret (Float f32_zero)
    end.

(** [Lexer::read_ident]. *)
Fixpoint ident_loop (fuel : nat) (ident : list Z) : LexM (list Z) :=
  match fuel with
  | O => lpanic
  | S f =>
    c <- next ;;
    match c with
    | Some ch => if is_ident ch || is_digit ch then ident_loop f (ident ++ [ch])
                 else put_back (Some ch) ;;; lret ident
    | None => put_back None ;;; lret ident
    end
  end.
Definition read_ident (first : Z) : LexM (list Z) := fun s => ident_loop (lex_fuel s) [first] s.

(** [Lexer::read_resource]. *)
Fixpoint resource_loop (fuel : nat) (start_loc : Location) (buf : list Z) : LexM (list Z) :=
  match fuel with
  | O => lpanic
  | S f =>
    c <- next ;;
    match c with
    | Some ch => if ch =? 39 then lret buf else resource_loop f start_loc (buf ++ [ch])
    | None =>
      register_error (mkDiag start_loc SevError (MsgText "unterminated resource literal")) ;;;
      lret buf
    end
  end.
Definition read_resource : LexM (list Z) := fun s => resource_loop (lex_fuel s) (loc s) [] s.

(** [Lexer::skip_ws]. *)
Fixpoint skip_ws_loop (fuel : nat) (skip_newlines : Z) : LexM (option Z) :=
  match fuel with
  | O => lpanic
  | S f =>
    c <- next ;;
    s <- lget ;;
    match c with
    | Some ch =>
      if ch =? 13 then skip_ws_loop f skip_newlines
      else if ((ch =? 32) || (ch =? 9)) && (negb (at_line_head s) || (skip_newlines >? 0))
      then skip_ws_loop f skip_newlines
      else if (ch =? 10) && (skip_newlines =? 2) then skip_ws_loop f 1
      else lret (Some ch)
    | None => lret None
    end
  end.
Definition skip_ws (skip_newlines : bool) : LexM (option Z) :=
  fun s => skip_ws_loop (lex_fuel s) (if skip_newlines then 2 else 0) s.

(** The loop of [Lexer::read_string]; returns the buffer and
    [interp_opened]. *)
Fixpoint string_loop (fuel : nat) (end_ : list Z) (start_loc : Location)
  (buf : list Z) (backslash : bool) (idx : nat) : LexM (list Z * bool) :=
  match fuel with
  | O => lpanic
  | S f =>
    c <- next ;;
    match c with
    | None =>
      register_error (mkDiag start_loc SevError (MsgText "unterminated string literal")) ;;;
      lret (buf, false)
    | Some ch =>
      match nth_error end_ idx, nth_error end_ 0 with
      | Some end_idx, Some end_0 =>
        if (ch =? end_idx) && negb backslash then
          let idx := S idx in
          if Nat.eqb idx (List.length end_) then lret (buf, false)
          else string_loop f end_ start_loc buf backslash idx
        else
          let '(buf, idx) :=
            if (ch =? end_0) && negb backslash
            then (buf ++ firstn idx end_, 1%nat)   (* the '""}' hack *)
            else (buf ++ firstn idx end_, 0%nat) in
          if ((ch =? 13) || (ch =? 10)) && backslash then
            nx <- skip_ws true ;;
            put_back nx ;;;
            string_loop f end_ start_loc buf false idx
          else if backslash then
            (* escape sequence handling happens at a later stage *)
            string_loop f end_ start_loc (buf ++ [92; ch]) false idx
          else if ch =? 91 then
            lmodify (fun s => set_interp_stack (mkInterp end_ 1 :: interp_stack s) s) ;;;
            lret (buf, true)
          else if ch =? 92 then string_loop f end_ start_loc buf true idx
          else string_loop f end_ start_loc (buf ++ [ch]) backslash idx
      | _, _ => lpanic   (* index out of bounds *)
      end
    end
  end.

(** [Lexer::read_string]. *)
Definition read_string (end_ : list Z) (interp_closed : bool) : LexM Token :=
  fun s =>
  (r <- string_loop (lex_fuel s) end_ (loc s) [] false 0 ;;
   let '(buf, interp_opened) := r in
   lret (match interp_opened, interp_closed with
         | true, true => InterpStringPart buf
         | true, false => InterpStringBegin buf
         | false, true => InterpStringEnd buf
         | false, false => TString buf
         end)) s.

Fixpoint skip_while {A} (p : A -> bool) (l : list A) : list A :=
  match l with
  | x :: t => if p x then skip_while p t else l
  | [] => []
  end.
Fixpoint take_while {A} (p : A -> bool) (l : list A) : list A :=
  match l with
  | x :: t => if p x then x :: take_while p t else []
  | [] => []
  end.

(** [tok[0]] (every table entry is non-empty). *)
Definition first_byte (e : list Z * Punctuation) : Z :=
  match fst e with b :: _ => b | [] => 0 end.

(** The loop of [Lexer::read_punct].  The fuel is the number of retained
    entries, which every iteration that goes on strictly decreases. *)
Fixpoint punct_loop (fuel : nat) (items : list (list Z * Punctuation)) (needle : list Z)
  : LexM (option Punctuation) :=
  match fuel with
  | O => lpanic
  | S f =>
    match items with
    | [] => lpanic   (* items[0] out of bounds *)
    | (_, p0) :: _ =>
      let candidate := Some p0 in
      if Nat.eqb (List.length items) 1 then lret candidate else
      c <- next ;;
      match c with
      | None => lret candidate   (* EOF *)
      | Some b =>
        let needle := needle ++ [b] in
        let items := filter (fun e => starts_with (fst e) needle) items in
        match items with
        | [] => put_back (Some b) ;;; lret candidate
        | _ => punct_loop f items needle
        end
      end
    end
  end.

(** The run of [PUNCT_TABLE] selected by [read_punct]'s [skip_while] and
    [take_while]. *)
Definition punct_items (first : Z) : list (list Z * Punctuation) :=
  take_while (fun e => first_byte e =? first) (skip_while (fun e => first_byte e <? first) PUNCT_TABLE).

(** [Lexer::read_punct]. *)
Definition read_punct (first : Z) : LexM (option Punctuation) :=
  let items := punct_items first in
  match items with
  | [] => lret None
  | _ => punct_loop (List.length items) items [first]
  end.

(** The [loop] of [Iterator::next for Lexer]. *)
Fixpoint iter_loop (fuel : nat) (skip_newlines found_illegal : bool) : LexM (option LocatedToken) :=
  match fuel with
  | O => lpanic
  | S f =>
    fst_ <- skip_ws skip_newlines ;;
    match fst_ with
    | None =>
      (* always end with a newline *)
      s <- lget ;;
      if negb (final_newline s) then
        lmodify (set_final_newline true) ;;;
        let l := loc s in
        lret (Some (mkLocatedToken (mkLocation (file l) (line l) (column l + 1)) (Punct Newline)))
      else lret None
    | Some first =>
      s <- lget ;;
      let locate t := Some (mkLocatedToken (loc s) t) in
      if directive_eqb (directive s) DStringy then
        lmodify (set_directive DNone) ;;;
        put_back (Some first) ;;;
        t <- read_string [10] false ;;
        lret (locate t)
      else
      punct <- read_punct first ;;
      s1 <- lget ;;
      match punct with
      | Some Hash =>
        if directive_eqb (directive s1) DNone then
          lmodify (set_directive DHash) ;;; lret (locate (Punct Hash))
        else lret (locate (Punct Hash))
      | Some BlockComment => skip_block_comments ;;; iter_loop f false found_illegal
      | Some LineComment => skip_line_comment ;;; lret (locate (Punct Newline))
      | Some SingleQuote => r <- read_resource ;; lret (locate (Resource r))
      | Some DoubleQuote => t <- read_string [34] false ;; lret (locate t)
      | Some BlockString => t <- read_string [34; 125] false ;; lret (locate t)
      | Some LBracket =>
        lmodify (fun s => match interp_stack s with
                          | top :: rest =>
                            set_interp_stack (mkInterp (iend top) (bracket_depth top + 1) :: rest) s
                          | [] => s
                          end) ;;;
        lret (locate (Punct LBracket))
      | Some RBracket =>
        match interp_stack s1 with
        | top :: rest =>
          let d := bracket_depth top - 1 in
          lmodify (set_interp_stack rest) ;;;
          if d =? 0 then t <- read_string (iend top) true ;; lret (locate t)
          else lmodify (set_interp_stack (mkInterp (iend top) d :: rest)) ;;;
               lret (locate (Punct RBracket))
        | [] => lret (locate (Punct RBracket))
        end
      | Some v => lret (locate (Punct v))
      | None =>
        if is_digit first then t <- read_number first ;; lret (locate t)
        else if is_ident first then
          ident <- read_ident first ;;
          nx <- next ;;
          put_back nx ;;;
          let ws := match nx with Some b => (b =? 32) || (b =? 9) | None => false end in
          s2 <- lget ;;
          (if directive_eqb (directive s2) DHash then
             if list_Z_eqb ident (bytes "warn") || list_Z_eqb ident (bytes "error")
             then lmodify (set_directive DStringy)
             else lmodify (set_directive DOrdinary)
           else lret tt) ;;;
          (* check keywords *)
          match find (fun e => list_Z_eqb (fst e) ident) PUNCT_TABLE with
          | Some (_, v) => lret (locate (Punct v))
          | None => lret (locate (Ident ident ws))
          end
        else if first =? 92 then
          lmodify (set_at_line_head false) ;;; iter_loop f true found_illegal
        else if first =? 64 then iter_loop f false found_illegal
        else
          (if negb found_illegal then
             e <- lex_error (MsgIllegalByte first) ;; register_error e
           else lret tt) ;;;
          iter_loop f false true
      end
    end
  end.

(** [Iterator::next for Lexer]. *)
Definition iter_next : LexM (option LocatedToken) := fun s => iter_loop (lex_fuel s) false false s.

(** Drains the iterator until it returns [None]. *)
Fixpoint lex_all (fuel : nat) : LexM (list LocatedToken) :=
  match fuel with
  | O => lpanic
  | S f =>
    t <- iter_next ;;
    match t with
    | None => lret []
    | Some t => rest <- lex_all f ;; lret (t :: rest)
    end
  end.

(** Lexes a whole file of bytes: the tokens, in order, and the final state. *)
Definition lex (input : list Z) : option (list LocatedToken * LexState) :=
  lex_all (List.length input + 3) (lexer_new 0 (map IoByte input)).

Definition lex_tokens (input : list Z) : option (list Token) :=
  match lex input with Some (ts, _) => Some (map token ts) | None => None end.

Definition lex_diags (input : list Z) : option (list Diag) :=
  match lex input with Some (_, s) => Some (ctx s) | None => None end.

(** [n] successive calls of the iterator. *)
Fixpoint iter_calls (n : nat) : LexM (list (option LocatedToken)) :=
  match n with
  | O => lret []
  | S k => t <- iter_next ;; rest <- iter_calls k ;; lret (t :: rest)
  end.

(** The state a lexer computation leaves (or [s] itself on a panic). *)
Definition lex_state_after {A} (m : LexM A) (s : LexState) : LexState :=
  match m s with Some (_, s') => s' | None => s end.

(** The input still to come: the put-back byte, then the reader's. *)
Definition pending (s : LexState) : list IoItem :=
  match nextb s with Some b => IoByte b :: inner s | None => inner s end.

(** The input after a run of digits ends a [0]-prefixed literal: its end,
    or a byte that is no digit, [_], [.], [e] or [x]. *)
Definition number_stops (rest : list IoItem) : bool :=
  match rest with
  | [] => true
  | IoByte t :: _ =>
    negb (is_digit t) && negb (t =? 95) && negb (t =? 46) && negb (t =? 101) && negb (t =? 120)
  | IoErr :: _ => false
  end.

(** Equality of [PUNCT_TABLE] entries. *)
Definition entry_eqb (a b : list Z * Punctuation) : bool :=
  list_Z_eqb (fst a) (fst b) && Punctuation_beq (snd a) (snd b).
(** What [read_punct] requires of [PUNCT_TABLE] ("that PUNCT_TABLE be
    ordered, shorter entries be first, and all entries with >1 character
    also have their prefix in the table"), as checks over the table, the
    keyword [in] apart: every entry is non-empty; every entry lies in the
    run [read_punct] selects for its first byte; and in that run, for every
    prefix of an entry, the first entry extending the prefix is the prefix
    itself. *)
Definition punct_table_nonempty : bool := forallb (fun e => match fst e with [] => false | _ => true end) PUNCT_TABLE.
Definition punct_table_grouped : bool :=
  forallb (fun e => (first_byte e =? 105) || existsb (entry_eqb e) (punct_items (first_byte e)))
    PUNCT_TABLE.
Definition punct_table_prefixes : bool :=
  forallb (fun e => (first_byte e =? 105) ||
    forallb (fun k =>
      let n := firstn k (fst e) in
      match filter (fun e' => starts_with (fst e') n) (punct_items (first_byte e)) with
      | (k0, _) :: _ => list_Z_eqb k0 n
      | [] => false
      end) (seq 1 (List.length (fst e)))) PUNCT_TABLE.


(* ------------------------------------------------------------------------- *)
(** ** The syntax tree built by the parser *)

(** The AST of [ast.rs], with the constructors [parser.rs] uses.  Rust's
    [UnaryOp], [BinaryOp], [AssignOp], [Term], [Follow] and [Statement]
    variants are prefixed here ([UNeg], [BPow], [AAssign], [TermInt],
    [FollowIndex], [SIf], ...) since Rocq constructors share one name space
    with [Punctuation] and [Token]. *)
Inductive UnaryOp := UNeg | UNot | UBitNot | UPreIncr | UPreDecr | UPostIncr | UPostDecr.

Inductive BinaryOp :=
| BPow | BMul | BDiv | BMod | BAdd | BSub | BLess | BGreater | BLessEq | BGreaterEq
| BLShift | BRShift | BEq | BNotEq | BEquiv | BNotEquiv | BBitAnd | BBitXor | BBitOr
| BAnd | BOr | BIn.

Inductive AssignOp :=
| AAssign | AAddAssign | ASubAssign | AMulAssign | ADivAssign | AModAssign
| ABitAndAssign | ABitOrAssign | ABitXorAssign | ALShiftAssign | ARShiftAssign.

Scheme Equality for UnaryOp.
Scheme Equality for BinaryOp.
Scheme Equality for AssignOp.

Inductive PathOp := PSlash | PDot | PColon.
Inductive IndexKind := KDot | KSafeDot | KSafeColon.

(** [InputType] is a set of bit flags; [|=] is [N.lor], the default is 0. *)
Definition InputType := N.

Inductive Expression :=
| EBase (unary : list UnaryOp) (term : Term) (follow : list Follow)
| EBinaryOp (op : BinaryOp) (lhs rhs : Expression)
| EAssignOp (op : AssignOp) (lhs rhs : Expression)
| ETernaryOp (cond if_ else_ : Expression)
with Term :=
| TermNull
| TermNew (type_ : NewType) (args : option (list Expression))
| TermList (args : list Expression)
| TermDynamicCall (lhs_args rhs_args : list Expression)
| TermInput (args : list Expression) (input_type : InputType) (in_list : option Expression)
| TermLocate (args : list Expression) (in_list : option Expression)
| TermCall (name : list Z) (args : list Expression)
| TermIdent (name : list Z)
| TermParentCall (args : list Expression)
| TermPrefab (p : Prefab)
| TermString (s : list Z)
| TermResource (s : list Z)
| TermInt (i : Z)
| TermFloat (f : f32)
| TermExpr (e : Expression)
| TermInterpString (begin : list Z) (parts : list (option Expression * list Z))
with Follow :=
| FollowIndex (e : Expression)
| FollowField (kind : IndexKind) (name : list Z)
| FollowCall (kind : IndexKind) (name : list Z) (args : list Expression)
with NewType :=
| NewIdent (name : list Z)
| NewPrefab (p : Prefab)
| NewImplicit
with Prefab :=
| mkPrefab (path : list (PathOp * list Z)) (vars : list (list Z * Expression)).

(** Modelled from the spec: [Expression::from(Term)] is the bare term, with
    no unary operators and no follows. *)
Definition expr_of_term (t : Term) : Expression := EBase [] t [].

(** Modelled from the spec: a [VarType] built from a path, with [is_tmp]
    set when [tmp] occurs in it. *)
Record VarType := mkVarType { type_path : list (list Z); is_tmp : bool }.
Definition var_type_from_iter (path : list (list Z)) : VarType :=
  mkVarType path (existsb (fun p => list_Z_eqb p (bytes "tmp")) path).

Inductive SettingMode := SetAssign | SetIn.

Inductive Case_ := CaseExact (e : Expression) | CaseRange (lo hi : Expression).

Inductive Statement :=
| SExpr (e : Expression)
| SReturn (e : option Expression)
| SThrow (e : Expression)
| SWhile (cond : Expression) (block : list Statement)
| SDoWhile (block : list Statement) (cond : Expression)
| SIf (arms : list (Expression * list Statement)) (else_arm : option (list Statement))
| SForLoop (init : option Statement) (test : option Expression) (inc : option Statement)
           (block : list Statement)
| SForList (var_type : option VarType) (name : list Z) (input_type : InputType)
           (in_list : option Expression) (block : list Statement)
| SForRange (var_type : option VarType) (name : list Z) (start end_ : Expression)
            (step : option Expression) (block : list Statement)
| SVar (var_type : VarType) (name : list Z) (value : option Expression)
| SSpawn (delay : option Expression) (block : list Statement)
| SSwitch (input : Expression) (cases : list (list Case_ * list Statement))
          (default : option (list Statement))
| SSetting (name : list Z) (mode : SettingMode) (value : Expression).

Record Parameter_ := mkParameter {
  param_path : list (list Z); param_name : list Z; param_default : option Expression;
  param_input_type : InputType; param_in_list : option Expression }.

(* ------------------------------------------------------------------------- *)
(** ** The operator precedence table *)

Inductive Strength := Pow_ | Mul_ | Add_ | Compare | Shift | Equality | Bitwise
                    | And_ | Or_ | Assign_ | In_.

(** The derived [Ord]: declaration order, highest precedence first. *)
Definition strength_rank (s : Strength) : Z :=
  match s with
  | Pow_ => 0 | Mul_ => 1 | Add_ => 2 | Compare => 3 | Shift => 4 | Equality => 5
  | Bitwise => 6 | And_ => 7 | Or_ => 8 | Assign_ => 9 | In_ => 10
  end.
Definition strength_cmp (a b : Strength) : comparison :=
  Z.compare (strength_rank a) (strength_rank b).

Definition right_binding (s : Strength) : bool :=
  match s with Assign_ => true | _ => false end.

Inductive Op := OBinaryOp (op : BinaryOp) | OAssignOp (op : AssignOp).

Definition build (o : Op) (lhs rhs : Expression) : Expression :=
  match o with
  | OBinaryOp op => EBinaryOp op lhs rhs
  | OAssignOp op => EAssignOp op lhs rhs
  end.

Record OpInfo := mkOpInfo { strength : Strength; op_token : Punctuation; oper : Op }.

Definition matches (info : OpInfo) (t : Token) : bool :=
  match t with Punct p => Punctuation_beq (op_token info) p | _ => false end.

Definition BINARY_OPS : list OpInfo := [
  mkOpInfo Pow_ Pow (OBinaryOp BPow);
  mkOpInfo Mul_ Mul (OBinaryOp BMul);
  mkOpInfo Mul_ Slash (OBinaryOp BDiv);
  mkOpInfo Mul_ Mod (OBinaryOp BMod);
  mkOpInfo Add_ Add (OBinaryOp BAdd);
  mkOpInfo Add_ Sub (OBinaryOp BSub);
  mkOpInfo Compare Less (OBinaryOp BLess);
  mkOpInfo Compare Greater (OBinaryOp BGreater);
  mkOpInfo Compare LessEq (OBinaryOp BLessEq);
  mkOpInfo Compare GreaterEq (OBinaryOp BGreaterEq);
  mkOpInfo Shift LShift (OBinaryOp BLShift);
  mkOpInfo Shift RShift (OBinaryOp BRShift);
  mkOpInfo Equality Eq (OBinaryOp BEq);
  mkOpInfo Equality NotEq (OBinaryOp BNotEq);
  mkOpInfo Equality LessGreater (OBinaryOp BNotEq);
  mkOpInfo Equality Equiv (OBinaryOp BEquiv);
  mkOpInfo Equality NotEquiv (OBinaryOp BNotEquiv);
  mkOpInfo Bitwise BitAnd (OBinaryOp BBitAnd);
  mkOpInfo Bitwise BitXor (OBinaryOp BBitXor);
  mkOpInfo Bitwise BitOr (OBinaryOp BBitOr);
  mkOpInfo And_ And (OBinaryOp BAnd);
  mkOpInfo Or_ Or (OBinaryOp BOr);
  mkOpInfo Assign_ Assign (OAssignOp AAssign);
  mkOpInfo Assign_ AddAssign (OAssignOp AAddAssign);
  mkOpInfo Assign_ SubAssign (OAssignOp ASubAssign);
  mkOpInfo Assign_ MulAssign (OAssignOp AMulAssign);
  mkOpInfo Assign_ DivAssign (OAssignOp ADivAssign);
  mkOpInfo Assign_ ModAssign (OAssignOp AModAssign);
  mkOpInfo Assign_ BitAndAssign (OAssignOp ABitAndAssign);
  mkOpInfo Assign_ BitOrAssign (OAssignOp ABitOrAssign);
  mkOpInfo Assign_ BitXorAssign (OAssignOp ABitXorAssign);
  mkOpInfo Assign_ LShiftAssign (OAssignOp ALShiftAssign);
  mkOpInfo Assign_ RShiftAssign (OAssignOp ARShiftAssign);
  mkOpInfo In_ In (OBinaryOp BIn)].

(** [BINARY_OPS.iter().find(|op| op.matches(&next))]. *)
Definition find_op (t : Token) : option OpInfo := find (fun info => matches info t) BINARY_OPS.

(* ------------------------------------------------------------------------- *)
(** ** Parser state *)

(** A [PathStack] as the list of its [parts] slices, innermost first; the
    tail is the [parent] chain. *)
Definition PathStack := list (list (list Z)).
Definition path_iter (p : PathStack) : list (list Z) := List.concat (List.rev p).
Definition path_len (p : PathStack) : nat := List.length (path_iter p).
Definition path_contains (p : PathStack) (kw : string) : bool :=
  existsb (fun x => list_Z_eqb x (bytes kw)) (path_iter p).
Definition has_parent (p : PathStack) : bool :=
  match p with _ :: _ :: _ => true | _ => false end.

(** Modelled from the spec: the object-tree builder (§6) as the sequence of
    its [add_entry], [add_var] and [add_proc] calls, with the location, the
    path ([new_stack.iter()]) and the depth ([new_stack.len()]) they get. *)
Inductive TreeCall :=
| AddEntry (l : Location) (path : list (list Z)) (depth : nat)
| AddVar (l : Location) (path : list (list Z)) (depth : nat) (e : Expression)
| AddProc (l : Location) (path : list (list Z)) (depth : nat) (params : list Parameter_).

(** [Parser] ([annotations] is [None] in every parser [parse] builds, so
    [annotate] only performs its [updated_location]). *)
Record PState := mkP {
  pctx : list Diag;
  tree : list TreeCall;
  pinput : list LocatedToken;
  eof : bool;
  pnext : option Token;
  plocation : Location;
  expected : list Label;
  procs_bad : N;
  procs_good : N }.

Definition default_location : Location := mkLocation 0 0 0.

(** [Parser::new(context, input)]. *)
Definition parser_new (c : list Diag) (input : list LocatedToken) : PState :=
  mkP c [] input false None default_location [] 0 0.

Definition set_pctx c s := mkP c (tree s) (pinput s) (eof s) (pnext s) (plocation s) (expected s) (procs_bad s) (procs_good s).
Definition set_tree t s := mkP (pctx s) t (pinput s) (eof s) (pnext s) (plocation s) (expected s) (procs_bad s) (procs_good s).
Definition set_pinput i s := mkP (pctx s) (tree s) i (eof s) (pnext s) (plocation s) (expected s) (procs_bad s) (procs_good s).
Definition set_eof b s := mkP (pctx s) (tree s) (pinput s) b (pnext s) (plocation s) (expected s) (procs_bad s) (procs_good s).
Definition set_pnext n s := mkP (pctx s) (tree s) (pinput s) (eof s) n (plocation s) (expected s) (procs_bad s) (procs_good s).
Definition set_plocation l s := mkP (pctx s) (tree s) (pinput s) (eof s) (pnext s) l (expected s) (procs_bad s) (procs_good s).
Definition set_expected e s := mkP (pctx s) (tree s) (pinput s) (eof s) (pnext s) (plocation s) e (procs_bad s) (procs_good s).
Definition set_procs_bad n s := mkP (pctx s) (tree s) (pinput s) (eof s) (pnext s) (plocation s) (expected s) n (procs_good s).
Definition set_procs_good n s := mkP (pctx s) (tree s) (pinput s) (eof s) (pnext s) (plocation s) (expected s) (procs_bad s) n.

(** The parser monad: [inl] is [Ok], [inr] is [Err(DMError)] and [None] a
    panic (or exhausted fuel).  [Status<T>] is [PM (option T)]. *)
Definition PM (A : Type) := PState -> option ((A + Diag) * PState).
Definition pret {A} (a : A) : PM A := fun s => Some (inl a, s).
Definition perr {A} (e : Diag) : PM A := fun s => Some (inr e, s).
Definition ppanic {A} : PM A := fun _ => None.
(** The [?] operator. *)
Definition pbind {A B} (m : PM A) (k : A -> PM B) : PM B := fun s =>
  match m s with
  | Some (inl a, s') => k a s'
  | Some (inr e, s') => Some (inr e, s')
  | None => None
  end.
(** A [Result] kept as a value. *)
Definition ptry {A} (m : PM A) : PM (A + Diag) := fun s =>
  match m s with
  | Some (r, s') => Some (inl r, s')
  | None => None
  end.
Definition pget : PM PState := fun s => Some (inl s, s).
Definition pmodify (f : PState -> PState) : PM unit := fun s => Some (inl tt, f s).

Declare Scope parse_scope.
Notation "x <- m ;; k" := (pbind m (fun x => k))
  (at level 61, m at next level, right associativity) : parse_scope.
Notation "m ;;; k" := (pbind m (fun _ => k)) (at level 61, right associativity) : parse_scope.
Close Scope lex_scope.
Open Scope parse_scope.

Definition success {A} (a : A) : PM (option A) := pret (Some a).
Definition SUCCESS : PM (option unit) := pret (Some tt).
Definition pnone {A} : PM (option A) := pret None.

(** [self.error(msg)]: an error at the parser's location. *)
Definition perror (m : Msg) : PM Diag := fun s => Some (inl (mkDiag (plocation s) SevError m), s).
Definition pregister (d : Diag) : PM unit := pmodify (fun s => set_pctx (pctx s ++ [d]) s).

(** [leading!(e)]. *)
Definition leading {A B} (m : PM (option A)) (k : A -> PM (option B)) : PM (option B) :=
  r <- m ;; match r with Some x => k x | None => pnone end.

(* ------------------------------------------------------------------------- *)
(** ** Parser primitives *)

(** [Parser::next]; the label [None] is the empty string. *)
Definition pnext_tok (what : option Label) : PM Token := fun s =>
  let '(tok, s) :=
    match pnext s with
    | Some t => (inl t, set_pnext None s)
    | None =>
        match pinput s with
        | lt :: rest => (inl (token lt), set_plocation (location lt) (set_expected [] (set_pinput rest s)))
        | [] => if negb (eof s) then (inl Eof, set_eof true s)
                else (inr (mkDiag (plocation s) SevError (MsgText "read-after-EOF")), s)
        end
    end in
  let s := match what with Some w => set_expected (expected s ++ [w]) s | None => s end in
  Some (tok, s).

Definition pput_back (t : Token) : PM unit := fun s =>
  match pnext s with
  | Some _ => None
  | None => Some (inl tt, set_pnext (Some t) s)
  end.

Definition describe_parse_error : PM Diag :=
  s <- pget ;;
  let exp := expected s in
  r <- ptry (pnext_tok None) ;;
  match r with
  | inl got => pput_back got ;;; perror (MsgGotExpected got exp)
  | inr _ => perror (MsgIoExpected exp)
  end.

Definition parse_error {A} : PM A := d <- describe_parse_error ;; perr d.

(** [require!(self.e)]. *)
Definition require {A} (m : PM (option A)) : PM A :=
  r <- ptry m ;;
  match r with
  | inl (Some v) => pret v
  | inl None => parse_error
  | inr e => perr e
  end.

Definition updated_location : PM Location :=
  r <- ptry (pnext_tok None) ;;
  (match r with inl t => pput_back t | inr _ => pret tt end) ;;;
  s <- pget ;; pret (plocation s).

Definition annotate : PM unit := _ <- updated_location ;; pret tt.

Definition try_another {A} (t : Token) : PM (option A) := pput_back t ;;; pnone.

Definition exact (tok : Token) : PM (option unit) :=
  let message := match tok with Eof => LStr "EOF" | _ => LTok tok end in
  t <- pnext_tok (Some message) ;;
  if token_eqb t tok then SUCCESS else try_another t.

Definition ident : PM (option (list Z)) :=
  _ <- updated_location ;;
  t <- pnext_tok (Some (LStr "identifier")) ;;
  match t with
  | Ident i _ => annotate ;;; success i
  | other => try_another other
  end.

Definition exact_ident (id : string) : PM (option unit) :=
  t <- pnext_tok (Some (LStr id)) ;;
  match t with
  | Ident i _ => if list_Z_eqb i (bytes id) then SUCCESS else try_another t
  | other => try_another other
  end.

Definition path_separator : PM (option PathOp) :=
  t <- pnext_tok (Some (LStr "path separator")) ;;
  match t with
  | Punct Slash => success PSlash
  | Punct Dot => success PDot
  | Punct Colon => success PColon
  | other => try_another other
  end.

Definition comma_or_semicolon : PM (option unit) :=
  r <- exact (Punct Comma) ;;
  match r with
  | Some _ => SUCCESS
  | None => r <- exact (Punct Semicolon) ;;
            match r with Some _ => SUCCESS | None => pnone end
  end.

(** Fuel for a loop that reads at least one token every iteration (or every
    second one, or one per call and return of a nested group): the remaining
    input, the put-back slot, [Eof] and the read-after-EOF error, four times
    over. *)
Definition pfuel (s : PState) : nat := (4 * (List.length (pinput s) + 3))%nat.
Definition with_fuel {A} (k : nat -> PM A) : PM A := fun s => k (pfuel s) s.

Fixpoint tree_path_loop (fuel : nat) (parts : list (list Z)) : PM (list (list Z)) :=
  match fuel with
  | O => ppanic
  | S f =>
      t <- pnext_tok (Some (LStr "'/'")) ;;
      cont <- match t with
              | Punct Slash => pret true
              | Punct Dot => e <- perror (MsgPathSeparated Dot) ;;
                             pregister (set_severity SevWarning e) ;;; pret true
              | Punct Colon => e <- perror (MsgPathSeparated Colon) ;;
                               pregister (set_severity SevWarning e) ;;; pret true
              | t => pput_back t ;;; pret false
              end ;;
      if cont then
        i <- ident ;;
        tree_path_loop f (match i with Some i => parts ++ [i] | None => parts end)
      else pret parts
  end.

Definition tree_path : PM (option (bool * list (list Z))) :=
  _ <- updated_location ;;
  t <- pnext_tok (Some (LStr "'/'")) ;;
  flags <- match t with
           | Punct Slash => pret (true, false)
           | Punct Dot => e <- perror (MsgPathStarted Dot) ;;
                          pregister (set_severity SevWarning e) ;;; pret (false, true)
           | Punct Colon => e <- perror (MsgPathStarted Colon) ;;
                            pregister (set_severity SevWarning e) ;;; pret (false, true)
           | t => pput_back t ;;; pret (false, false)
           end ;;
  let '(absolute, spurious_lead) := flags in
  i <- ident ;;
  match i with
  | Some i => parts <- with_fuel (fun n => tree_path_loop n [i]) ;;
              annotate ;;; success (absolute, parts)
  | None =>
      if negb (absolute || spurious_lead) then pnone
      else e <- perror (MsgText "path has no effect") ;; pregister e ;;; success (absolute, [])
  end.

Fixpoint ignore_group_loop (fuel : nat) (left right : Punctuation) (depth : Z) : PM unit :=
  if 0 <? depth then
    match fuel with
    | O => ppanic
    | S f =>
        n <- pnext_tok (Some (LStr "anything")) ;;
        let depth := match n with
                     | Punct p => if Punctuation_beq p left then depth + 1
                                  else if Punctuation_beq p right then depth - 1 else depth
                     | _ => depth
                     end in
        ignore_group_loop f left right depth
    end
  else pret tt.

Definition ignore_group (left right : Punctuation) : PM (option unit) :=
  leading (exact (Punct left)) (fun _ =>
    with_fuel (fun n => ignore_group_loop n left right 1) ;;; SUCCESS).

Fixpoint var_annotations_loop (fuel : nat) : PM unit :=
  match fuel with
  | O => ppanic
  | S f =>
      r <- exact (Punct LBracket) ;;
      match r with
      | Some _ => pput_back (Punct LBracket) ;;; require (ignore_group LBracket RBracket) ;;;
                  var_annotations_loop f
      | None => pret tt
      end
  end.

Definition var_annotations : PM (option unit) := with_fuel var_annotations_loop ;;; SUCCESS.

Fixpoint unary_loop (fuel : nat) (unary_ops : list UnaryOp) : PM (list UnaryOp) :=
  match fuel with
  | O => ppanic
  | S f =>
      t <- pnext_tok (Some (LStr "unary operator")) ;;
      match t with
      | Punct Sub => unary_loop f (unary_ops ++ [UNeg])
      | Punct Not => unary_loop f (unary_ops ++ [UNot])
      | Punct BitNot => unary_loop f (unary_ops ++ [UBitNot])
      | Punct PlusPlus => unary_loop f (unary_ops ++ [UPreIncr])
      | Punct MinusMinus => unary_loop f (unary_ops ++ [UPreDecr])
      | other => pput_back other ;;; pret unary_ops
      end
  end.

Fixpoint prefab_loop (fuel : nat) (parts : list (PathOp * list Z)) : PM (list (PathOp * list Z)) :=
  match fuel with
  | O => ppanic
  | S f =>
      r <- path_separator ;;
      match r with
      | Some sep => i <- ident ;;
                    prefab_loop f (match i with Some i => parts ++ [(sep, i)] | None => parts end)
      | None => pret parts
      end
  end.

Fixpoint separated_loop {R} (fuel : nat) (sep terminator : Punctuation) (allow_empty : option R)
    (g : PM (option R)) (comma_legal : bool) (elems : list R) : PM (option (list R)) :=
  match fuel with
  | O => ppanic
  | S f =>
      r <- exact (Punct terminator) ;;
      match r with
      | Some _ => success elems
      | None =>
          r <- exact (Punct sep) ;;
          match r with
          | Some _ =>
              if comma_legal then separated_loop f sep terminator allow_empty g false elems
              else match allow_empty with
                   | Some empty => separated_loop f sep terminator allow_empty g comma_legal (elems ++ [empty])
                   | None => parse_error
                   end
          | None =>
              if negb comma_legal then
                v <- require g ;; separated_loop f sep terminator allow_empty g true (elems ++ [v])
              else parse_error
          end
      end
  end.

Definition separated {R} (sep terminator : Punctuation) (allow_empty : option R)
    (g : PM (option R)) : PM (option (list R)) :=
  with_fuel (fun n => separated_loop n sep terminator allow_empty g false []).

(** [LinkedHashMap::insert]: a present key keeps its place. *)
Definition lhm_insert {V} (k : list Z) (v : V) (m : list (list Z * V)) : list (list Z * V) :=
  if existsb (fun kv => list_Z_eqb (fst kv) k) m
  then map (fun kv => if list_Z_eqb (fst kv) k then (k, v) else kv) m
  else m ++ [(k, v)].

(** The fold at the end of [expression_part] for a right-binding strength. *)
Definition build_right (ops : list Op) (bits : list Expression) (rhs : Expression) : Expression :=
  fold_right (fun ob result => build (fst ob) (snd ob) result) rhs (combine ops bits).

Fixpoint build_left_aux (result : Expression) (items : list Expression) (ops : list Op)
    : Expression * list Op :=
  match items, ops with
  | item :: items, op :: ops => build_left_aux (build op result item) items ops
  | _, _ => (result, ops)
  end.

(** The fold for a left-binding strength; [None] is a failed [unwrap]. *)
Definition build_left (bits : list Expression) (ops : list Op) (rhs : Expression)
    : option Expression :=
  match bits with
  | [] => None
  | b :: items =>
      let '(result, ops) := build_left_aux b items ops in
      match ops with op :: _ => Some (build op result rhs) | [] => None end
  end.

Definition tt_from_token (t : Token) : option Punctuation :=
  match t with
  | Punct LParen => Some RParen
  | Punct LBrace => Some RBrace
  | Punct LBracket => Some RBracket
  | _ => None
  end.

Section Parser.

(** [InputType::from_str] lives in [ast.rs]; its table of names is a
    parameter of the parser. *)
Variable input_type_from_str : list Z -> option InputType.

Fixpoint input_type_loop (fuel : nat) (as_what : InputType) : PM InputType :=
  match fuel with
  | O => ppanic
  | S f =>
      r <- exact (Punct BitOr) ;;
      match r with
      | Some _ =>
          i <- require ident ;;
          match input_type_from_str i with
          | Some what => input_type_loop f (N.lor as_what what)
          | None => e <- perror (MsgBadInputType i) ;; pregister e ;;; input_type_loop f as_what
          end
      | None => pret as_what
      end
  end.

Definition input_type : PM (option InputType) :=
  leading ident (fun i =>
    as_what <- match input_type_from_str i with
               | Some what => pret what
               | None => e <- perror (MsgBadInputType i) ;; pregister e ;;; pret 0%N
               end ;;
    w <- with_fuel (fun n => input_type_loop n as_what) ;;
    success w).

Fixpoint expression (fuel : nat) : PM (option Expression) :=
  match fuel with
  | O => ppanic
  | S f =>
      leading (group f) (fun expr =>
        expr <- expression_loop f expr ;;
        r <- exact (Punct QuestionMark) ;;
        match r with
        | Some _ =>
            if_ <- require (expression f) ;;
            require (exact (Punct Colon)) ;;;
            else_ <- require (expression f) ;;
            success (ETernaryOp expr if_ else_)
        | None => success expr
        end)
  end

with expression_loop (fuel : nat) (expr : Expression) : PM Expression :=
  match fuel with
  | O => ppanic
  | S f =>
      t <- pnext_tok (Some (LStr "binary operator")) ;;
      match find_op t with
      | None => pput_back t ;;; pret expr
      | Some info => expr <- require (expression_part f expr info) ;; expression_loop f expr
      end
  end

with expression_part (fuel : nat) (lhs : Expression) (prev_op : OpInfo) : PM (option Expression) :=
  match fuel with
  | O => ppanic
  | S f =>
      rhs <- require (group f) ;;
      r <- expression_part_loop f prev_op [lhs] [oper prev_op] rhs ;;
      let '(bits, ops, rhs) := r in
      if right_binding (strength prev_op) then success (build_right ops bits rhs)
      else match build_left bits ops rhs with Some e => success e | None => ppanic end
  end

with expression_part_loop (fuel : nat) (prev_op : OpInfo) (bits : list Expression) (ops : list Op)
    (rhs : Expression) : PM (list Expression * list Op * Expression) :=
  match fuel with
  | O => ppanic
  | S f =>
      t <- pnext_tok (Some (LStr "binary operator")) ;;
      match find_op t with
      | None => pput_back t ;;; pret (bits, ops, rhs)
      | Some info =>
          match strength_cmp (strength info) (strength prev_op) with
          | Lt => rhs <- require (expression_part f rhs info) ;;
                  expression_part_loop f prev_op bits ops rhs
          | Gt => pput_back (Punct (op_token info)) ;;; pret (bits, ops, rhs)
          | Datatypes.Eq => rhs' <- require (group f) ;;
                            expression_part_loop f prev_op (bits ++ [rhs]) (ops ++ [oper info]) rhs'
          end
      end
  end

with group (fuel : nat) : PM (option Expression) :=
  match fuel with
  | O => ppanic
  | S f =>
      unary_ops <- with_fuel (fun n => unary_loop n []) ;;
      t <- (match unary_ops with
            | [] => term f
            | _ => t <- require (term f) ;; pret (Some t)
            end) ;;
      match t with
      | None => pnone
      | Some t =>
          r <- group_follow_loop f unary_ops [] ;;
          let '(unary_ops, follow) := r in
          match unary_ops, follow, t with
          | [], [], TermExpr e => success e
          | _, _, _ => success (EBase unary_ops t follow)
          end
      end
  end

with group_follow_loop (fuel : nat) (unary_ops : list UnaryOp) (follows : list Follow)
    : PM (list UnaryOp * list Follow) :=
  match fuel with
  | O => ppanic
  | S f =>
      r <- exact (Punct PlusPlus) ;;
      match r with
      | Some _ => group_follow_loop f (unary_ops ++ [UPostIncr]) follows
      | None =>
          r <- exact (Punct MinusMinus) ;;
          match r with
          | Some _ => group_follow_loop f (unary_ops ++ [UPostDecr]) follows
          | None =>
              fo <- follow f ;;
              match fo with
              | Some x => group_follow_loop f unary_ops (follows ++ [x])
              | None => pret (unary_ops, follows)
              end
          end
      end
  end

with term (fuel : nat) : PM (option Term) :=
  match fuel with
  | O => ppanic
  | S f =>
      t <- pnext_tok (Some (LStr "term")) ;;
      match t with
      | Ident i _ =>
          if list_Z_eqb i (bytes "new") then
            id <- ident ;;
            ty <- match id with
                  | Some id => pret (NewIdent id)
                  | None => p <- prefab f ;;
                            match p with Some p => pret (NewPrefab p) | None => pret NewImplicit end
                  end ;;
            a <- arguments f ;;
            success (TermNew ty a)
          else if list_Z_eqb i (bytes "list") then
            a <- arguments f ;;
            match a with Some args => success (TermList args) | None => success (TermIdent i) end
          else if list_Z_eqb i (bytes "call") then
            a <- require (arguments f) ;; b <- require (arguments f) ;;
            success (TermDynamicCall a b)
          else if list_Z_eqb i (bytes "input") then
            a <- arguments f ;;
            match a with
            | Some args => r <- require (input_specifier f) ;;
                           success (TermInput args (fst r) (snd r))
            | None => success (TermIdent i)
            end
          else if list_Z_eqb i (bytes "locate") then
            a <- arguments f ;;
            match a with
            | Some args =>
                (match args with
                 | EBinaryOp BIn _ _ :: _ =>
                     e <- perror (MsgText "bad 'locate(in)', should be 'locate() in'") ;;
                     pregister (set_severity SevWarning e)
                 | _ => pret tt
                 end) ;;;
                r <- exact (Punct In) ;;
                in_list <- match r with
                           | Some _ => e <- require (expression f) ;; pret (Some e)
                           | None => pret None
                           end ;;
                success (TermLocate args in_list)
            | None => success (TermIdent i)
            end
          else
            a <- arguments f ;;
            match a with Some args => success (TermCall i args) | None => success (TermIdent i) end
      | Punct Super => a <- require (arguments f) ;; success (TermParentCall a)
      | Punct Dot =>
          id <- ident ;;
          match id with
          | Some id =>
              p <- prefab f ;;
              match p with
              | Some (mkPrefab path vars) => success (TermPrefab (mkPrefab ((PDot, id) :: path) vars))
              | None => success (TermPrefab (mkPrefab [(PDot, id)] []))
              end
          | None => success (TermIdent (bytes "."))
          end
      | Punct Slash | Punct Colon => pput_back t ;;; p <- require (prefab f) ;; success (TermPrefab p)
      | TString v => success (TermString v)
      | Resource v => success (TermResource v)
      | Int v => success (TermInt v)
      | Float v => success (TermFloat v)
      | Punct LParen =>
          e <- require (expression f) ;;
          require (exact (Punct RParen)) ;;;
          success (TermExpr e)
      | InterpStringBegin b => parts <- interp_loop f [] ;; success (TermInterpString b parts)
      | other => try_another other
      end
  end

with interp_loop (fuel : nat) (parts : list (option Expression * list Z))
    : PM (list (option Expression * list Z)) :=
  match fuel with
  | O => ppanic
  | S f =>
      e <- expression f ;;
      t <- pnext_tok (Some (LStr "']'")) ;;
      match t with
      | InterpStringPart p => interp_loop f (parts ++ [(e, p)])
      | InterpStringEnd p => pret (parts ++ [(e, p)])
      | _ => parse_error
      end
  end

with follow (fuel : nat) : PM (option Follow) :=
  match fuel with
  | O => ppanic
  | S f =>
      t <- pnext_tok (Some (LStr "index, field, method call")) ;;
      match t with
      | Punct LBracket =>
          e <- require (expression f) ;;
          require (exact (Punct RBracket)) ;;;
          success (FollowIndex e)
      | Punct Dot => follow_index f KDot
      | Punct SafeDot => follow_index f KSafeDot
      | Punct SafeColon => follow_index f KSafeColon
      | other => try_another other
      end
  end

with follow_index (fuel : nat) (kind : IndexKind) : PM (option Follow) :=
  match fuel with
  | O => ppanic
  | S f =>
      i <- require ident ;;
      a <- arguments f ;;
      match a with
      | Some args => success (FollowCall kind i args)
      | None => success (FollowField kind i)
      end
  end

with arguments (fuel : nat) : PM (option (list Expression)) :=
  match fuel with
  | O => ppanic
  | S f =>
      leading (exact (Punct LParen)) (fun _ =>
        a <- require (separated Comma RParen (Some (expr_of_term TermNull)) (expression f)) ;;
        success a)
  end

(** The [vars.insert(key, value)] of the closure is performed on the
    elements [separated] collects, in the order the closure ran. *)
with prefab (fuel : nat) : PM (option Prefab) :=
  match fuel with
  | O => ppanic
  | S f =>
      leading path_separator (fun sep =>
        i <- require ident ;;
        parts <- with_fuel (fun n => prefab_loop n [(sep, i)]) ;;
        r <- exact (Punct LBrace) ;;
        vars <- match r with
                | Some _ =>
                    kvs <- separated Semicolon RBrace (Some None)
                             (key <- require ident ;;
                              require (exact (Punct Assign)) ;;;
                              value <- require (expression f) ;;
                              success (Some (key, value))) ;;
                    pret (fold_left (fun m kv => match kv with
                                                 | Some (k, v) => lhm_insert k v m
                                                 | None => m
                                                 end)
                                    (match kvs with Some l => l | None => [] end) [])
                | None => pret []
                end ;;
        success (mkPrefab parts vars))
  end

with input_specifier (fuel : nat) : PM (option (InputType * option Expression)) :=
  match fuel with
  | O => ppanic
  | S f =>
      r <- exact_ident "as" ;;
      it <- match r with Some _ => require input_type | None => pret 0%N end ;;
      r <- exact (Punct In) ;;
      in_list <- match r with
                 | Some _ => e <- require (expression f) ;; pret (Some e)
                 | None => pret None
                 end ;;
      success (it, in_list)
  end.

Definition perror_err {A} (m : string) : PM A := e <- perror (MsgText m) ;; perr e.

Fixpoint block (fuel : nat) : PM (option (list Statement)) :=
  match fuel with
  | O => ppanic
  | S f =>
      r <- exact (Punct LBrace) ;;
      match r with
      | Some _ => sts <- block_loop f [] ;; success sts
      | None =>
          r <- exact (Punct Semicolon) ;;
          match r with
          | Some _ => success []
          | None => st <- require (statement f) ;; success [st]
          end
      end
  end

with block_loop (fuel : nat) (statements : list Statement) : PM (list Statement) :=
  match fuel with
  | O => ppanic
  | S f =>
      r <- exact (Punct RBrace) ;;
      match r with
      | Some _ => pret statements
      | None =>
          r <- exact (Punct Semicolon) ;;
          match r with
          | Some _ => block_loop f statements
          | None => st <- require (statement f) ;; block_loop f (statements ++ [st])
          end
      end
  end

with statement (fuel : nat) : PM (option Statement) :=
  match fuel with
  | O => ppanic
  | S f =>
  r <- exact_ident "if" ;;
  match r with
  | Some _ =>
      require (exact (Punct LParen)) ;;; e <- require (expression f) ;;
      require (exact (Punct RParen)) ;;; b <- require (block f) ;;
      r <- else_loop f [(e, b)] ;;
      success (SIf (fst r) (snd r))
  | None =>
  r <- exact_ident "while" ;;
  match r with
  | Some _ =>
      require (exact (Punct LParen)) ;;; e <- require (expression f) ;;
      require (exact (Punct RParen)) ;;; b <- require (block f) ;;
      success (SWhile e b)
  | None =>
  r <- exact_ident "do" ;;
  match r with
  | Some _ =>
      b <- require (block f) ;;
      require (exact_ident "while") ;;; require (exact (Punct LParen)) ;;;
      e <- require (expression f) ;;
      require (exact (Punct RParen)) ;;; require (exact (Punct Semicolon)) ;;;
      success (SDoWhile b e)
  | None =>
  r <- exact_ident "for" ;;
  match r with
  | Some _ =>
      require (exact (Punct LParen)) ;;;
      init <- simple_statement f true ;;
      r <- comma_or_semicolon ;;
      match r with
      | Some _ =>
          test <- expression f ;;
          require comma_or_semicolon ;;;
          inc <- simple_statement f false ;;
          require (exact (Punct RParen)) ;;;
          b <- require (block f) ;;
          success (SForLoop init test inc b)
      | None =>
          match init with
          | Some init =>
              vn <- match init with
                    | SVar vt name (Some value) =>
                        require (exact_ident "to") ;;;
                        st <- require (for_range f (Some vt) name value) ;; pret (inl st)
                    | SVar vt name None => pret (inr (Some vt, name))
                    | SExpr (EBase unary (TermIdent name) follow) =>
                        match unary, follow with
                        | [], [] => pret (inr (None, name))
                        | _, _ => perror_err "for-list must start with variable"
                        end
                    | _ => perror_err "for-list must start with variable"
                    end ;;
              match vn with
              | inl st => success st
              | inr (var_type, name) =>
                  r <- exact_ident "as" ;;
                  it <- match r with Some _ => require input_type | None => pret 0%N end ;;
                  r <- exact (Punct In) ;;
                  il <- match r with
                        | Some _ =>
                            value <- require (expression f) ;;
                            r <- exact_ident "to" ;;
                            match r with
                            | Some _ => st <- require (for_range f var_type name value) ;; pret (inl st)
                            | None => pret (inr (Some value))
                            end
                        | None => pret (inr None)
                        end ;;
                  match il with
                  | inl st => success st
                  | inr in_list =>
                      require (exact (Punct RParen)) ;;;
                      b <- require (block f) ;;
                      success (SForList var_type name it in_list b)
                  end
              end
          | None => perror_err "for-in-list must start with variable"
          end
      end
  | None =>
  r <- exact_ident "spawn" ;;
  match r with
  | Some _ =>
      r <- exact (Punct LParen) ;;
      e <- match r with
           | Some _ => e <- expression f ;; require (exact (Punct RParen)) ;;; pret e
           | None => pret None
           end ;;
      b <- require (block f) ;;
      success (SSpawn e b)
  | None =>
  r <- exact_ident "switch" ;;
  match r with
  | Some _ =>
      require (exact (Punct LParen)) ;;; e <- require (expression f) ;;
      require (exact (Punct RParen)) ;;; require (exact (Punct LBrace)) ;;;
      cases <- switch_loop f [] ;;
      r <- exact_ident "else" ;;
      default <- match r with
                 | Some _ => b <- require (block f) ;; pret (Some b)
                 | None => pret None
                 end ;;
      require (exact (Punct RBrace)) ;;;
      success (SSwitch e cases default)
  | None =>
  r <- exact_ident "set" ;;
  match r with
  | Some _ =>
      name <- require ident ;;
      r <- exact (Punct Assign) ;;
      mode <- match r with
              | Some _ => pret SetAssign
              | None => r <- exact (Punct In) ;;
                        match r with Some _ => pret SetIn | None => parse_error end
              end ;;
      value <- require (expression f) ;;
      require (exact (Punct Semicolon)) ;;;
      success (SSetting name mode value)
  | None =>
      leading (simple_statement f false) (fun result =>
        require (exact (Punct Semicolon)) ;;; success result)
  end end end end end end end
  end

with else_loop (fuel : nat) (arms : list (Expression * list Statement))
    : PM (list (Expression * list Statement) * option (list Statement)) :=
  match fuel with
  | O => ppanic
  | S f =>
      r <- exact_ident "else" ;;
      match r with
      | None => pret (arms, None)
      | Some _ =>
          r <- exact_ident "if" ;;
          match r with
          | Some _ =>
              require (exact (Punct LParen)) ;;; e <- require (expression f) ;;
              require (exact (Punct RParen)) ;;; b <- require (block f) ;;
              else_loop f (arms ++ [(e, b)])
          | None => b <- require (block f) ;; pret (arms, Some b)
          end
      end
  end

with switch_loop (fuel : nat) (cases : list (list Case_ * list Statement))
    : PM (list (list Case_ * list Statement)) :=
  match fuel with
  | O => ppanic
  | S f =>
      r <- exact_ident "if" ;;
      match r with
      | None => pret cases
      | Some _ =>
          require (exact (Punct LParen)) ;;;
          what <- require (separated Comma RParen None (case f)) ;;
          (match what with
           | [] => e <- perror (MsgText "switch case cannot be empty") ;; pregister e
           | _ => pret tt
           end) ;;;
          b <- require (block f) ;;
          switch_loop f (cases ++ [(what, b)])
      end
  end

with simple_statement (fuel : nat) (in_for : bool) : PM (option Statement) :=
  match fuel with
  | O => ppanic
  | S f =>
      r <- exact_ident "var" ;;
      match r with
      | Some _ =>
          s <- pget ;;
          let type_path_start := plocation s in
          tp <- require tree_path ;;
          match rev (snd tp) with
          | [] => perror_err "'var' must be followed by a name"
          | name :: rest =>
              require var_annotations ;;;
              let var_type := var_type_from_iter (rev rest) in
              (if is_tmp var_type
               then pregister (mkDiag type_path_start SevWarning (MsgText "var/tmp has no effect here"))
               else pret tt) ;;;
              r <- exact (Punct Assign) ;;
              value <- match r with
                       | Some _ => e <- require (expression f) ;; pret (Some e)
                       | None => pret None
                       end ;;
              sp <- (if negb in_for then require (input_specifier f) else pret (0%N, None)) ;;
              (if negb (fst sp =? 0)%N || match snd sp with Some _ => true | None => false end
               then e <- perror (MsgText "input specifier has no effect here") ;;
                    pregister (set_severity SevWarning e)
               else pret tt) ;;;
              success (SVar var_type name value)
          end
      | None =>
          r <- exact_ident "return" ;;
          match r with
          | Some _ => e <- expression f ;; success (SReturn e)
          | None =>
              r <- exact_ident "throw" ;;
              match r with
              | Some _ => e <- require (expression f) ;; success (SThrow e)
              | None => leading (expression f) (fun e => success (SExpr e))
              end
          end
      end
  end

with for_range (fuel : nat) (var_type : option VarType) (name : list Z) (start : Expression)
    : PM (option Statement) :=
  match fuel with
  | O => ppanic
  | S f =>
      end_ <- require (expression f) ;;
      r <- exact_ident "step" ;;
      step <- match r with
              | Some _ => e <- require (expression f) ;; pret (Some e)
              | None => pret None
              end ;;
      require (exact (Punct RParen)) ;;;
      b <- require (block f) ;;
      success (SForRange var_type name start end_ step b)
  end

with case (fuel : nat) : PM (option Case_) :=
  match fuel with
  | O => ppanic
  | S f =>
      first <- require (expression f) ;;
      r <- exact_ident "to" ;;
      match r with
      | Some _ => hi <- require (expression f) ;; success (CaseRange first hi)
      | None => success (CaseExact first)
      end
  end.

End Parser.

(** Fuel for the recursive descent of a parser run over [n] tokens: every
    level of the descent is entered at most a bounded number of times per
    token read. *)
Definition parse_fuel (n : nat) : nat := (20 * (n + 5))%nat.

Fixpoint read_any_tt (fuel : nat) (target : list LocatedToken) : PM (option (list LocatedToken)) :=
  match fuel with
  | O => ppanic
  | S f =>
      start <- pnext_tok (Some (LStr "anything")) ;;
      s <- pget ;;
      let target := target ++ [mkLocatedToken (plocation s) start] in
      match tt_from_token start with
      | None => success target
      | Some close => read_any_tt_loop f close target
      end
  end
with read_any_tt_loop (fuel : nat) (close : Punctuation) (target : list LocatedToken)
    : PM (option (list LocatedToken)) :=
  match fuel with
  | O => ppanic
  | S f =>
      tok <- pnext_tok (Some (LStr "anything")) ;;
      if token_eqb tok (Punct close) then
        s <- pget ;; success (target ++ [mkLocatedToken (plocation s) tok])
      else
        pput_back tok ;;;
        target <- require (read_any_tt f target) ;;
        read_any_tt_loop f close target
  end.

(** The [while] loop after the first [read_any_tt] of a proc body. *)
Fixpoint proc_body_loop (fuel : nat) (body : list LocatedToken) : PM (list LocatedToken) :=
  match fuel with
  | O => ppanic
  | S f =>
      match body with
      | [] => ppanic
      | first :: _ =>
          if negb (token_eqb (token first) (Punct LBrace))
             && negb (token_eqb (token (last body first)) (Punct Semicolon))
          then body <- require (with_fuel (fun n => read_any_tt n body)) ;; proc_body_loop f body
          else pret body
      end
  end.

Definition add_tree (c : TreeCall) : PM unit := pmodify (fun s => set_tree (tree s ++ [c]) s).

Section Tree.

Variable input_type_from_str : list Z -> option InputType.
(** Whether the build has [debug_assertions] (a debug build). *)
Variable debug_assertions : bool.

Definition proc_parameter (fuel : nat) : PM (option Parameter_) :=
  r <- exact (Punct Ellipsis) ;;
  match r with
  | Some _ => success (mkParameter [] (bytes "...") None 0%N None)
  | None =>
      leading tree_path (fun ap =>
        match rev (snd ap) with
        | [] => ppanic
        | name :: rest =>
            let path := rev rest in
            let path := match path with
                        | p :: tl => if list_Z_eqb p (bytes "var") then tl else path
                        | [] => []
                        end in
            require var_annotations ;;;
            r <- exact (Punct Assign) ;;
            default <- match r with
                       | Some _ => e <- require (expression input_type_from_str fuel) ;; pret (Some e)
                       | None => pret None
                       end ;;
            sp <- require (input_specifier input_type_from_str fuel) ;;
            success (mkParameter path name default (fst sp) (snd sp))
        end)
  end.

(** The sub-parser of a proc body: [Parser::new(self.context, body)], then
    [subparser.require(subparser.block())]; it shares the diagnostics. *)
Definition run_subparser (c : list Diag) (body : list LocatedToken)
    : option ((list Statement + Diag) * list Diag) :=
  match require (block input_type_from_str (parse_fuel (List.length body))) (parser_new c body) with
  | Some (r, s) => Some (r, pctx s)
  | None => None
  end.

(** The end of the [Punct(LParen)] arm of [tree_entry]: the sub-parser's
    [result], the counters and the [#[cfg(debug_assertions)]] match. *)
Definition proc_body_result (body_tt : list LocatedToken) : PM (option unit) :=
  s <- pget ;;
  match run_subparser (pctx s) body_tt with
  | None => ppanic
  | Some (result, c) =>
      pmodify (set_pctx c) ;;;
      (match result with
       | inl _ => pmodify (fun s => set_procs_good (procs_good s + 1)%N s)
       | inr _ => pmodify (fun s => set_procs_bad (procs_bad s + 1)%N s)
       end) ;;;
      (if debug_assertions then
         match result with
         | inl _ => annotate
         | inr err => pregister (set_severity SevHint err)
         end
       else pret tt) ;;;
      SUCCESS
  end.

Fixpoint tree_entry (fuel : nat) (parent : PathStack) : PM (option unit) :=
  match fuel with
  | O => ppanic
  | S f =>
  _ <- updated_location ;;
  leading tree_path (fun ap =>
    let '(absolute, path) := ap in
    (if absolute && has_parent parent
     then e <- perror (MsgNestedAbsolute path (path_iter parent)) ;;
          pregister (set_severity SevWarning e)
     else pret tt) ;;;
    let new_stack := if absolute then [path] else path :: parent in
    require var_annotations ;;;
    t <- pnext_tok (Some (LStr "contents")) ;;
    match t with
    | Punct LBrace =>
        s <- pget ;;
        add_tree (AddEntry (plocation s) (path_iter new_stack) (path_len new_stack)) ;;;
        pput_back t ;;;
        _ <- updated_location ;;
        require (tree_block f new_stack) ;;;
        annotate ;;;
        SUCCESS
    | Punct Assign =>
        s <- pget ;;
        let location := plocation s in
        e <- require (expression input_type_from_str f) ;;
        _ <- require (input_specifier input_type_from_str f) ;;
        require (exact (Punct Semicolon)) ;;;
        add_tree (AddVar location (path_iter new_stack) (path_len new_stack) e) ;;;
        annotate ;;;
        SUCCESS
    | Punct LParen =>
        s <- pget ;;
        let location := plocation s in
        parameters <- require (separated Comma RParen None (proc_parameter f)) ;;
        add_tree (AddProc location (path_iter new_stack) (path_len new_stack) parameters) ;;;
        annotate ;;;
        _ <- updated_location ;;
        body_tt <- require (with_fuel (fun n => read_any_tt n [])) ;;
        body_tt <- with_fuel (fun n => proc_body_loop n body_tt) ;;
        annotate ;;;
        proc_body_result body_tt
    | other =>
        s <- pget ;;
        add_tree (AddEntry (plocation s) (path_iter new_stack) (path_len new_stack)) ;;;
        pput_back other ;;;
        (if path_contains new_stack "var" then annotate else pret tt) ;;;
        SUCCESS
    end)
  end

with tree_entries (fuel : nat) (parent : PathStack) (terminator : Token) : PM (option unit) :=
  match fuel with
  | O => ppanic
  | S f =>
      let message := match terminator with Eof => LStr "newline" | _ => LNewlineTok terminator end in
      t <- pnext_tok (Some message) ;;
      if token_eqb t terminator || token_eqb t Eof then SUCCESS
      else if token_eqb t (Punct Semicolon) then tree_entries f parent terminator
      else pput_back t ;;; require (tree_entry f parent) ;;; tree_entries f parent terminator
  end

with tree_block (fuel : nat) (parent : PathStack) : PM (option unit) :=
  match fuel with
  | O => ppanic
  | S f =>
      leading (exact (Punct LBrace)) (fun _ =>
        require (tree_entries f parent (Punct RBrace)) ;;; SUCCESS)
  end.

Definition root (fuel : nat) : PM (option unit) := tree_entries fuel [[]] Eof.

Definition run (fuel : nat) : PM unit :=
  r <- ptry (require (root fuel)) ;;
  match r with inr e => pregister e | inl _ => pret tt end.

End Tree.

(** [parse(context, tokens)] up to the final [ObjectTree::finalize]: the
    diagnostics, the object-tree calls and the proc-body counters. *)
Definition parse (input_type_from_str : list Z -> option InputType) (debug_assertions : bool)
    (c : list Diag) (tokens : list LocatedToken) : option PState :=
  match run input_type_from_str debug_assertions (parse_fuel (List.length tokens))
            (parser_new c tokens) with
  | Some (_, s) => Some s
  | None => None
  end.

(* ========================================================================= *)
(** * Observing the parser on token streams *)

(** [stream s] is the token sequence the parser state [s] still has to deliver:
    the pushed-back token, the remaining input and the final [Eof]. *)
Definition stream (s : PState) : list Token :=
  match pnext s with Some t => [t] | None => [] end ++ map token (pinput s) ++
  (if eof s then [] else [Eof]).

Definition runs {A} (m : PM A) (ts : list Token) (a : A) (ts' : list Token) : Prop :=
  forall s, stream s = ts -> exists s', m s = Some (inl a, s') /\ stream s' = ts'.

Definition runs0 {A} (m : PM A) (ts : list Token) (a : A) (ts' : list Token) : Prop :=
  forall s, stream s = ts -> pnext s = None -> exists s', m s = Some (inl a, s') /\ stream s' = ts'.

Definition atom_term (t : Token) : option Term :=
  match t with
  | Int v => Some (TermInt v)
  | Float v => Some (TermFloat v)
  | TString v => Some (TermString v)
  | Resource v => Some (TermResource v)
  | Ident i _ =>
      if list_Z_eqb i (bytes "new") || list_Z_eqb i (bytes "list") || list_Z_eqb i (bytes "call")
         || list_Z_eqb i (bytes "input") || list_Z_eqb i (bytes "locate")
      then None else Some (TermIdent i)
  | _ => None
  end.

Definition follow_stop (t : Token) : bool :=
  negb (token_eqb t (Punct PlusPlus)) && negb (token_eqb t (Punct MinusMinus))
  && negb (token_eqb t (Punct LParen))
  && match t with Punct LBracket | Punct Dot | Punct SafeDot | Punct SafeColon => false | _ => true end.

Definition slot_toks {R} (o : option (list Token * R)) : list Token :=
  match o with Some (ts, _) => ts | None => [] end.

Fixpoint sep_toks {R} (sep : Punctuation) (o : option (list Token * R))
    (more : list (option (list Token * R))) : list Token :=
  slot_toks o ++ match more with [] => [] | o' :: more' => Punct sep :: sep_toks sep o' more' end.

Fixpoint sep_values {R} (d : R) (o : option (list Token * R))
    (more : list (option (list Token * R))) : list R :=
  match more with
  | [] => match o with Some (_, v) => [v] | None => [] end
  | o' :: more' => (match o with Some (_, v) => v | None => d end) :: sep_values d o' more'
  end.

Definition slot_ok {R} (sep term : Punctuation) (g : PM (option R))
  (o : option (list Token * R)) : Prop :=
  match o with
  | None => True
  | Some (ts, v) =>
      (exists t ts', ts = t :: ts' /\ token_eqb t (Punct term) = false /\
                     token_eqb t (Punct sep) = false) /\
      forall p r', (p = sep \/ p = term) -> runs g (ts ++ Punct p :: r') (Some v) (Punct p :: r')
  end.

Definition slot_atom (o : option Token) : bool :=
  match o with Some a => match atom_term a with Some _ => true | None => false end | None => true end.

Definition atom_slot (o : option Token) : option (list Token * Expression) :=
  match o with
  | Some a => match atom_term a with Some tm => Some ([a], EBase [] tm []) | None => None end
  | None => None
  end.

Definition expression_of_source (its : list Z -> option InputType) (input : list Z)
    : option (option Expression + Diag) :=
  match lex input with
  | Some (ts, _) =>
      match expression its (pfuel (parser_new [] ts)) (parser_new [] ts) with
      | Some (r, _) => Some r
      | None => None
      end
  | None => None
  end.

Definition ident_tok (x : string) : Token := Ident (bytes x) false.

Definition leaf_ident (x : string) : Expression := EBase [] (TermIdent (bytes x)) [].

(** The strength table of the specification, as numbers (lower binds tighter). *)
Definition spec_strength (o : Op) : Z :=
  match o with
  | OBinaryOp b =>
      match b with
      | BPow => 0
      | BMul | BDiv | BMod => 1
      | BAdd | BSub => 2
      | BLess | BGreater | BLessEq | BGreaterEq => 3
      | BLShift | BRShift => 4
      | BEq | BNotEq | BEquiv | BNotEquiv => 5
      | BBitAnd | BBitXor | BBitOr => 6
      | BAnd => 7
      | BOr => 8
      | BIn => 10
      end
  | OAssignOp _ => 9
  end.

Definition spec_right_assoc (o : Op) : bool :=
  match o with OAssignOp _ => true | OBinaryOp _ => false end.

Definition top_op (e : Expression) : option Op :=
  match e with
  | EBinaryOp o _ _ => Some (OBinaryOp o)
  | EAssignOp o _ _ => Some (OAssignOp o)
  | _ => None
  end.

Definition fl_join (x : Expression * list (Op * Expression)) (o : Op)
    (y : Expression * list (Op * Expression)) : Expression * list (Op * Expression) :=
  (fst x, snd x ++ (o, fst y) :: snd y).

Fixpoint flatten_ops (e : Expression) : Expression * list (Op * Expression) :=
  match e with
  | EBinaryOp o l r => fl_join (flatten_ops l) (OBinaryOp o) (flatten_ops r)
  | EAssignOp o l r => fl_join (flatten_ops l) (OAssignOp o) (flatten_ops r)
  | _ => (e, [])
  end.

Definition binds_under (parent : Op) (right_side : bool) (child : Expression) : bool :=
  match top_op child with
  | None => true
  | Some c => (spec_strength c <? spec_strength parent)
              || ((spec_strength c =? spec_strength parent)
                  && Bool.eqb (spec_right_assoc parent) right_side)
  end.

Fixpoint prec_wf (e : Expression) : bool :=
  match e with
  | EBinaryOp o l r =>
      binds_under (OBinaryOp o) false l && binds_under (OBinaryOp o) true r && prec_wf l && prec_wf r
  | EAssignOp o l r =>
      binds_under (OAssignOp o) false l && binds_under (OAssignOp o) true r && prec_wf l && prec_wf r
  | _ => true
  end.

Definition atom_leaf (a : Token) : Expression :=
  EBase [] (match atom_term a with Some tm => tm | None => TermNull end) [].

Definition chain_toks (c : list (OpInfo * Token)) : list Token :=
  flat_map (fun e => [Punct (op_token (fst e)); snd e]) c.

Definition chain_flat (c : list (OpInfo * Token)) : list (Op * Expression) :=
  map (fun e => (oper (fst e), atom_leaf (snd e))) c.

Definition fl_app (x : Expression * list (Op * Expression)) (l : list (Op * Expression)) :=
  (fst x, snd x ++ l).

Fixpoint fl_seq (bits : list Expression) (ops : list Op) (rhs : Expression)
    : Expression * list (Op * Expression) :=
  match bits, ops with
  | b :: bs, o :: os => fl_join (flatten_ops b) o (fl_seq bs os rhs)
  | _, _ => flatten_ops rhs
  end.

Definition rank (i : OpInfo) : Z := strength_rank (strength i).

(** [e] binds tighter than strength [p]: an operand, or an operator node of
    a smaller strength. *)
Definition below (p : Z) (e : Expression) : Prop :=
  match top_op e with None => True | Some o => spec_strength o < p end.

Definition below_eq (p : Z) (e : Expression) : Prop :=
  match top_op e with None => True | Some o => spec_strength o <= p end.

Definition chain_ok (c : list (OpInfo * Token)) : Prop :=
  Forall (fun e => List.In (fst e) BINARY_OPS /\ atom_term (snd e) <> None) c.

Definition tail_ok (t : Token) : Prop :=
  follow_stop t = true /\ find_op t = None /\ token_eqb t (Punct QuestionMark) = false.

Definition next_below (c : list (OpInfo * Token)) (e : Expression) : Prop :=
  match c with [] => True | x :: _ => below (rank (fst x)) e end.

Definition splits (p : Z) (c c1 c2 : list (OpInfo * Token)) : Prop :=
  c = c1 ++ c2 /\ Forall (fun x => rank (fst x) <= p) c1 /\
  match c2 with [] => True | x :: _ => p < rank (fst x) end.

Definition part_ok (its : list Z -> option InputType) (fuel : nat) : Prop :=
  forall lhs info a c t r,
    List.In info BINARY_OPS -> chain_ok c -> atom_term a <> None -> tail_ok t ->
    prec_wf lhs = true -> below (rank info) lhs -> (2 * List.length c + 5 <= fuel)%nat ->
    exists c1 c2 T o, splits (rank info) c c1 c2 /\
      runs (expression_part its fuel lhs info) (a :: chain_toks c ++ t :: r) (Some T)
        (chain_toks c2 ++ t :: r) /\
      prec_wf T = true /\ top_op T = Some o /\ spec_strength o = rank info /\
      flatten_ops T = fl_join (flatten_ops lhs) (oper info) (atom_leaf a, chain_flat c1).

Definition loop_inv (p : Z) (bits : list Expression) (ops : list Op) (rhs : Expression) : Prop :=
  bits <> [] /\ List.length bits = List.length ops /\
  Forall (fun o => spec_strength o = p) ops /\
  Forall (fun b => prec_wf b = true /\ below p b) bits /\
  prec_wf rhs = true /\ below p rhs.

Definition loop_ok (its : list Z -> option InputType) (fuel : nat) : Prop :=
  forall prev bits ops rhs c t r,
    List.In prev BINARY_OPS -> chain_ok c -> tail_ok t ->
    loop_inv (rank prev) bits ops rhs -> next_below c rhs ->
    (2 * List.length c + 4 <= fuel)%nat ->
    exists c1 c2 bits' ops' rhs', splits (rank prev) c c1 c2 /\
      runs (expression_part_loop its fuel prev bits ops rhs) (chain_toks c ++ t :: r)
        (bits', ops', rhs') (chain_toks c2 ++ t :: r) /\
      loop_inv (rank prev) bits' ops' rhs' /\
      fl_seq bits' ops' rhs' = fl_app (fl_seq bits ops rhs) (chain_flat c1).

Definition lexed (input : string) : list LocatedToken :=
  match lex (bytes input) with Some (ts, _) => ts | None => [] end.

Definition toks (l : list Token) : list LocatedToken :=
  map (fun t => mkLocatedToken default_location t) l.

Definition bad_body : list LocatedToken :=
  toks [Punct LBrace; ident_tok "return"; Int 1; Punct RBrace].

Definition bad_body_error : Diag :=
  mkDiag default_location SevError
    (MsgGotExpected (Punct RBrace)
       [LTok (Punct PlusPlus); LTok (Punct MinusMinus); LStr "index, field, method call";
        LStr "binary operator"; LTok (Punct QuestionMark); LTok (Punct Semicolon)]).

(** A file with a proc whose body does not parse, then another entry. *)
Definition bad_proc_file : list LocatedToken :=
  toks [Punct Slash; ident_tok "proc"; Punct Slash; ident_tok "f"; Punct LParen; Punct RParen;
        Punct LBrace; ident_tok "return"; Int 1; Punct RBrace; Punct Semicolon;
        Punct Slash; ident_tok "obj"; Punct Slash; ident_tok "x"; Punct Semicolon].

(** The illegal-byte errors among some diagnostics. *)
Definition is_illegal_diag (d : Diag) : bool :=
  match dmsg d with MsgIllegalByte _ => true | _ => false end.
Definition illegal_count (ds : list Diag) : nat := List.length (filter is_illegal_diag ds).

(** The input after an identifier ends it: no identifier or digit byte. *)
Definition ident_stops (rest : list IoItem) : bool :=
  match rest with
  | [] => true
  | IoByte t :: _ => negb (is_ident t || is_digit t)
  | IoErr :: _ => false
  end.

(** [x + 1], an argument of more than one token. *)
Definition x_plus_1 : Expression := EBinaryOp BAdd (leaf_ident "x") (expr_of_term (TermInt 1)).

(** A parser computation that leaves the object tree and the proc-body
    counters alone. *)
Definition keeps {A} (m : PM A) : Prop :=
  forall s r s', m s = Some (r, s') ->
    tree s' = tree s /\ procs_bad s' = procs_bad s /\ procs_good s' = procs_good s.

(** The state a parser computation leaves (the state itself on a panic). *)
Definition pstate_after {A} (m : PM A) (s : PState) : PState :=
  match m s with Some (_, s') => s' | None => s end.

(** The states of the parse of [bad_proc_file] after each step of the
    [Punct(LParen)] arm of [tree_entry], and of [tree_entries] around it. *)
Definition bp_s : PState := parser_new [] bad_proc_file.
Definition bp_s1 := pstate_after (_ <- updated_location ;; tree_path) bp_s.
Definition bp_s2 := pstate_after (if true && has_parent [[]]
   then e <- perror (MsgNestedAbsolute [bytes "proc"; bytes "f"] (path_iter [[]])) ;;
        pregister (set_severity SevWarning e)
   else pret tt) bp_s1.
Definition bp_s3 := pstate_after (require var_annotations ;;; pnext_tok (Some (LStr "contents"))) bp_s2.
Definition bp_s4 := pstate_after (require (separated Comma RParen None (proc_parameter (fun _ => None) 19))) bp_s3.
Definition bp_s5 := pstate_after (add_tree (AddProc (plocation bp_s3) (path_iter [[bytes "proc"; bytes "f"]]) (path_len [[bytes "proc"; bytes "f"]]) []) ;;;
   annotate ;;;
   _ <- updated_location ;;
   require (with_fuel (fun n => read_any_tt n []))) bp_s4.
Definition bp_s6 := pstate_after (with_fuel (fun n => proc_body_loop n bad_body)) bp_s5.

Definition bp_t1 := pstate_after (pnext_tok (Some (LStr "newline"))) bp_s.
Definition bp_t2 := pstate_after (pput_back (Punct Slash) ;;; tree_entry (fun _ => None) false 20 [[]]) bp_t1.




(** The tokens the lexer never emits. *)
Definition never_lexed (t : Token) : bool :=
  match t with
  | Eof | Punct BlockComment | Punct LineComment | Punct DoubleQuote | Punct SingleQuote
  | Punct BlockString => true
  | _ => false
  end.

(* ========================================================================= *)
(** * Properties of the lexer *)

Close Scope parse_scope.
Open Scope lex_scope.

(** ** The final newline *)

Lemma after_final_newline (s : LexState) :
  inner s = [] -> nextb s = None -> final_newline s = true ->
  exists s', iter_next s = Some (None, s') /\ inner s' = [] /\ nextb s' = None /\
             final_newline s' = true.
Proof.
  destruct s as [c i l ale nb fnl alh d is]; simpl; intros -> -> ->.
  destruct ale; cbn; match goal with |- context[(?a <? ?b)%N] => destruct (a <? b)%N end; cbn;
    eexists; (split; [reflexivity|]); cbn; repeat split.
Qed.

Lemma iter_calls_after_final (n : nat) : forall s,
  inner s = [] -> nextb s = None -> final_newline s = true ->
  exists s', iter_calls n s = Some (repeat None n, s').
Proof.
  induction n as [|n IH]; intros s H1 H2 H3.
  - eexists; reflexivity.
  - destruct (after_final_newline s H1 H2 H3) as (s' & E & H1' & H2' & H3').
    destruct (IH s' H1' H2' H3') as (s'' & E').
    exists s''. cbn. unfold lbind. rewrite E. unfold lbind in E'. rewrite E'. reflexivity.
Qed.

(** C8: once the byte stream is exhausted (and nothing is put back), the
    iterator emits one synthetic [Newline] at the current line and the
    current column plus one (the current location being the tracker's,
    moved to the next line if the last byte was a newline), and every
    later call returns [None]. *)
Theorem final_newline_once (s : LexState) :
  inner s = [] -> nextb s = None -> final_newline s = false ->
  let L := if at_line_end s then mkLocation (file (loc s)) (line (loc s) + 1) 0 else loc s in
  exists s', iter_next s = Some (Some (mkLocatedToken
                 (mkLocation (file L) (line L) (column L + 1)) (Punct Newline)), s')
   /\ loc s' = L
   /\ forall n, exists s'', iter_calls n s' = Some (repeat None n, s'').
Proof.
  destruct s as [c i l ale nb fnl alh d is]; simpl; intros -> -> ->.
  destruct ale; cbn; match goal with |- context[(?a <? ?b)%N] => destruct (a <? b)%N end; cbn;
    eexists; (split; [reflexivity|]); cbn; (split; [reflexivity|]);
    intros n; apply iter_calls_after_final; reflexivity.
Qed.

Lemma final_newline_once_witness :
  let s := lex_state_after (iter_calls 1) (lexer_new 0 (map IoByte (bytes "ab"))) in
  (inner s = [] /\ nextb s = None /\ final_newline s = false) /\
  let L := if at_line_end s then mkLocation (file (loc s)) (line (loc s) + 1) 0 else loc s in
  exists s', iter_next s = Some (Some (mkLocatedToken
                 (mkLocation (file L) (line L) (column L + 1)) (Punct Newline)), s')
   /\ loc s' = L
   /\ forall n, exists s'', iter_calls n s' = Some (repeat None n, s'').
Proof.
  intros s. split; [vm_compute; repeat split|].
  refine (final_newline_once s _ _ _); vm_compute; reflexivity.
Defined.

(** ** Integer overflow *)

(** C3 (as the code has it): a base-10 integer literal that does not fit
    an [i32] is retried as a float; the precision-loss warning is
    registered only when the float's display differs from the literal. *)
Theorem read_number_overflow_retry (first : Z) (s s1 : LexState) (buf : list Z)
    (e : IntErrorKind) (val : f32) :
  read_number_inner first s = Some ((true, 10, buf), s1) ->
  from_str_radix_i32 buf 10 = inr e ->
  f32_from_str buf = inl val ->
  read_number first s =
    Some (Float val,
          if list_Z_eqb (f32_to_string val) buf then s1
          else set_ctx (ctx s1 ++ [mkDiag (loc s1) SevWarning (MsgPrecisionLoss buf val)]) s1).
Proof.
  intros H1 H2 H3. unfold read_number, lbind. rewrite H1, H2. simpl. rewrite H3.
  destruct (list_Z_eqb (f32_to_string val) buf); reflexivity.
Qed.

(** [2147483648] lexes to one [Float] of value 2^31 and one warning. *)
Lemma read_number_overflow_retry_witness :
  let s := lexer_new 0 (map IoByte (bytes "147483648")) in
  let s1 := lex_state_after (read_number_inner 50) s in
  let buf := bytes "2147483648" in
  let val := F32Fin false 8388608 8 in
  (read_number_inner 50 s = Some ((true, 10, buf), s1) /\
   from_str_radix_i32 buf 10 = inr IEPosOverflow /\ f32_from_str buf = inl val) /\
  read_number 50 s =
    Some (Float val,
          if list_Z_eqb (f32_to_string val) buf then s1
          else set_ctx (ctx s1 ++ [mkDiag (loc s1) SevWarning (MsgPrecisionLoss buf val)]) s1) /\
  lex_tokens buf = Some [Float val; Punct Newline] /\
  lex_diags buf = Some [mkDiag (mkLocation 0 1 10) SevWarning (MsgPrecisionLoss buf val)].
Proof.
  intros s s1 buf val.
  split; [split; [|split]; vm_compute; reflexivity|].
  split; [apply (read_number_overflow_retry 50 s s1 buf IEPosOverflow val);
          vm_compute; reflexivity|].
  split; vm_compute; reflexivity.
Defined.

(** [3000000000] overflows an [i32] too, but its float prints back as the
    literal, so no warning is registered. *)
Lemma overflow_without_warning :
  from_str_radix_i32 (bytes "3000000000") 10 = inr IEPosOverflow /\
  lex_tokens (bytes "3000000000") = Some [Float (F32Fin false 11718750 8); Punct Newline] /\
  lex_diags (bytes "3000000000") = Some [].
Proof. repeat split; vm_compute; reflexivity. Qed.

(** ** Reading bytes through the put-back slot *)

Lemma next_pending_byte (s : LexState) (b : Z) (r : list IoItem) :
  pending s = IoByte b :: r ->
  exists s', next s = Some (Some b, s') /\ pending s' = r /\ nextb s' = None /\ ctx s' = ctx s.
Proof.
  destruct s as [c i l ale nb fnl alh d is]; unfold pending; simpl.
  destruct nb as [b'|].
  - intros H; injection H as -> ->. eexists; repeat split.
  - intros ->. unfold next, tracker_next; cbn.
    destruct ale; cbn;
    repeat match goal with |- context[if ?c then _ else _] => destruct c end; cbn;
    eexists; repeat split.
Qed.

Lemma next_pending_end (s : LexState) :
  pending s = [] ->
  exists s', next s = Some (None, s') /\ pending s' = [] /\ nextb s' = None /\ ctx s' = ctx s.
Proof.
  destruct s as [c i l ale nb fnl alh d is]; unfold pending; simpl.
  destruct nb as [b'|]; [discriminate|].
  intros ->. unfold next, tracker_next; cbn.
  destruct ale; cbn;
  repeat match goal with |- context[if ?c then _ else _] => destruct c end; cbn;
  eexists; repeat split.
Qed.

Lemma pending_length (s : LexState) : (List.length (pending s) <= S (List.length (inner s)))%nat.
Proof. unfold pending; destruct (nextb s); simpl; lia. Qed.

(** ** Literals with a leading zero *)

Lemma is_digit_radix_10 (c : Z) : is_digit_radix c 10 = is_digit c.
Proof.
  unfold is_digit_radix, to_digit, is_digit.
  destruct ((48 <=? c) && (c <=? 57)) eqn:E.
  - apply andb_true_iff in E as [E1 E2]. apply Z.leb_le in E1, E2.
    replace (c - 48 <? 10) with true by (symmetry; apply Z.ltb_lt; lia). reflexivity.
  - destruct ((97 <=? c) && (c <=? 122)) eqn:E'.
    + apply andb_true_iff in E' as [E1 E2]. apply Z.leb_le in E1, E2.
      replace (c - 97 + 10 <? 10) with false by (symmetry; apply Z.ltb_ge; lia). reflexivity.
    + destruct ((65 <=? c) && (c <=? 90)) eqn:E''.
      * apply andb_true_iff in E'' as [E1 E2]. apply Z.leb_le in E1, E2.
        replace (c - 65 + 10 <? 10) with false by (symmetry; apply Z.ltb_ge; lia). reflexivity.
      * reflexivity.
Qed.

Lemma is_digit_range (c : Z) : is_digit c = true -> 48 <= c <= 57.
Proof. unfold is_digit; intros H; apply andb_true_iff in H as [H1 H2]; apply Z.leb_le in H1, H2; lia. Qed.

Lemma number_loop_digits (radix : Z) (Hr : Z.max radix 10 = 10) : forall ds fuel s buf rest,
  pending s = map IoByte ds ++ rest -> forallb is_digit ds = true -> number_stops rest = true ->
  (List.length ds < fuel)%nat ->
  exists s', number_loop fuel true false radix buf s = Some ((true, radix, buf ++ ds), s')
             /\ pending s' = rest /\ ctx s' = ctx s.
Proof.
  induction ds as [|d ds IH]; intros fuel s buf rest Hp Hd Hs Hf;
    (destruct fuel as [|f]; [simpl in Hf; lia|]).
  - simpl in Hp. destruct rest as [|[t|] r]; [|simpl in Hs|discriminate].
    + destruct (next_pending_end s Hp) as (s1 & E & P1 & N1 & C1).
      cbn [number_loop]. unfold lbind. rewrite E. unfold put_back. rewrite N1.
      rewrite app_nil_r. eexists; split; [reflexivity|]. unfold pending in *; simpl. rewrite N1 in P1. auto.
    + destruct (next_pending_byte s t r Hp) as (s1 & E & P1 & N1 & C1).
      cbn [number_loop]. unfold lbind. rewrite E.
      repeat rewrite andb_true_iff in Hs. destruct Hs as [[[[H1 H2] H3] H4] H5].
      apply negb_true_iff in H1, H2, H3, H4.
      rewrite H2, H3, H4. simpl. rewrite Hr, is_digit_radix_10, H1.
      replace (t =? 43) with (t =? 43) by reflexivity.
      destruct ((t =? 43) || (t =? 45)); destruct (t =? 35); simpl;
      unfold put_back; rewrite N1; rewrite app_nil_r;
      eexists; (split; [reflexivity|]); unfold pending in *; simpl; rewrite N1 in P1; rewrite P1; auto.
  - simpl in Hd. apply andb_true_iff in Hd as [Hd1 Hd2].
    simpl in Hp. destruct (next_pending_byte s d _ Hp) as (s1 & E & P1 & N1 & C1).
    cbn [number_loop]. unfold lbind. rewrite E.
    pose proof (is_digit_range d Hd1).
    replace (d =? 95) with false by (symmetry; apply Z.eqb_neq; lia).
    replace (d =? 46) with false by (symmetry; apply Z.eqb_neq; lia).
    replace (d =? 101) with false by (symmetry; apply Z.eqb_neq; lia).
    replace (d =? 35) with false by (symmetry; apply Z.eqb_neq; lia).
    simpl. rewrite Hr, is_digit_radix_10, Hd1.
    destruct (IH f s1 (buf ++ [d]) rest P1 Hd2 Hs) as (s2 & E2 & P2 & C2); [simpl in Hf; lia|].
    rewrite <- app_assoc in E2. simpl in E2.
    replace ((d =? 43) || (d =? 45)) with false by
      (symmetry; apply orb_false_iff; split; apply Z.eqb_neq; lia).
    simpl. exists s2. rewrite E2. split; [reflexivity|]. split; congruence.
Qed.

Lemma pending_put_back (s : LexState) (c : option Z) :
  nextb s = None ->
  pending (set_nextb c s) = match c with Some b => IoByte b :: pending s | None => pending s end.
Proof. unfold pending; intros H; rewrite H; destruct c; reflexivity. Qed.

Lemma lbind_run {A B} (m : LexM A) (k : A -> LexM B) (s s1 : LexState) (a : A) :
  m s = Some (a, s1) -> lbind m k s = k a s1.
Proof. intros E; unfold lbind; rewrite E; reflexivity. Qed.

Lemma read_number_inner_48 (s s1 : LexState) (c : option Z) :
  next s = Some (c, s1) -> c <> Some 120 ->
  read_number_inner 48 s = (put_back c ;;; (fun s => number_loop (lex_fuel s) true false 8 [48] s)) s1.
Proof.
  intros E H. unfold read_number_inner. simpl. unfold lbind at 1. rewrite E.
  destruct c as [[|p|p]|]; try reflexivity.
  repeat (destruct p as [p|p|]; try reflexivity). contradiction.
Qed.

Lemma read_number_inner_zero (s : LexState) (ds : list Z) (rest : list IoItem) :
  pending s = map IoByte ds ++ rest -> forallb is_digit ds = true -> number_stops rest = true ->
  exists s', read_number_inner 48 s = Some ((true, 8, 48 :: ds), s')
             /\ pending s' = rest /\ ctx s' = ctx s.
Proof.
  intros Hp Hd Hs.
  assert (exists c s1, next s = Some (c, s1) /\ c <> Some 120 /\ nextb s1 = None /\ ctx s1 = ctx s /\
            pending (set_nextb c s1) = pending s) as (c & s1 & E & Hc & N1 & C1 & P1).
  { destruct ds as [|d ds].
    - simpl in Hp; destruct rest as [|[t|] r]; [|simpl in Hs|discriminate].
      + destruct (next_pending_end s Hp) as (s1 & E & P1 & N1 & C1).
        exists None, s1. repeat split; try assumption; try discriminate.
        rewrite pending_put_back by exact N1. congruence.
      + destruct (next_pending_byte s t r Hp) as (s1 & E & P1 & N1 & C1).
        exists (Some t), s1. repeat split; try assumption.
        * intros H; injection H as ->. discriminate.
        * rewrite pending_put_back by exact N1. congruence.
    - simpl in Hd, Hp. apply andb_true_iff in Hd as [Hd1 _]. pose proof (is_digit_range d Hd1).
      destruct (next_pending_byte s d _ Hp) as (s1 & E & P1 & N1 & C1).
      exists (Some d), s1. repeat split; try assumption.
      + intros H'; injection H' as ->. lia.
      + rewrite pending_put_back by exact N1. congruence. }
  rewrite (read_number_inner_48 s s1 c E Hc). unfold lbind.
  unfold put_back. rewrite N1.
  assert (Hf : (List.length ds < lex_fuel (set_nextb c s1))%nat).
  { unfold lex_fuel. pose proof (pending_length (set_nextb c s1)). rewrite P1, Hp in H.
    rewrite length_app, length_map in H. lia. }
  rewrite <- P1 in Hp.
  destruct (number_loop_digits 8 eq_refl ds _ (set_nextb c s1) [48] rest Hp Hd Hs Hf)
    as (s2 & E2 & P2 & C2).
  exists s2. rewrite E2. repeat split; auto. rewrite C2; simpl; congruence.
Qed.

(** C7: after a leading [0] (not followed by [x]), the digits are scanned
    as decimal digits (base [max(8, 10)]), so the whole run of decimal
    digits forms one token, which is then parsed in base 8: its value when
    that succeeds, otherwise [Int 0] and a [bad base-8 integer] error. *)
Theorem leading_zero_octal (s : LexState) (ds : list Z) (rest : list IoItem) :
  pending s = map IoByte ds ++ rest -> forallb is_digit ds = true -> number_stops rest = true ->
  exists s', read_number_inner 48 s = Some ((true, 8, 48 :: ds), s')
   /\ pending s' = rest /\ ctx s' = ctx s
   /\ read_number 48 s =
      Some (match from_str_radix_i32 (48 :: ds) 8 with
            | inl v => (Int v, s')
            | inr e => (Int 0, set_ctx (ctx s' ++ [mkDiag (loc s') SevError (MsgBadInteger 8 (48 :: ds) e)]) s')
            end).
Proof.
  intros Hp Hd Hs.
  destruct (read_number_inner_zero s ds rest Hp Hd Hs) as (s' & E & P & C).
  exists s'. repeat split; try assumption.
  unfold read_number, lbind. rewrite E. cbv beta iota.
  destruct (from_str_radix_i32 (48 :: ds) 8); reflexivity.
Qed.

(** [07] lexes to [Int 7]; [08] to [Int 0] and one bad base-8 integer
    error for ["08"]. *)
Lemma leading_zero_octal_witness :
  let s := lex_state_after next (lexer_new 0 (map IoByte (bytes "08"))) in
  (pending s = map IoByte [56] ++ [] /\ forallb is_digit [56] = true /\ number_stops [] = true) /\
  (exists s', read_number_inner 48 s = Some ((true, 8, 48 :: [56]), s')
   /\ pending s' = [] /\ ctx s' = ctx s
   /\ read_number 48 s =
      Some (match from_str_radix_i32 (48 :: [56]) 8 with
            | inl v => (Int v, s')
            | inr e => (Int 0, set_ctx (ctx s' ++ [mkDiag (loc s') SevError (MsgBadInteger 8 (48 :: [56]) e)]) s')
            end)) /\
  from_str_radix_i32 (bytes "08") 8 = inr IEInvalidDigit /\
  lex_tokens (bytes "07") = Some [Int 7; Punct Newline] /\
  lex_tokens (bytes "08") = Some [Int 0; Punct Newline] /\
  lex_diags (bytes "08") =
    Some [mkDiag (mkLocation 0 1 2) SevError (MsgBadInteger 8 (bytes "08") IEInvalidDigit)].
Proof.
  intros s. split; [repeat split; vm_compute; reflexivity|].
  split; [apply (leading_zero_octal s [56] []); vm_compute; reflexivity|].
  repeat split; vm_compute; reflexivity.
Defined.

(** ** Illegal bytes *)

Ltac split_run :=
  repeat match goal with
  | E : context [@lbind _ _ _ _] |- _ => unfold lbind in E
  | E : context [lget] |- _ => unfold lget in E
  | E : context [@lret _ _] |- _ => unfold lret in E
  | E : context [lmodify _] |- _ => unfold lmodify in E
  | E : context [@lpanic _] |- _ => unfold lpanic in E
  | E : context [put_back _] |- _ => unfold put_back in E
  | E : context [lex_error _] |- _ => unfold lex_error in E
  | E : context [register_error _] |- _ => unfold register_error in E
  | E : context [match ?x with _ => _ end] |- _ => destruct x eqn:?
  | E : context [if ?x then _ else _] |- _ => destruct x eqn:?
  end;
  try discriminate.

(** Closes [exists new, ctx s' = ctx s ++ new /\ illegal_count new <= k]
    once every step has been turned into such a fact. *)
Ltac ctx_close :=
  repeat match goal with
  | E : Some (_, _) = Some (_, _) |- _ => injection E as <- <-
  | E : Some (_, _) = Some (_, _) |- _ => injection E as _ <-
  | E : exists _, _ /\ _ |- _ => destruct E as (? & ? & ?)
  end;
  cbn [ctx set_ctx set_inner set_loc set_at_line_end set_nextb set_final_newline
       set_at_line_head set_directive set_interp_stack] in *;
  repeat match goal with
  | E : ctx _ = (_ ++ _) ++ _ |- _ => rewrite <- app_assoc in E
  | E : ctx ?a = ctx ?b ++ _ |- context [ctx ?a] => rewrite E
  end;
  first
    [ exists []; rewrite app_nil_r; split; [reflexivity|unfold illegal_count; simpl; lia]
    | eexists; split; [rewrite <- ?app_assoc; reflexivity|];
      unfold illegal_count in *; rewrite ?filter_app, ?length_app in *; simpl in *; lia ].

(** The diagnostics only grow, and none of the lexer's readers registers an
    illegal-byte error. *)
Lemma next_ctx (s s' : LexState) (c : option Z) :
  next s = Some (c, s') -> exists new, ctx s' = ctx s ++ new /\ illegal_count new = 0%nat.
Proof.
  destruct s as [cx i l ale nb fnl alh d is]. unfold next, tracker_next; cbn.
  destruct nb; [intros H; injection H as <- <-; exists []; rewrite app_nil_r; auto|].
  destruct ale; cbn; destruct i as [|[b|] i]; cbn;
  repeat match goal with |- context[if ?c then _ else _] => destruct c end; cbn;
  intros H; injection H as <- <-; cbn;
  first [solve [exists []; rewrite app_nil_r; auto] | eexists; split; reflexivity].
Qed.

Ltac ctx_steps L :=
  repeat match goal with
  | E : next _ = Some (_, _) |- _ => apply next_ctx in E
  | E : _ = Some (_, _) |- _ => apply L in E
  end.

Lemma ident_loop_ctx : forall fuel ident s r s', ident_loop fuel ident s = Some (r, s') ->
  exists new, ctx s' = ctx s ++ new /\ illegal_count new = 0%nat.
Proof.
  induction fuel as [|f IH]; intros ident s r s' H; [discriminate|].
  cbn [ident_loop] in H. split_run; ctx_steps IH; ctx_close.
Qed.

Lemma resource_loop_ctx : forall fuel sl buf s r s', resource_loop fuel sl buf s = Some (r, s') ->
  exists new, ctx s' = ctx s ++ new /\ illegal_count new = 0%nat.
Proof.
  induction fuel as [|f IH]; intros sl buf s r s' H; [discriminate|].
  cbn [resource_loop] in H. split_run; ctx_steps IH; ctx_close.
Qed.

Lemma skip_line_loop_ctx : forall fuel b s r s', skip_line_loop fuel b s = Some (r, s') ->
  exists new, ctx s' = ctx s ++ new /\ illegal_count new = 0%nat.
Proof.
  induction fuel as [|f IH]; intros b s r s' H; [discriminate|].
  cbn [skip_line_loop] in H. split_run; ctx_steps IH; ctx_close.
Qed.

Lemma skip_block_loop_ctx : forall fuel d b0 b1 s r s', skip_block_loop fuel d b0 b1 s = Some (r, s') ->
  exists new, ctx s' = ctx s ++ new /\ illegal_count new = 0%nat.
Proof.
  induction fuel as [|f IH]; intros d b0 b1 s r s' H; [discriminate|].
  cbn [skip_block_loop] in H. split_run; ctx_steps IH; ctx_close.
Qed.

Lemma skip_ws_loop_ctx : forall fuel k s r s', skip_ws_loop fuel k s = Some (r, s') ->
  exists new, ctx s' = ctx s ++ new /\ illegal_count new = 0%nat.
Proof.
  induction fuel as [|f IH]; intros k s r s' H; [discriminate|].
  cbn [skip_ws_loop] in H. split_run; ctx_steps IH; ctx_close.
Qed.

Lemma expect_inf_ctx : forall ex buf s r s', expect_inf ex buf s = Some (r, s') ->
  exists new, ctx s' = ctx s ++ new /\ illegal_count new = 0%nat.
Proof.
  induction ex as [|e ex IH]; intros buf s r s' H; cbn [expect_inf] in H; split_run; ctx_steps IH; ctx_close.
Qed.

Lemma number_loop_ctx : forall fuel i e rd buf s r s', number_loop fuel i e rd buf s = Some (r, s') ->
  exists new, ctx s' = ctx s ++ new /\ illegal_count new = 0%nat.
Proof.
  induction fuel as [|f IH]; intros i e rd buf s r s' H; [discriminate|].
  cbn [number_loop] in H. split_run; first [ctx_steps IH; ctx_close | ctx_steps expect_inf_ctx; ctx_close].
Qed.

Lemma read_number_ctx first s t s' : read_number first s = Some (t, s') ->
  exists new, ctx s' = ctx s ++ new /\ illegal_count new = 0%nat.
Proof.
  intros H. unfold read_number, read_number_inner in H. split_run; ctx_steps number_loop_ctx; ctx_close.
Qed.

Lemma punct_loop_ctx : forall fuel items needle s r s', punct_loop fuel items needle s = Some (r, s') ->
  exists new, ctx s' = ctx s ++ new /\ illegal_count new = 0%nat.
Proof.
  induction fuel as [|f IH]; intros items needle s r s' H; [discriminate|].
  cbn [punct_loop] in H. split_run; ctx_steps IH; ctx_close.
Qed.

Lemma read_punct_ctx first s r s' : read_punct first s = Some (r, s') ->
  exists new, ctx s' = ctx s ++ new /\ illegal_count new = 0%nat.
Proof. intros H. unfold read_punct in H. split_run; ctx_steps punct_loop_ctx; ctx_close. Qed.

Lemma string_loop_ctx : forall fuel e sl buf bs idx s r s', string_loop fuel e sl buf bs idx s = Some (r, s') ->
  exists new, ctx s' = ctx s ++ new /\ illegal_count new = 0%nat.
Proof.
  induction fuel as [|f IH]; intros e sl buf bs idx s r s' H; [discriminate|].
  cbn [string_loop] in H. unfold skip_ws in H. split_run;
  first [ctx_steps IH; ctx_close | ctx_steps skip_ws_loop_ctx; ctx_steps IH; ctx_close].
Qed.

Lemma read_string_ctx e ic s t s' : read_string e ic s = Some (t, s') ->
  exists new, ctx s' = ctx s ++ new /\ illegal_count new = 0%nat.
Proof.
  unfold read_string, lbind. destruct (string_loop _ _ _ _ _ _ s) as [[[buf op] s1]|] eqn:E; [|discriminate].
  apply string_loop_ctx in E. intros H. injection H as _ <-. exact E.
Qed.

Lemma iter_loop_illegal : forall fuel sk fi s r s', iter_loop fuel sk fi s = Some (r, s') ->
  exists new, ctx s' = ctx s ++ new /\ (illegal_count new <= if fi then 0 else 1)%nat.
Proof.
  induction fuel as [|f IH]; intros sk fi s r s' H; [discriminate|].
  cbn [iter_loop] in H. destruct fi; split_run.
  all: repeat match goal with
  | E : next _ = Some (_, _) |- _ => apply next_ctx in E
  | E : skip_ws _ _ = Some (_, _) |- _ => unfold skip_ws in E; apply skip_ws_loop_ctx in E
  | E : read_punct _ _ = Some (_, _) |- _ => apply read_punct_ctx in E
  | E : read_number _ _ = Some (_, _) |- _ => apply read_number_ctx in E
  | E : read_ident _ _ = Some (_, _) |- _ => unfold read_ident in E; apply ident_loop_ctx in E
  | E : read_resource _ = Some (_, _) |- _ => unfold read_resource in E; apply resource_loop_ctx in E
  | E : skip_line_comment _ = Some (_, _) |- _ => unfold skip_line_comment in E; apply skip_line_loop_ctx in E
  | E : skip_block_comments _ = Some (_, _) |- _ => unfold skip_block_comments in E; apply skip_block_loop_ctx in E
  | E : read_string _ _ _ = Some (_, _) |- _ => apply read_string_ctx in E
  | E : iter_loop _ _ _ _ = Some (_, _) |- _ => apply IH in E
  end.
  all: ctx_close.
Qed.

Lemma lex_all_illegal : forall fuel s ts s', lex_all fuel s = Some (ts, s') ->
  exists new, ctx s' = ctx s ++ new /\ (illegal_count new <= S (List.length ts))%nat.
Proof.
  induction fuel as [|f IH]; intros s ts s' H; [discriminate|].
  cbn [lex_all] in H. unfold lbind, lret in H.
  destruct (iter_next s) as [[[t|] s1]|] eqn:E; [| |discriminate];
    apply iter_loop_illegal in E; destruct E as (n1 & C1 & K1).
  - destruct (lex_all f s1) as [[rest s2]|] eqn:E2; [|discriminate].
    injection H as <- <-. destruct (IH _ _ _ E2) as (n2 & C2 & K2).
    exists (n1 ++ n2). rewrite C2, C1, app_assoc. split; [reflexivity|].
    unfold illegal_count in *. rewrite filter_app, length_app. simpl. lia.
  - injection H as <- <-. exists n1. split; [exact C1|simpl; lia].
Qed.

(** C9 (as the code has it): a byte that starts no punctuation, number,
    identifier, line splice or [@] is dropped and the iterator goes on
    looking for a token; the illegal-byte error is registered only if the
    current call has not registered one yet ([found_illegal]), and the flag
    is never reset within the call.  So a search that starts with the flag
    set registers no illegal-byte error, one call of the iterator registers
    at most one, whatever bytes, spaces or comments it skips, and a whole
    [lex] run at most one per token it returns plus one. *)
Theorem illegal_byte_dropped :
  (forall (f : nat) (sk fi : bool) (s s1 s2 : LexState) (first : Z),
     skip_ws sk s = Some (Some first, s1) ->
     directive s1 <> DStringy ->
     read_punct first s1 = Some (None, s2) ->
     is_digit first = false -> is_ident first = false -> first <> 92 -> first <> 64 ->
     iter_loop (S f) sk fi s =
       iter_loop f false true
         (if fi then s2 else set_ctx (ctx s2 ++ [mkDiag (loc s2) SevError (MsgIllegalByte first)]) s2)) /\
  (forall (f : nat) (sk : bool) (s s' : LexState) r,
     iter_loop f sk true s = Some (r, s') ->
     exists new, ctx s' = ctx s ++ new /\ illegal_count new = 0%nat) /\
  (forall (s s' : LexState) r,
     iter_next s = Some (r, s') ->
     exists new, ctx s' = ctx s ++ new /\ (illegal_count new <= 1)%nat) /\
  (forall input ts st, lex input = Some (ts, st) ->
     (illegal_count (ctx st) <= S (List.length ts))%nat).
Proof.
  split; [|split; [|split]].
  - intros f sk fi s s1 s2 first E1 Hd E2 H1 H2 H3 H4. cbn [iter_loop]. unfold lbind at 1. rewrite E1.
    unfold lbind at 1, lget at 1.
    replace (directive_eqb (directive s1) DStringy) with false
      by (destruct (directive s1); first [contradiction | reflexivity]).
    unfold lbind at 1. rewrite E2. unfold lbind at 1, lget at 1.
    rewrite H1, H2. apply Z.eqb_neq in H3, H4. rewrite H3, H4.
    destruct fi; reflexivity.
  - intros f sk s s' r H. destruct (iter_loop_illegal _ _ _ _ _ _ H) as (n & C & K).
    exists n. split; [exact C|lia].
  - intros s s' r H. exact (iter_loop_illegal _ _ _ _ _ _ H).
  - intros input ts st H. destruct (lex_all_illegal _ _ _ _ H) as (n & C & K).
    rewrite C. exact K.
Qed.

(** In [$$b] the first [$] is reported and the second is dropped without
    a report; in [$ $ a] and [$ /* c */ $ a] a search finds [a] after two
    illegal bytes; [$], newline, [$] lexes to two tokens with two errors. *)
Lemma illegal_byte_dropped_witness :
  (let s := lexer_new 0 (map IoByte (bytes "$$b")) in
   let s1 := lex_state_after (skip_ws false) s in
   let s2 := lex_state_after (read_punct 36) s1 in
   (skip_ws false s = Some (Some 36, s1) /\ directive s1 <> DStringy /\
    read_punct 36 s1 = Some (None, s2) /\
    is_digit 36 = false /\ is_ident 36 = false /\ 36 <> 92 /\ 36 <> 64) /\
   iter_loop 4 false false s =
     iter_loop 3 false true
       (if false then s2 else set_ctx (ctx s2 ++ [mkDiag (loc s2) SevError (MsgIllegalByte 36)]) s2)) /\
  (let s := lexer_new 0 (map IoByte (bytes "$ $ a")) in
   iter_loop 20 false true s =
     Some (Some (mkLocatedToken (mkLocation 0 1 5) (Ident [97] false)), lex_state_after (iter_loop 20 false true) s) /\
   exists new, ctx (lex_state_after (iter_loop 20 false true) s) = ctx s ++ new /\ illegal_count new = 0%nat) /\
  (let s := lexer_new 0 (map IoByte (bytes "$ /* c */ $ a")) in
   iter_next s =
     Some (Some (mkLocatedToken (mkLocation 0 1 13) (Ident [97] false)), lex_state_after iter_next s) /\
   exists new, ctx (lex_state_after iter_next s) = ctx s ++ new /\ (illegal_count new <= 1)%nat) /\
  (let p := match lex [36; 10; 36] with Some p => p | None => ([], lexer_new 0 []) end in
   lex [36; 10; 36] = Some p /\ List.length (fst p) = 2%nat /\ illegal_count (ctx (snd p)) = 2%nat /\
   (illegal_count (ctx (snd p)) <= S (List.length (fst p)))%nat).
Proof.
  split; [|split; [|split]].
  - intros s s1 s2. split; [repeat split; try discriminate; vm_compute; reflexivity|].
    refine ((proj1 illegal_byte_dropped) 3%nat false false s s1 s2 36 _ _ _ _ _ _ _);
      try discriminate; vm_compute; reflexivity.
  - intros s. assert (E : iter_loop 20 false true s =
      Some (Some (mkLocatedToken (mkLocation 0 1 5) (Ident [97] false)), lex_state_after (iter_loop 20 false true) s))
      by (vm_compute; reflexivity).
    split; [exact E|]. exact (proj1 (proj2 illegal_byte_dropped) _ _ _ _ _ E).
  - intros s. assert (E : iter_next s =
      Some (Some (mkLocatedToken (mkLocation 0 1 13) (Ident [97] false)), lex_state_after iter_next s))
      by (vm_compute; reflexivity).
    split; [exact E|]. exact (proj1 (proj2 (proj2 illegal_byte_dropped)) _ _ _ E).
  - intros p. assert (E : lex [36; 10; 36] = Some p) by (vm_compute; reflexivity).
    split; [exact E|]. split; [vm_compute; reflexivity|]. split; [vm_compute; reflexivity|].
    destruct p as [ts st]. exact (proj2 (proj2 (proj2 illegal_byte_dropped)) _ _ _ E).
Defined.

(** Two runs of illegal bytes, separated by a space or a comment, in the
    search for one token give one error, not two; separated by a newline
    (which is a token) they give two. *)
Lemma illegal_runs_share_diagnostic :
  lex_tokens (bytes "$ $") = Some [Punct Newline] /\
  lex_diags (bytes "$ $") = Some [mkDiag (mkLocation 0 1 1) SevError (MsgIllegalByte 36)] /\
  lex_diags (bytes "a $ /* c */ $ b") = Some [mkDiag (mkLocation 0 1 3) SevError (MsgIllegalByte 36)] /\
  lex_diags [36; 10; 36] = Some [mkDiag (mkLocation 0 1 1) SevError (MsgIllegalByte 36);
                                 mkDiag (mkLocation 0 2 1) SevError (MsgIllegalByte 36)].
Proof. repeat split; vm_compute; reflexivity. Qed.

(** ** [#warn] and [#error] lines *)

Lemma next_directive (s s' : LexState) (c : option Z) :
  next s = Some (c, s') -> nextb s <> None \/ at_line_end s = false -> directive s' = directive s.
Proof.
  destruct s as [cx i l ale nb fnl alh d is]. unfold next, tracker_next; cbn.
  destruct nb as [b|]; [intros H _; injection H as <- <-; reflexivity|].
  intros H [H1|H1]; [congruence|]. subst ale. cbn in H.
  destruct i as [|[b|] i]; cbn in H;
  repeat match type of H with context[if ?c then _ else _] => destruct c eqn:? end; cbn in *;
  injection H as <- <-; cbn; try reflexivity;
  match goal with E : N.ltb _ _ = true |- _ => apply N.ltb_lt in E; lia end.
Qed.

Lemma next_line_end (s s' : LexState) (b : Z) :
  next s = Some (Some b, s') -> at_line_end s = false -> (b =? 10) = false -> at_line_end s' = false.
Proof.
  destruct s as [cx i l ale nb fnl alh d is]. unfold next, tracker_next; cbn.
  destruct nb as [b'|]; [intros H A _; injection H as <- <-; exact A|].
  intros H A B. subst ale. cbn in H.
  destruct i as [|[c|] i]; cbn in H; [discriminate| |discriminate].
  repeat match type of H with context[if ?c then _ else _] => destruct c eqn:? end; cbn in *;
  injection H as <- <-; cbn; congruence.
Qed.

Lemma next_end_line_end (s s' : LexState) :
  next s = Some (None, s') -> at_line_end s = false -> at_line_end s' = false.
Proof.
  destruct s as [cx i l ale nb fnl alh d is]. unfold next, tracker_next; cbn.
  destruct nb as [b'|]; [discriminate|].
  intros H A. subst ale. cbn in H.
  destruct i as [|[c|] i]; cbn in H;
  repeat match type of H with context[if ?c then _ else _] => destruct c eqn:? end; cbn in *;
  try discriminate; injection H as <-; reflexivity.
Qed.

Lemma ident_loop_directive : forall ds fuel s ident rest,
  pending s = map IoByte ds ++ rest ->
  forallb (fun c => is_ident c || is_digit c) ds = true -> ident_stops rest = true ->
  (List.length ds < fuel)%nat -> at_line_end s = false ->
  exists s', ident_loop fuel ident s = Some (ident ++ ds, s') /\ pending s' = rest /\
    directive s' = directive s /\ (nextb s' <> None \/ at_line_end s' = false).
Proof.
  induction ds as [|d ds IH]; intros fuel s ident rest Hp Hd Hs Hf A;
    (destruct fuel as [|f]; [simpl in Hf; lia|]); cbn [ident_loop].
  - simpl in Hp. rewrite app_nil_r. destruct rest as [|[t|] r]; [|simpl in Hs|discriminate].
    + destruct (next_pending_end s Hp) as (s1 & E & P1 & N1 & C1).
      pose proof (next_directive _ _ _ E (or_intror A)) as D1.
      pose proof (next_end_line_end _ _ E A) as A1.
      unfold lbind. rewrite E. unfold put_back. rewrite N1.
      eexists; split; [reflexivity|]. unfold pending in *; simpl. rewrite N1 in P1. auto.
    + destruct (next_pending_byte s t r Hp) as (s1 & E & P1 & N1 & C1).
      pose proof (next_directive _ _ _ E (or_intror A)) as D1.
      unfold lbind. rewrite E. apply negb_true_iff in Hs. rewrite Hs.
      unfold put_back. rewrite N1. eexists; split; [reflexivity|].
      rewrite pending_put_back by exact N1. rewrite P1. simpl. split; [reflexivity|].
      split; [exact D1|left; discriminate].
  - simpl in Hd. apply andb_true_iff in Hd as [Hd1 Hd2]. simpl in Hp.
    destruct (next_pending_byte s d _ Hp) as (s1 & E & P1 & N1 & C1).
    pose proof (next_directive _ _ _ E (or_intror A)) as D1.
    assert (A1 : at_line_end s1 = false).
    { apply (next_line_end _ _ _ E A). apply Z.eqb_neq. intros ->. discriminate Hd1. }
    unfold lbind. rewrite E. rewrite Hd1.
    destruct (IH f s1 (ident ++ [d]) rest P1 Hd2 Hs ltac:(simpl in Hf; lia) A1) as (s2 & E2 & P2 & D2 & N2).
    rewrite <- app_assoc in E2. exists s2. split; [exact E2|]. split; [exact P2|]. split; [congruence|exact N2].
Qed.

Lemma ident_no_punct (c : Z) : is_ident c = true -> punct_items c = [].
Proof.
  intros H.
  assert (Hall : forallb (fun n => negb (is_ident (Z.of_nat n)) ||
                   match punct_items (Z.of_nat n) with [] => true | _ => false end) (seq 0 128) = true)
    by (vm_compute; reflexivity).
  assert (R : 0 <= c < 128).
  { unfold is_ident in H. repeat rewrite orb_true_iff, ?andb_true_iff, ?Z.leb_le, ?Z.eqb_eq in H. lia. }
  assert (Hin : List.In (Z.to_nat c) (seq 0 128)) by (apply in_seq; lia).
  rewrite forallb_forall in Hall. specialize (Hall _ Hin).
  rewrite Z2Nat.id in Hall by lia. rewrite H in Hall. simpl in Hall.
  destruct (punct_items c); [reflexivity|discriminate].
Qed.

Lemma ident_not_digit (c : Z) : is_ident c = true -> is_digit c = false.
Proof.
  unfold is_ident, is_digit. intros H.
  repeat rewrite orb_true_iff, ?andb_true_iff, ?Z.leb_le, ?Z.eqb_eq in H.
  apply andb_false_iff. rewrite !Z.leb_gt. lia.
Qed.

Lemma hash_ident_step (f : nat) (sk fi : bool) (s s1 : LexState) (first : Z) (ds : list Z) (rest : list IoItem) :
  skip_ws sk s = Some (Some first, s1) -> directive s1 = DHash -> at_line_end s1 = false ->
  is_ident first = true -> pending s1 = map IoByte ds ++ rest ->
  forallb (fun c => is_ident c || is_digit c) ds = true -> ident_stops rest = true ->
  exists s', iter_loop (S f) sk fi s =
    Some (Some (mkLocatedToken (loc s1)
      (match find (fun e => list_Z_eqb (fst e) (first :: ds)) PUNCT_TABLE with
       | Some (_, v) => Punct v
       | None => Ident (first :: ds) (match rest with IoByte b :: _ => (b =? 32) || (b =? 9) | _ => false end)
       end)), s') /\
    directive s' = (if list_Z_eqb (first :: ds) (bytes "warn") || list_Z_eqb (first :: ds) (bytes "error")
                    then DStringy else DOrdinary) /\
    pending s' = rest.
Proof.
  intros E1 Hd A Hi Hp Hds Hst.
  destruct (ident_loop_directive ds (lex_fuel s1) s1 [first] rest Hp Hds Hst) as (s2 & E2 & P2 & D2 & N2);
    [ pose proof (pending_length s1) as L; rewrite Hp, length_app, length_map in L; unfold lex_fuel; lia
    | exact A |].
  cbn [iter_loop]. unfold lbind at 1. rewrite E1.
  unfold lbind at 1, lget at 1. rewrite Hd. cbn [directive_eqb].
  unfold read_punct. rewrite (ident_no_punct _ Hi).
  unfold lbind at 1, lret at 1. unfold lbind at 1, lget at 1.
  rewrite (ident_not_digit _ Hi), Hi.
  unfold lbind at 1, read_ident. rewrite E2. simpl app.
  destruct rest as [|[t|] r]; [| |discriminate].
  - unfold pending in P2. destruct (nextb s2) eqn:N; [discriminate|].
    destruct (next_pending_end s2) as (s3 & E3 & P3 & N3 & C3); [unfold pending; rewrite N; exact P2|].
    destruct N2 as [N2|N2]; [congruence|].
    pose proof (next_directive _ _ _ E3 (or_intror N2)) as D3.
    unfold lbind at 1. rewrite E3. unfold lbind at 1, put_back at 1. rewrite N3.
    unfold lbind at 1, lget at 1. cbn [directive set_nextb]. rewrite D3, D2, Hd. cbn [directive_eqb].
    destruct (list_Z_eqb _ (bytes "warn") || list_Z_eqb _ (bytes "error"));
    unfold lbind at 1, lmodify;
    destruct (find _ PUNCT_TABLE) as [[k v]|]; unfold lret;
    eexists; (split; [reflexivity|]); split; try reflexivity;
    unfold pending in *; simpl; rewrite N3 in P3; exact P3.
  - destruct (next_pending_byte s2 t r P2) as (s3 & E3 & P3 & N3 & C3).
    pose proof (next_directive _ _ _ E3 N2) as D3.
    unfold lbind at 1. rewrite E3. unfold lbind at 1, put_back at 1. rewrite N3.
    unfold lbind at 1, lget at 1. cbn [directive set_nextb]. rewrite D3, D2, Hd. cbn [directive_eqb].
    destruct (list_Z_eqb _ (bytes "warn") || list_Z_eqb _ (bytes "error"));
    unfold lbind at 1, lmodify;
    destruct (find _ PUNCT_TABLE) as [[k v]|]; unfold lret;
    eexists; (split; [reflexivity|]); split; try reflexivity;
    unfold pending in *; simpl; rewrite N3 in P3; rewrite P3; reflexivity.
Qed.

(** C6 (as the code has it): after a [#] (directive state [Hash]), an
    identifier is read whole; if it is [warn] or [error] the state becomes
    [Stringy], otherwise [Ordinary].  In the [Stringy] state the next byte
    found is put back and the token is whatever [read_string] makes of the
    rest of the line with end delimiter newline and [interp_closed = false]:
    a [TString], or an [InterpStringBegin] when the line holds an unescaped
    [[]; the state returns to [None]. *)
Theorem stringy_directive_line :
  (forall (f : nat) (sk fi : bool) (s s1 : LexState) (first : Z) (ds : list Z) (rest : list IoItem),
     skip_ws sk s = Some (Some first, s1) -> directive s1 = DHash -> at_line_end s1 = false ->
     is_ident first = true -> pending s1 = map IoByte ds ++ rest ->
     forallb (fun c => is_ident c || is_digit c) ds = true -> ident_stops rest = true ->
     exists s', iter_loop (S f) sk fi s =
       Some (Some (mkLocatedToken (loc s1)
         (match find (fun e => list_Z_eqb (fst e) (first :: ds)) PUNCT_TABLE with
          | Some (_, v) => Punct v
          | None => Ident (first :: ds) (match rest with IoByte b :: _ => (b =? 32) || (b =? 9) | _ => false end)
          end)), s') /\
       directive s' = (if list_Z_eqb (first :: ds) (bytes "warn") || list_Z_eqb (first :: ds) (bytes "error")
                       then DStringy else DOrdinary) /\
       pending s' = rest) /\
  (forall (f : nat) (sk fi : bool) (s s1 : LexState) (first : Z),
     skip_ws sk s = Some (Some first, s1) ->
     directive s1 = DStringy -> nextb s1 = None ->
     iter_loop (S f) sk fi s =
       (t <- read_string [10] false ;; lret (Some (mkLocatedToken (loc s1) t)))
         (set_nextb (Some first) (set_directive DNone s1))).
Proof.
  split; [exact hash_ident_step|].
  intros f sk fi s s1 first E1 Hd Hn. cbn [iter_loop]. unfold lbind at 1. rewrite E1.
  unfold lbind at 1, lget at 1. rewrite Hd. cbn [directive_eqb].
  unfold lbind at 1, lmodify at 1. unfold lbind at 1, put_back at 1.
  destruct s1; simpl in *; subst; reflexivity.
Qed.

(** [#error oops] enters [Stringy] after [error]; after [#warn] the rest of
    the line [hello world] is one string. *)
Lemma stringy_directive_line_witness :
  (let s := lex_state_after (iter_calls 1) (lexer_new 0 (map IoByte (bytes "#error oops" ++ [10]))) in
   let s1 := lex_state_after (skip_ws false) s in
   exists s', iter_loop 20 false false s =
     Some (Some (mkLocatedToken (mkLocation 0 1 2) (Ident (bytes "error") true)), s') /\
     directive s' = DStringy /\ pending s' = map IoByte (bytes " oops" ++ [10])) /\
  (let s := lex_state_after (iter_calls 2) (lexer_new 0 (map IoByte (bytes "#warn hello world" ++ [10]))) in
   let s1 := lex_state_after (skip_ws false) s in
   (skip_ws false s = Some (Some 104, s1) /\ directive s1 = DStringy /\ nextb s1 = None) /\
   iter_loop 20 false false s =
     (t <- read_string [10] false ;; lret (Some (mkLocatedToken (loc s1) t)))
       (set_nextb (Some 104) (set_directive DNone s1))) /\
  lex_tokens (bytes "#warn hello world" ++ [10]) =
    Some [Punct Hash; Ident (bytes "warn") true; TString (bytes "hello world"); Punct Newline] /\
  lex_tokens (bytes "#error oops" ++ [10]) =
    Some [Punct Hash; Ident (bytes "error") true; TString (bytes "oops"); Punct Newline].
Proof.
  split; [|split; [|split; vm_compute; reflexivity]].
  - intros s s1.
    exact ((proj1 stringy_directive_line) 19%nat false false s s1 101 (bytes "rror")
             (map IoByte (bytes " oops" ++ [10]))
             ltac:(vm_compute; reflexivity) ltac:(vm_compute; reflexivity) ltac:(vm_compute; reflexivity)
             ltac:(vm_compute; reflexivity) ltac:(vm_compute; reflexivity) ltac:(vm_compute; reflexivity)
             ltac:(vm_compute; reflexivity)).
  - intros s s1.
    split; [repeat split; vm_compute; reflexivity|].
    refine ((proj2 stringy_directive_line) 19%nat false false s s1 104 _ _ _); vm_compute; reflexivity.
Defined.

(** Interpolation is not disabled on a [#warn] line: [[b]] is lexed as an
    embedded expression. *)
Lemma stringy_line_interpolates :
  lex_tokens (bytes "#warn a[b]c" ++ [10]) =
    Some [Punct Hash; Ident (bytes "warn") true; InterpStringBegin (bytes "a");
          Ident (bytes "b") false; InterpStringEnd (bytes "c"); Punct Newline].
Proof. vm_compute; reflexivity. Qed.

(** ** String literals and interpolation *)

Lemma next_interp_stack (s s' : LexState) (c : option Z) :
  next s = Some (c, s') -> interp_stack s' = interp_stack s.
Proof.
  destruct s as [cx i l ale nb fnl alh d is]. unfold next, tracker_next; cbn.
  destruct nb; [intros H; injection H as <- <-; reflexivity|].
  destruct ale; cbn; destruct i as [|[b|] i]; cbn;
  repeat match goal with |- context[if ?c then _ else _] => destruct c end; cbn;
  intros H; injection H as <- <-; reflexivity.
Qed.

Lemma skip_ws_loop_interp_stack (fuel : nat) : forall k (s s' : LexState) c,
  skip_ws_loop fuel k s = Some (c, s') -> interp_stack s' = interp_stack s.
Proof.
  induction fuel as [|f IH]; intros k s s' c H; [discriminate|].
  cbn [skip_ws_loop] in H. unfold lbind at 1 in H.
  destruct (next s) as [[ch s1]|] eqn:E; [|discriminate].
  apply next_interp_stack in E. unfold lbind, lget in H.
  destruct ch as [ch|]; [|injection H as _ <-; exact E].
  repeat match goal with H : context[if ?c then _ else _] |- _ => destruct c end;
  first [apply IH in H; congruence | injection H as _ <-; exact E].
Qed.

Lemma string_loop_interp_stack (fuel : nat) : forall end_ sl buf bs idx (s s' : LexState) b' op,
  string_loop fuel end_ sl buf bs idx s = Some ((b', op), s') ->
  interp_stack s' = if op then mkInterp end_ 1 :: interp_stack s else interp_stack s.
Proof.
  induction fuel as [|f IH]; intros end_ sl buf bs idx s s' b' op H; [discriminate|].
  cbn [string_loop] in H. unfold lbind at 1 in H.
  destruct (next s) as [[ch s1]|] eqn:E; [|discriminate].
  apply next_interp_stack in E.
  destruct ch as [ch|].
  - destruct (nth_error end_ idx), (nth_error end_ 0); try discriminate.
    destruct ((ch =? z) && negb bs).
    + destruct (Nat.eqb _ _).
      * cbv [lret] in H. injection H as _ <- <-. exact E.
      * apply IH in H. rewrite H, E. reflexivity.
    + destruct ((ch =? z0) && negb bs); cbv beta iota zeta in H;
      repeat match goal with H : context[if ?c then _ else _] |- _ => destruct c end;
      first
        [ apply IH in H; rewrite H, E; reflexivity
        | unfold lbind, lmodify, lret in H; injection H as _ <- <-; simpl; rewrite E; reflexivity
        | unfold lbind at 1 in H;
          destruct (skip_ws true s1) as [[nx s2]|] eqn:E2; [|discriminate];
          unfold skip_ws in E2; apply skip_ws_loop_interp_stack in E2;
          unfold lbind, put_back in H; destruct (nextb s2); [discriminate|];
          apply IH in H; rewrite H; simpl; rewrite E2, E; reflexivity ].
  - unfold lbind, register_error, lmodify, lret in H. injection H as _ <- <-.
    unfold set_ctx; simpl. exact E.
Qed.

(** C2: the token [read_string] makes is fixed by the pair (an
    interpolation was opened, [interp_closed]); a frame with depth 1 and
    the string's end delimiter is pushed exactly when one was opened. *)
Theorem read_string_variant (end_ : list Z) (interp_closed : bool) (s s' : LexState) (tok : Token) :
  read_string end_ interp_closed s = Some (tok, s') ->
  exists (buf : list Z) (opened : bool),
    interp_stack s' = (if opened then mkInterp end_ 1 :: interp_stack s else interp_stack s) /\
    tok = match opened, interp_closed with
          | false, false => TString buf
          | true, false => InterpStringBegin buf
          | false, true => InterpStringEnd buf
          | true, true => InterpStringPart buf
          end.
Proof.
  unfold read_string, lbind.
  destruct (string_loop (lex_fuel s) end_ (loc s) [] false 0 s) as [[[buf op] s1]|] eqn:E; [|discriminate].
  intros H. cbv [lret] in H. injection H as <- <-.
  exists buf, op. split; [exact (string_loop_interp_stack _ _ _ _ _ _ _ _ _ _ E)|].
  destruct op, interp_closed; reflexivity.
Qed.

(** Inside ["a[b]c"] the [[] opens an interpolation; the whole literal
    lexes to [InterpStringBegin], [Ident], [InterpStringEnd]. *)
Lemma read_string_variant_witness :
  let s := lexer_new 0 (map IoByte (bytes "a[b]c" ++ [34])) in
  let s' := lex_state_after (read_string [34] false) s in
  read_string [34] false s = Some (InterpStringBegin (bytes "a"), s') /\
  (exists (buf : list Z) (opened : bool),
    interp_stack s' = (if opened then mkInterp [34] 1 :: interp_stack s else interp_stack s) /\
    InterpStringBegin (bytes "a") = match opened, false with
          | false, false => TString buf
          | true, false => InterpStringBegin buf
          | false, true => InterpStringEnd buf
          | true, true => InterpStringPart buf
          end) /\
  lex_tokens ([34] ++ bytes "a[b]c" ++ [34]) =
    Some [InterpStringBegin (bytes "a"); Ident (bytes "b") false; InterpStringEnd (bytes "c");
          Punct Newline] /\
  lex_tokens ([34] ++ bytes "x[1]y[2]z" ++ [34]) =
    Some [InterpStringBegin (bytes "x"); Int 1; InterpStringPart (bytes "y"); Int 2;
          InterpStringEnd (bytes "z"); Punct Newline].
Proof.
  intros s s'.
  assert (H : read_string [34] false s = Some (InterpStringBegin (bytes "a"), s'))
    by (vm_compute; reflexivity).
  split; [exact H|]. split; [exact (read_string_variant [34] false s s' _ H)|].
  split; vm_compute; reflexivity.
Defined.

(** ** Greedy punctuation *)

Lemma punct_table_checks : punct_table_nonempty = true /\ punct_table_grouped = true /\ punct_table_prefixes = true.
Proof. vm_compute. auto. Qed.

Lemma starts_with_app (h n : list Z) : starts_with h n = true <-> exists t, h = n ++ t.
Proof.
  revert h; induction n as [|x n IH]; intros h; simpl.
  - split; [intros _; exists h; reflexivity | destruct h; reflexivity].
  - destruct h as [|y h].
    + split; [discriminate | intros [t Ht]; discriminate].
    + simpl. rewrite andb_true_iff, Z.eqb_eq, IH. split.
      * intros [-> [t ->]]. exists t; reflexivity.
      * intros [t Ht]. injection Ht as -> ->. split; [reflexivity | exists t; reflexivity].
Qed.

Lemma list_Z_eqb_true (a b : list Z) : list_Z_eqb a b = true -> a = b.
Proof.
  revert b; induction a as [|x a IH]; intros [|y b]; simpl; try discriminate; [reflexivity|].
  rewrite andb_true_iff, Z.eqb_eq. intros [-> H]. f_equal. apply IH, H.
Qed.

Lemma entry_eqb_true (a b : list Z * Punctuation) : entry_eqb a b = true -> a = b.
Proof.
  destruct a as [ka pa], b as [kb pb]. unfold entry_eqb; simpl.
  rewrite andb_true_iff. intros [H1 H2].
  apply list_Z_eqb_true in H1. apply internal_Punctuation_dec_bl in H2. subst; reflexivity.
Qed.

Lemma take_while_In {A} (p : A -> bool) (l : list A) (x : A) :
  List.In x (take_while p l) -> List.In x l /\ p x = true.
Proof.
  induction l as [|y l IH]; simpl; [tauto|].
  destruct (p y) eqn:E; simpl; [|tauto].
  intros [<- | H]; [auto|]. destruct (IH H); auto.
Qed.

Lemma skip_while_In {A} (p : A -> bool) (l : list A) (x : A) :
  List.In x (skip_while p l) -> List.In x l.
Proof.
  induction l as [|y l IH]; simpl; [tauto|].
  destruct (p y); simpl; auto.
Qed.

Lemma punct_items_spec (f : Z) (e : list Z * Punctuation) :
  List.In e (punct_items f) -> List.In e PUNCT_TABLE /\ first_byte e = f.
Proof.
  unfold punct_items. intros H. apply take_while_In in H as [H1 H2].
  apply skip_while_In in H1. apply Z.eqb_eq in H2. auto.
Qed.

Lemma punct_in_group (e : list Z * Punctuation) :
  List.In e PUNCT_TABLE -> first_byte e <> 105 -> List.In e (punct_items (first_byte e)).
Proof.
  intros H Hi. destruct punct_table_checks as [_ [G _]].
  unfold punct_table_grouped in G. rewrite forallb_forall in G.
  specialize (G e H). apply Z.eqb_neq in Hi. rewrite Hi in G. simpl in G.
  apply existsb_exists in G as [x [Hx Ex]]. apply entry_eqb_true in Ex. subst; exact Hx.
Qed.

Lemma punct_key_cons (e : list Z * Punctuation) :
  List.In e PUNCT_TABLE -> exists t, fst e = first_byte e :: t.
Proof.
  intros H. destruct punct_table_checks as [N _].
  unfold punct_table_nonempty in N. rewrite forallb_forall in N.
  specialize (N e H). unfold first_byte. destruct (fst e) as [|b t]; [discriminate|].
  exists t; reflexivity.
Qed.

Lemma punct_prefix_head (f : Z) (e : list Z * Punctuation) (n t : list Z) :
  List.In e (punct_items f) -> f <> 105 -> n <> [] -> fst e = n ++ t ->
  exists p0 tl, filter (fun e' => starts_with (fst e') n) (punct_items f) = (n, p0) :: tl.
Proof.
  intros He Hi Hn Ht. apply punct_items_spec in He as [He <-].
  destruct punct_table_checks as [_ [_ P]].
  unfold punct_table_prefixes in P. rewrite forallb_forall in P.
  specialize (P e He). apply Z.eqb_neq in Hi. rewrite Hi in P. simpl in P.
  rewrite forallb_forall in P.
  assert (Hk : List.In (List.length n) (seq 1 (List.length (fst e)))).
  { apply in_seq. rewrite Ht, length_app. destruct n; [contradiction|simpl; lia]. }
  specialize (P _ Hk). cbv zeta in P.
  assert (Hf : firstn (List.length n) (fst e) = n).
  { rewrite Ht, firstn_app, Nat.sub_diag, firstn_O, app_nil_r, firstn_all; reflexivity. }
  rewrite Hf in P.
  destruct (filter _ _) as [|[k0 p0] tl]; [discriminate|].
  apply list_Z_eqb_true in P. subst. eauto.
Qed.

Lemma filter_length_lt {A} (p : A -> bool) (l : list A) (x : A) :
  List.In x l -> p x = false -> (List.length (filter p l) < List.length l)%nat.
Proof.
  induction l as [|y l IH]; simpl; [tauto|].
  intros [<- | H] Hp.
  - rewrite Hp. pose proof (filter_length_le p l). lia.
  - destruct (p y); simpl; [specialize (IH H Hp); lia|]. pose proof (filter_length_le p l). lia.
Qed.

Lemma app_prefix (a b r1 r2 : list Z) :
  a ++ r1 = b ++ r2 -> (List.length a <= List.length b)%nat -> exists t, b = a ++ t.
Proof.
  revert b; induction a as [|x a IH]; intros b H Hl; [exists b; reflexivity|].
  destruct b as [|y b]; [simpl in Hl; lia|].
  simpl in H. injection H as -> H. simpl in Hl.
  destruct (IH b H) as [t ->]; [lia|]. exists t; reflexivity.
Qed.

Lemma filter_filter_impl {A} (p q : A -> bool) (l : list A) :
  (forall x, q x = true -> p x = true) -> filter q (filter p l) = filter q l.
Proof.
  intros H. induction l as [|x l IH]; simpl; [reflexivity|].
  destruct (p x) eqn:Ep; simpl; destruct (q x) eqn:Eq; rewrite ?IH; try reflexivity.
  rewrite H in Ep by exact Eq. discriminate.
Qed.

Lemma longer_entry_extends (needle rem k r' : list Z) :
  needle ++ rem = k ++ r' -> (List.length needle < List.length k)%nat ->
  exists b t rem', rem = b :: rem' /\ k = (needle ++ [b]) ++ t.
Proof.
  intros H Hl. destruct (app_prefix needle k rem r' H) as [t Ht]; [lia|].
  subst k. destruct t as [|b t]; [rewrite app_nil_r in Hl; lia|].
  rewrite <- app_assoc in H. apply app_inv_head in H. simpl in H.
  destruct rem as [|b' rem']; [discriminate|]. injection H as -> _.
  exists b, t, rem'. split; [reflexivity|]. rewrite <- app_assoc; reflexivity.
Qed.

Lemma punct_loop_longest (first : Z) (Hi : first <> 105) : forall fuel needle rem s p0 tl,
  (needle, p0) :: tl = filter (fun e => starts_with (fst e) needle) (punct_items first) ->
  (List.length tl < fuel)%nat ->
  pending s = map IoByte rem ->
  exists p m r s', punct_loop fuel ((needle, p0) :: tl) needle s = Some (Some p, s')
    /\ List.In (m, p) (punct_items first) /\ needle ++ rem = m ++ r
    /\ pending s' = map IoByte r /\ ctx s' = ctx s
    /\ (forall e r', List.In e (punct_items first) -> needle ++ rem = fst e ++ r' ->
                    (List.length (fst e) <= List.length m)%nat).
Proof.
  intros fuel; induction fuel as [|f IH]; intros needle rem s p0 tl Hf Hl Hp; [lia|].
  assert (Hin0 : List.In (needle, p0) (punct_items first)).
  { assert (H : List.In (needle, p0) ((needle, p0) :: tl)) by (left; reflexivity).
    rewrite Hf, filter_In in H. tauto. }
  assert (Hext : forall e r', List.In e (punct_items first) -> needle ++ rem = fst e ++ r' ->
            (List.length needle < List.length (fst e))%nat ->
            exists b t rem', rem = b :: rem' /\ fst e = (needle ++ [b]) ++ t /\
              List.In e ((needle, p0) :: tl)).
  { intros e r' He H Hlt. destruct (longer_entry_extends needle rem (fst e) r' H Hlt)
      as (b & t & rem' & -> & Ht). exists b, t, rem'. split; [reflexivity|]. split; [exact Ht|].
    rewrite Hf, filter_In. split; [exact He|]. apply starts_with_app.
    exists (b :: t). rewrite Ht, <- app_assoc. reflexivity. }
  cbn [punct_loop].
  destruct tl as [|x tl].
  - (* one entry left *)
    exists p0, needle, rem, s. repeat split; auto.
    intros e r' He H. destruct (Nat.le_gt_cases (List.length (fst e)) (List.length needle)) as [Hle|Hgt];
      [exact Hle|].
    destruct (Hext e r' He H Hgt) as (b & t & rem' & _ & Ht & [<- | []]).
    simpl in Ht. rewrite <- app_assoc in Ht. simpl in Ht.
    apply (f_equal (@List.length Z)) in Ht. rewrite length_app in Ht. simpl in Ht. lia.
  - simpl (Nat.eqb _ _). destruct rem as [|b rem'].
    + destruct (next_pending_end s Hp) as (s1 & E & P1 & N1 & C1).
      unfold lbind at 1. rewrite E.
      exists p0, needle, [], s1. repeat split; auto.
      intros e r' He H. rewrite app_nil_r in H. rewrite H, length_app. lia.
    + destruct (next_pending_byte s b (map IoByte rem') Hp) as (s1 & E & P1 & N1 & C1).
      unfold lbind at 1. rewrite E.
      set (q := fun e : list Z * Punctuation => starts_with (fst e) (needle ++ [b])).
      assert (Hq : filter q ((needle, p0) :: x :: tl) = filter q (punct_items first)).
      { rewrite Hf. apply filter_filter_impl. unfold q. intros e He.
        apply starts_with_app in He as [t Ht]. apply starts_with_app.
        exists ([b] ++ t). rewrite Ht, app_assoc. reflexivity. }
      destruct (filter q ((needle, p0) :: x :: tl)) as [|y ys] eqn:Ey.
      * (* nothing extends the needle: put the byte back *)
        unfold lbind, put_back. rewrite N1.
        exists p0, needle, (b :: rem'), (set_nextb (Some b) s1). repeat split; auto.
        -- rewrite pending_put_back by exact N1. rewrite P1. reflexivity.
        -- intros e r' He H.
           destruct (Nat.le_gt_cases (List.length (fst e)) (List.length needle)) as [Hle|Hgt];
             [exact Hle|].
           destruct (Hext e r' He H Hgt) as (b' & t & rem'' & Hr & Ht & Hin).
           injection Hr as <- _.
           assert (Hy : List.In e (filter q ((needle, p0) :: x :: tl))).
           { apply filter_In. split; [exact Hin|]. unfold q. apply starts_with_app. eauto. }
           rewrite Ey in Hy. destruct Hy.
      * (* go on with the longer needle *)
        assert (Hy : List.In y (filter q (punct_items first))) by (rewrite <- Hq; left; reflexivity).
        apply filter_In in Hy as [Hy Hqy]. unfold q in Hqy. apply starts_with_app in Hqy as [t Ht].
        destruct (punct_prefix_head first y (needle ++ [b]) t Hy Hi) as (p1 & tl1 & E1);
          [destruct needle; discriminate | exact Ht |].
        fold q in E1. rewrite <- Hq in E1. injection E1 as -> ->.
        assert (Hlen : (List.length ((needle ++ [b], p1) :: tl1) < List.length ((needle, p0) :: x :: tl))%nat).
        { rewrite <- Ey. apply (filter_length_lt q _ (needle, p0)); [left; reflexivity|].
          unfold q; simpl. destruct (starts_with needle (needle ++ [b])) eqn:Es; [|reflexivity].
          apply starts_with_app in Es as [t' Ht']. apply (f_equal (@List.length Z)) in Ht'.
          rewrite !length_app in Ht'. simpl in Ht'. lia. }
        simpl in Hlen.
        assert (Hf' : (needle ++ [b], p1) :: tl1 =
                      filter (fun e => starts_with (fst e) (needle ++ [b])) (punct_items first))
          by exact Hq.
        destruct (IH (needle ++ [b]) rem' s1 p1 tl1 Hf') as (p & m & r & s' & E2 & Hm & Hr & P2 & C2 & Hlong);
          [simpl in Hl; lia | exact P1 |].
        exists p, m, r, s'. rewrite E2. rewrite <- app_assoc in Hr. simpl in Hr.
        repeat split; auto; [congruence|].
        intros e r' He H. apply (Hlong e r' He). rewrite <- app_assoc. exact H.
Qed.

(** C5 (as the code has it): for a first byte other than [i] that begins
    a table entry, [read_punct] returns the entry of the longest table key
    that prefixes the input from that byte on, and leaves exactly the input
    after that key unread; for a byte that begins no entry but the keyword
    [in] (so for [i] too), it returns [None] and reads nothing. *)
Theorem read_punct_longest (first : Z) (s : LexState) (rem : list Z) :
  pending s = map IoByte rem ->
  (first <> 105 -> (exists e, List.In e PUNCT_TABLE /\ first_byte e = first) ->
   exists p m r s', read_punct first s = Some (Some p, s')
     /\ List.In (m, p) PUNCT_TABLE /\ first :: rem = m ++ r
     /\ pending s' = map IoByte r /\ ctx s' = ctx s
     /\ (forall e r', List.In e PUNCT_TABLE -> first :: rem = fst e ++ r' ->
                      (List.length (fst e) <= List.length m)%nat))
  /\ ((forall e, List.In e PUNCT_TABLE -> first_byte e = first -> fst e = bytes "in") ->
      read_punct first s = Some (None, s)).
Proof.
  intros Hp. split.
  - intros Hi [e0 [He0 Hb0]].
    pose proof (punct_in_group e0 He0) as Hg0. rewrite Hb0 in Hg0. specialize (Hg0 Hi).
    destruct (punct_key_cons e0 He0) as [t0 Ht0]. rewrite Hb0 in Ht0.
    destruct (punct_prefix_head first e0 [first] t0 Hg0 Hi) as (p0 & tl & E0);
      [discriminate | exact Ht0 |].
    assert (Hall : filter (fun e => starts_with (fst e) [first]) (punct_items first) = punct_items first).
    { apply forallb_filter_id, forallb_forall. intros e He.
      destruct (punct_items_spec first e He) as [HeT Heb].
      destruct (punct_key_cons e HeT) as [t Ht]. apply starts_with_app. exists t.
      rewrite Ht, Heb. reflexivity. }
    rewrite Hall in E0.
    unfold read_punct. rewrite E0.
    destruct (punct_loop_longest first Hi (S (List.length tl)) [first] rem s p0 tl)
      as (p & m & r & s' & E & Hm & Hr & P & C & Hlong);
      [rewrite Hall; symmetry; exact E0 | lia | exact Hp |].
    exists p, m, r, s'. split; [exact E|].
    split; [exact (proj1 (punct_items_spec first _ Hm))|].
    repeat split; auto.
    intros e r' He H. apply (Hlong e r'); [|exact H].
    destruct (punct_key_cons e He) as [t Ht]. rewrite Ht in H. injection H as Hb _.
    pose proof (punct_in_group e He) as G. rewrite <- Hb in G. exact (G Hi).
  - intros Hn. unfold read_punct.
    destruct (punct_items first) as [|x xs] eqn:E; [reflexivity|].
    assert (Hx : List.In x (punct_items first)) by (rewrite E; left; reflexivity).
    destruct (punct_items_spec first x Hx) as [HxT Hxb].
    pose proof (Hn x HxT Hxb) as Hk. unfold first_byte in Hxb. rewrite Hk in Hxb.
    simpl in Hxb. subst first. vm_compute in E. discriminate.
Qed.

(** On [<<=x], [read_punct] returns [LShiftAssign] and leaves [x]. *)
Lemma read_punct_longest_witness :
  let s := lexer_new 0 (map IoByte (bytes "<=x")) in
  pending s = map IoByte (bytes "<=x") /\
  ((60 <> 105 -> (exists e, List.In e PUNCT_TABLE /\ first_byte e = 60) ->
   exists p m r s', read_punct 60 s = Some (Some p, s')
     /\ List.In (m, p) PUNCT_TABLE /\ 60 :: bytes "<=x" = m ++ r
     /\ pending s' = map IoByte r /\ ctx s' = ctx s
     /\ (forall e r', List.In e PUNCT_TABLE -> 60 :: bytes "<=x" = fst e ++ r' ->
                      (List.length (fst e) <= List.length m)%nat))
  /\ ((forall e, List.In e PUNCT_TABLE -> first_byte e = 60 -> fst e = bytes "in") ->
      read_punct 60 s = Some (None, s))) /\
  read_punct 60 s = Some (Some LShiftAssign, lex_state_after (read_punct 60) s) /\
  pending (lex_state_after (read_punct 60) s) = [IoByte 120].
Proof.
  intros s.
  assert (H : pending s = map IoByte (bytes "<=x")) by (vm_compute; reflexivity).
  split; [exact H|]. split; [exact (read_punct_longest 60 s (bytes "<=x") H)|].
  split; vm_compute; reflexivity.
Defined.

(** [in] is a table entry, yet [read_punct] returns [None] for [i]: the
    keyword sits at the end of the table, outside the run selected for [i]. *)
Lemma read_punct_keyword_in :
  let s := lexer_new 0 (map IoByte (bytes "n")) in
  List.In (bytes "in", In) PUNCT_TABLE /\ punct_items 105 = [] /\ read_punct 105 s = Some (None, s).
Proof.
  split; [|split; vm_compute; reflexivity].
  vm_compute. repeat (first [left; reflexivity | right]).
Qed.

(** ** Identifiers, resources, comments and the tokens the lexer emits *)

Lemma next_put_back_byte (s s1 : LexState) (t : Z) (r : list IoItem) :
  pending s = IoByte t :: r -> next s = Some (Some t, s1) -> pending s1 = r -> nextb s1 = None ->
  exists s2, put_back (Some t) s1 = Some (tt, s2) /\ pending s2 = pending s /\ ctx s2 = ctx s1.
Proof.
  intros Hp E P1 N1. unfold put_back. rewrite N1. eexists; split; [reflexivity|].
  rewrite pending_put_back by exact N1. rewrite P1, Hp. auto.
Qed.

Lemma ident_loop_run : forall ds fuel s ident rest,
  pending s = map IoByte ds ++ rest ->
  forallb (fun c => is_ident c || is_digit c) ds = true -> ident_stops rest = true ->
  (List.length ds < fuel)%nat ->
  exists s', ident_loop fuel ident s = Some (ident ++ ds, s') /\ pending s' = rest /\ ctx s' = ctx s.
Proof.
  induction ds as [|d ds IH]; intros fuel s ident rest Hp Hd Hs Hf;
    (destruct fuel as [|f]; [simpl in Hf; lia|]); cbn [ident_loop].
  - simpl in Hp. rewrite app_nil_r. destruct rest as [|[t|] r]; [|simpl in Hs|discriminate].
    + destruct (next_pending_end s Hp) as (s1 & E & P1 & N1 & C1).
      unfold lbind. rewrite E. unfold put_back. rewrite N1.
      eexists; split; [reflexivity|]. unfold pending in *; simpl. rewrite N1 in P1. auto.
    + destruct (next_pending_byte s t r Hp) as (s1 & E & P1 & N1 & C1).
      unfold lbind. rewrite E. apply negb_true_iff in Hs. rewrite Hs.
      destruct (next_put_back_byte s s1 t r Hp E P1 N1) as (s2 & E2 & P2 & C2).
      rewrite E2. exists s2. split; [reflexivity|]. split; congruence.
  - simpl in Hd. apply andb_true_iff in Hd as [Hd1 Hd2]. simpl in Hp.
    destruct (next_pending_byte s d _ Hp) as (s1 & E & P1 & N1 & C1).
    unfold lbind. rewrite E. rewrite Hd1.
    destruct (IH f s1 (ident ++ [d]) rest P1 Hd2 Hs) as (s2 & E2 & P2 & C2); [simpl in Hf; lia|].
    rewrite <- app_assoc in E2. exists s2. split; [exact E2|]. split; congruence.
Qed.

(** X1: [read_ident] reads the longest run of identifier characters and
    digits after its first byte, puts back the byte that ends it, and
    registers no diagnostic. *)
Theorem read_ident_maximal (first : Z) (s : LexState) (ds : list Z) (rest : list IoItem) :
  pending s = map IoByte ds ++ rest ->
  forallb (fun c => is_ident c || is_digit c) ds = true -> ident_stops rest = true ->
  exists s', read_ident first s = Some (first :: ds, s') /\ pending s' = rest /\ ctx s' = ctx s.
Proof.
  intros Hp Hd Hs. unfold read_ident.
  apply (ident_loop_run ds (lex_fuel s) s [first] rest Hp Hd Hs).
  pose proof (pending_length s) as L. rewrite Hp, length_app, length_map in L.
  unfold lex_fuel. lia.
Qed.

(** [c1] is read after [b], up to the space. *)
Lemma read_ident_maximal_witness :
  exists s', read_ident 98 (lexer_new 0 (map IoByte (bytes "c1 + 2"))) = Some (98 :: bytes "c1", s')
    /\ pending s' = map IoByte (bytes " + 2") /\ ctx s' = [].
Proof. apply read_ident_maximal; reflexivity. Defined.

Lemma resource_loop_run : forall body fuel s sl buf rest,
  pending s = map IoByte body ++ rest -> forallb (fun c => negb (c =? 39)) body = true ->
  (List.length body < fuel)%nat ->
  exists s1, resource_loop fuel sl buf s = resource_loop (fuel - List.length body) sl (buf ++ body) s1
    /\ pending s1 = rest /\ ctx s1 = ctx s.
Proof.
  induction body as [|d body IH]; intros fuel s sl buf rest Hp Hd Hf.
  - exists s. rewrite app_nil_r, Nat.sub_0_r. auto.
  - destruct fuel as [|f]; [simpl in Hf; lia|]. simpl in Hd. apply andb_true_iff in Hd as [Hd1 Hd2].
    simpl in Hp. destruct (next_pending_byte s d _ Hp) as (s1 & E & P1 & N1 & C1).
    cbn [resource_loop]. unfold lbind at 1. rewrite E. apply negb_true_iff in Hd1. rewrite Hd1.
    destruct (IH f s1 sl (buf ++ [d]) rest P1 Hd2) as (s2 & E2 & P2 & C2); [simpl in Hf; lia|].
    rewrite <- app_assoc in E2. exists s2. simpl. split; [exact E2|]. split; congruence.
Qed.

(** X2: [read_resource] returns the bytes up to the next ['] and consumes
    that quote; with no closing quote it returns the rest of the input and
    registers the error [unterminated resource literal]. *)
Theorem read_resource_literal (s : LexState) (body : list Z) (rest : list IoItem) :
  forallb (fun c => negb (c =? 39)) body = true ->
  (pending s = map IoByte (body ++ [39]) ++ rest ->
   exists s', read_resource s = Some (body, s') /\ pending s' = rest /\ ctx s' = ctx s) /\
  (pending s = map IoByte body ->
   exists s', read_resource s = Some (body, s') /\ pending s' = [] /\
     ctx s' = ctx s ++ [mkDiag (loc s) SevError (MsgText "unterminated resource literal")]).
Proof.
  intros Hd. pose proof (pending_length s) as L. split; intros Hp; unfold read_resource.
  - rewrite map_app, <- app_assoc in Hp.
    rewrite Hp, !length_app, length_map in L. simpl in L.
    destruct (resource_loop_run body (lex_fuel s) s (loc s) [] _ Hp Hd) as (s1 & E & P1 & C1);
      [unfold lex_fuel; lia|].
    rewrite E. simpl in P1.
    destruct (next_pending_byte s1 39 rest P1) as (s2 & E2 & P2 & N2 & C2).
    replace (lex_fuel s - List.length body)%nat with (S (lex_fuel s - List.length body - 1))
      by (unfold lex_fuel; lia).
    cbn [resource_loop]. unfold lbind. rewrite E2. simpl. exists s2. split; [reflexivity|]. split; congruence.
  - rewrite Hp, length_map in L.
    assert (Hp' : pending s = map IoByte body ++ []) by (rewrite app_nil_r; exact Hp).
    destruct (resource_loop_run body (lex_fuel s) s (loc s) [] _ Hp' Hd) as (s1 & E & P1 & C1);
      [unfold lex_fuel; lia|].
    rewrite E. destruct (next_pending_end s1 P1) as (s2 & E2 & P2 & N2 & C2).
    replace (lex_fuel s - List.length body)%nat with (S (lex_fuel s - List.length body - 1))
      by (unfold lex_fuel; lia).
    cbn [resource_loop]. unfold lbind. rewrite E2. unfold register_error, lmodify. simpl.
    eexists; split; [reflexivity|]. split; [exact P2|]. simpl. congruence.
Qed.

(** An unterminated ['a.dmi]. *)
Lemma read_resource_literal_witness :
  forallb (fun c => negb (c =? 39)) (bytes "a.dmi") = true /\
  exists s', read_resource (lexer_new 0 (map IoByte (bytes "a.dmi"))) = Some (bytes "a.dmi", s') /\
    pending s' = [] /\
    ctx s' = [mkDiag (mkLocation 0 0 0) SevError (MsgText "unterminated resource literal")].
Proof.
  split; [reflexivity|].
  apply (proj2 (read_resource_literal (lexer_new 0 (map IoByte (bytes "a.dmi"))) (bytes "a.dmi") [] eq_refl)).
  reflexivity.
Defined.









Lemma block_done : forall fuel x p s, skip_block_loop (S fuel) 0 x p s = Some (tt, s).
Proof. reflexivity. Qed.





Lemma read_string_token e ic s t s' : read_string e ic s = Some (t, s') -> never_lexed t = false.
Proof.
  unfold read_string, lbind. destruct (string_loop _ _ _ _ _ _ s) as [[[buf [|]] s1]|]; [| |discriminate];
  destruct ic; intros H; injection H as <- _; reflexivity.
Qed.

Lemma read_number_token f s t s' : read_number f s = Some (t, s') -> never_lexed t = false.
Proof.
  unfold read_number, lbind. destruct (read_number_inner f s) as [[[[i r] buf] s1]|]; [|discriminate].
  destruct i.
  - destruct (from_str_radix_i32 buf r); [intros H; injection H as <- _; reflexivity|].
    destruct (if r =? 10 then _ else None) as [v|].
    + destruct (negb _); [unfold lex_error, register_error, lmodify; simpl|];
      intros H; injection H as <- _; reflexivity.
    + unfold lex_error, register_error, lmodify; simpl. intros H; injection H as <- _; reflexivity.
  - destruct (f32_from_str buf); [intros H; injection H as <- _; reflexivity|].
    unfold lex_error, register_error, lmodify; simpl. intros H; injection H as <- _; reflexivity.
Qed.

Lemma ident_loop_prefix : forall fuel ident s r s', ident_loop fuel ident s = Some (r, s') ->
  exists t, r = ident ++ t.
Proof.
  induction fuel as [|f IH]; intros ident s r s' H; [discriminate|].
  cbn [ident_loop] in H. unfold lbind in H. destruct (next s) as [[[ch|] s1]|]; [|  |discriminate].
  - destruct (is_ident ch || is_digit ch).
    + destruct (IH _ _ _ _ H) as (t & ->). exists ([ch] ++ t). rewrite app_assoc. reflexivity.
    + unfold put_back in H. destruct (nextb s1); [discriminate|]. injection H as <- _. exists []. rewrite app_nil_r; reflexivity.
  - unfold put_back in H. destruct (nextb s1); [discriminate|]. injection H as <- _. exists []. rewrite app_nil_r; reflexivity.
Qed.

Lemma keyword_token first rest k v :
  is_ident first = true ->
  find (fun e => list_Z_eqb (fst e) (first :: rest)) PUNCT_TABLE = Some (k, v) ->
  never_lexed (Punct v) = false.
Proof.
  intros Hi Hf. apply find_some in Hf as [Hin Heq]. simpl in Heq. apply list_Z_eqb_true in Heq. subst k.
  unfold PUNCT_TABLE in Hin.
  repeat (destruct Hin as [Hin|Hin];
    [unfold bytes in Hin; simpl in Hin; inversion Hin; subst; (reflexivity || (cbv in Hi; discriminate Hi))|]).
  destruct Hin.
Qed.

Lemma read_ident_prefix first s r s' : read_ident first s = Some (r, s') -> exists t, r = first :: t.
Proof. unfold read_ident. intros H. apply ident_loop_prefix in H as (t & ->). exists t. reflexivity. Qed.

Theorem iter_loop_never : forall fuel sk fi s lt s',
  iter_loop fuel sk fi s = Some (Some lt, s') -> never_lexed (token lt) = false.
Proof.
  induction fuel as [|f IH]; intros sk fi s lt s' H; [discriminate|].
  cbn [iter_loop] in H. unfold lbind, lget, lret, lmodify, put_back, lex_error, register_error in H.
  repeat match type of H with
  | context [match ?x with _ => _ end] =>
      match x with
      | iter_loop _ _ _ _ => fail 1
      | _ => destruct x eqn:?
      end
  | context [if ?x then _ else _] => destruct x eqn:?
  end.
  all: try discriminate H.
  all: first
    [ exact (IH _ _ _ _ _ H)
    | injection H as <- _; cbn [token];
      first
        [ reflexivity
        | match goal with E : read_string _ _ _ = Some (?t, _) |- never_lexed ?t = false =>
            exact (read_string_token _ _ _ _ _ E) end
        | match goal with E : read_number _ _ = Some (?t, _) |- never_lexed ?t = false =>
            exact (read_number_token _ _ _ _ E) end
        | match goal with
          | E : find _ PUNCT_TABLE = Some (_, ?v), R : read_ident ?first _ = Some (_, _),
            I : is_ident ?first = true |- never_lexed (Punct ?v) = false =>
              destruct (read_ident_prefix _ _ _ _ R) as (tl & ->);
              exact (keyword_token _ _ _ _ I E)
          end ] ].
Qed.

Lemma lex_all_never : forall fuel s ts s', lex_all fuel s = Some (ts, s') ->
  Forall (fun lt => never_lexed (token lt) = false) ts.
Proof.
  induction fuel as [|f IH]; intros s ts s' H; [discriminate|].
  cbn [lex_all] in H. unfold lbind, lret in H.
  destruct (iter_next s) as [[[t|] s1]|] eqn:E; [| |discriminate].
  - destruct (lex_all f s1) as [[rest s2]|] eqn:E2; [|discriminate].
    injection H as <- _. constructor; [exact (iter_loop_never _ _ _ _ _ _ E)|exact (IH _ _ _ E2)].
  - injection H as <- _. constructor.
Qed.

(** X5: the lexer never emits [Eof], the comment openers, the quote
    punctuations or the interpolation opener as tokens: they are consumed by the readers. *)
Theorem lex_never_emits (input : list Z) (ts : list Token) :
  lex_tokens input = Some ts -> Forall (fun t => never_lexed t = false) ts.
Proof.
  unfold lex_tokens. destruct (lex input) as [[lts st]|] eqn:E; [|discriminate].
  intros H; injection H as <-. apply Forall_map. exact (lex_all_never _ _ _ _ E).
Qed.

(** Comments, a resource and a string give none of them. *)
Lemma lex_never_emits_witness :
  lex_tokens (bytes "x /* c */ 'r' " ++ [34] ++ bytes "s" ++ [34] ++ bytes " // d") =
    Some [Ident (bytes "x") true; Resource (bytes "r"); TString (bytes "s"); Punct Newline; Punct Newline] /\
  Forall (fun t => never_lexed t = false)
    [Ident (bytes "x") true; Resource (bytes "r"); TString (bytes "s"); Punct Newline; Punct Newline].
Proof.
  assert (E : lex_tokens (bytes "x /* c */ 'r' " ++ [34] ++ bytes "s" ++ [34] ++ bytes " // d") =
    Some [Ident (bytes "x") true; Resource (bytes "r"); TString (bytes "s"); Punct Newline; Punct Newline])
    by (vm_compute; reflexivity).
  split; [exact E|]. exact (lex_never_emits _ _ E).
Defined.

(** X6: lexing the text a punctuation displays as ([Punctuation::value])
    gives back that punctuation, then the final newline, exactly for the
    punctuations the lexer can emit. *)
Theorem punct_display_roundtrip (p : Punctuation) :
  lex_tokens (punct_value p) = Some [Punct p; Punct Newline] <-> never_lexed (Punct p) = false.
Proof. destruct p; vm_compute; split; intros H; (reflexivity || discriminate H). Qed.

(** [<<=] is lexed back; [/*] is not. *)
Lemma punct_display_roundtrip_witness :
  lex_tokens (punct_value LShiftAssign) = Some [Punct LShiftAssign; Punct Newline] /\
  lex_tokens (punct_value BlockComment) <> Some [Punct BlockComment; Punct Newline].
Proof.
  split.
  - apply (proj2 (punct_display_roundtrip LShiftAssign)). reflexivity.
  - intros H. apply (proj1 (punct_display_roundtrip BlockComment)) in H. discriminate H.
Defined.

(* ========================================================================= *)
(** * Properties of the parser *)

Close Scope lex_scope.
Open Scope parse_scope.

Lemma pnext_tok_state (w : option Label) (s : PState) (t : Token) (ts : list Token) :
  stream s = t :: ts ->
  exists s1, pnext_tok w s = Some (inl t, s1) /\ stream s1 = ts /\ pnext s1 = None.
Proof.
  destruct s as [c tr inp e nx l ex pb pg]. unfold stream, pnext_tok; simpl.
  destruct nx as [t'|].
  - simpl. intros H; injection H as -> <-.
    destruct w; eexists; (split; [reflexivity|]); unfold stream; simpl; auto.
  - destruct inp as [|lt rest]; simpl.
    + destruct e; simpl; [discriminate|]. intros H; injection H as <- <-.
      destruct w; eexists; (split; [reflexivity|]); unfold stream; simpl; auto.
    + intros H; injection H as <- <-.
      destruct w; eexists; (split; [reflexivity|]); unfold stream; simpl; auto.
Qed.

Lemma pput_back_state (t : Token) (s : PState) :
  pnext s = None ->
  pput_back t s = Some (inl tt, set_pnext (Some t) s) /\ stream (set_pnext (Some t) s) = t :: stream s.
Proof.
  intros H. unfold pput_back. rewrite H. split; [reflexivity|].
  destruct s; unfold stream; simpl in *; subst; reflexivity.
Qed.

Lemma runs_runs0 {A} (m : PM A) ts a ts' : runs m ts a ts' -> runs0 m ts a ts'.
Proof. intros H s Hs _. exact (H s Hs). Qed.

Lemma runs_ret {A} (a : A) ts : runs (pret a) ts a ts.
Proof. intros s Hs. exists s; auto. Qed.

Lemma runs_bind {A B} (m : PM A) (k : A -> PM B) ts a ts1 b ts2 :
  runs m ts a ts1 -> runs (k a) ts1 b ts2 -> runs (pbind m k) ts b ts2.
Proof.
  intros H1 H2 s Hs. destruct (H1 s Hs) as (s1 & E1 & S1).
  destruct (H2 s1 S1) as (s2 & E2 & S2). exists s2. unfold pbind. rewrite E1. auto.
Qed.

Lemma runs0_bind {A B} (m : PM A) (k : A -> PM B) ts a ts1 b ts2 :
  runs0 m ts a ts1 -> runs (k a) ts1 b ts2 -> runs0 (pbind m k) ts b ts2.
Proof.
  intros H1 H2 s Hs Hn. destruct (H1 s Hs Hn) as (s1 & E1 & S1).
  destruct (H2 s1 S1) as (s2 & E2 & S2). exists s2. unfold pbind. rewrite E1. auto.
Qed.

Lemma runs_next {B} (w : option Label) (k : Token -> PM B) t ts b ts' :
  runs0 (k t) ts b ts' -> runs (pbind (pnext_tok w) k) (t :: ts) b ts'.
Proof.
  intros H s Hs. destruct (pnext_tok_state w s t ts Hs) as (s1 & E1 & S1 & N1).
  destruct (H s1 S1 N1) as (s2 & E2 & S2). exists s2. unfold pbind. rewrite E1. auto.
Qed.

Lemma runs0_put_back {B} (t : Token) (k : PM B) ts b ts' :
  runs k (t :: ts) b ts' -> runs0 (pbind (pput_back t) (fun _ => k)) ts b ts'.
Proof.
  intros H s Hs Hn. destruct (pput_back_state t s Hn) as [E1 S1]. rewrite Hs in S1.
  destruct (H _ S1) as (s2 & E2 & S2). exists s2. unfold pbind. rewrite E1. auto.
Qed.

Lemma runs0_try_another {A} (t : Token) ts : runs0 (@try_another A t) ts None (t :: ts).
Proof. unfold try_another. apply runs0_put_back, runs_ret. Qed.

Lemma punct_eqb_refl (p : Punctuation) : token_eqb (Punct p) (Punct p) = true.
Proof. simpl. apply internal_Punctuation_dec_lb. reflexivity. Qed.

Lemma runs_exact_hit (p : Punctuation) ts : runs (exact (Punct p)) (Punct p :: ts) (Some tt) ts.
Proof.
  unfold exact. apply runs_next. rewrite punct_eqb_refl. apply runs_runs0, runs_ret.
Qed.

Lemma runs_exact_miss (tok t : Token) ts :
  token_eqb t tok = false -> runs (exact tok) (t :: ts) None (t :: ts).
Proof.
  intros H. unfold exact. apply runs_next. rewrite H. apply runs0_try_another.
Qed.

Lemma stream_length (s : PState) : (List.length (stream s) <= List.length (pinput s) + 2)%nat.
Proof.
  unfold stream. rewrite !length_app, length_map.
  destruct (pnext s), (eof s); simpl; lia.
Qed.

Lemma runs_with_fuel {A} (k : nat -> PM A) ts a ts' :
  (forall n, (4 * (List.length ts + 1) <= n)%nat -> runs (k n) ts a ts') ->
  runs (with_fuel k) ts a ts'.
Proof.
  intros H s Hs. unfold with_fuel. apply (H (pfuel s)); [|exact Hs].
  pose proof (stream_length s). rewrite Hs in H0. unfold pfuel. lia.
Qed.

Lemma runs_require {A} (m : PM (option A)) ts a ts' :
  runs m ts (Some a) ts' -> runs (require m) ts a ts'.
Proof.
  intros H s Hs. destruct (H s Hs) as (s' & E & S'). exists s'.
  unfold require, pbind, ptry. rewrite E. auto.
Qed.

Lemma runs_leading_some {A B} (m : PM (option A)) (k : A -> PM (option B)) ts a ts1 b ts2 :
  runs m ts (Some a) ts1 -> runs (k a) ts1 b ts2 -> runs (leading m k) ts b ts2.
Proof. intros H1 H2. unfold leading. eapply runs_bind; [exact H1|exact H2]. Qed.

Lemma runs_leading_none {A B} (m : PM (option A)) (k : A -> PM (option B)) ts ts1 :
  runs m ts None ts1 -> runs (leading m k) ts None ts1.
Proof. intros H1. unfold leading. eapply runs_bind; [exact H1|apply runs_ret]. Qed.

Section Atoms.

Variable its : list Z -> option InputType.

Lemma runs_unary_atom a tm ts :
  atom_term a = Some tm -> runs (with_fuel (fun n => unary_loop n [])) (a :: ts) [] (a :: ts).
Proof.
  intros Ha. apply runs_with_fuel. intros [|n] Hn; [simpl in Hn; lia|].
  cbn [unary_loop]. apply runs_next.
  destruct a as [|p| | | | | | | |]; try discriminate Ha;
    apply runs0_put_back, runs_ret.
Qed.

Lemma runs_arguments_miss f t r :
  token_eqb t (Punct LParen) = false -> runs (arguments its (S f)) (t :: r) None (t :: r).
Proof.
  intros H. cbn [arguments]. apply runs_leading_none, runs_exact_miss, H.
Qed.

Lemma runs_term_atom f a tm t r :
  atom_term a = Some tm -> follow_stop t = true ->
  runs (term its (S (S f))) (a :: t :: r) (Some tm) (t :: r).
Proof.
  intros Ha Ht. unfold follow_stop in Ht. rewrite !andb_true_iff, !negb_true_iff in Ht.
  destruct Ht as [[[_ _] Hl] _].
  cbn [term]. apply runs_next. apply runs_runs0.
  destruct a as [|p|i w| | | | | | |]; try discriminate Ha; simpl in Ha;
    try (injection Ha as <-; apply runs_ret).
  destruct (list_Z_eqb i (bytes "new")), (list_Z_eqb i (bytes "list")),
    (list_Z_eqb i (bytes "call")), (list_Z_eqb i (bytes "input")),
    (list_Z_eqb i (bytes "locate")); try discriminate Ha; simpl in Ha.
  injection Ha as <-.
  eapply runs_bind; [apply runs_arguments_miss, Hl|]. apply runs_ret.
Qed.

Lemma follow_stop_miss t :
  follow_stop t = true ->
  token_eqb t (Punct PlusPlus) = false /\ token_eqb t (Punct MinusMinus) = false /\
  token_eqb t (Punct LParen) = false.
Proof.
  unfold follow_stop. rewrite !andb_true_iff, !negb_true_iff. tauto.
Qed.

Lemma runs_follow_stop f t r :
  follow_stop t = true -> runs (follow its (S f)) (t :: r) None (t :: r).
Proof.
  intros Ht. cbn [follow]. apply runs_next.
  destruct t as [|p| | | | | | | |]; try apply runs0_try_another.
  destruct p; try discriminate Ht; apply runs0_try_another.
Qed.

Lemma runs_follow_loop_stop f t r :
  follow_stop t = true ->
  runs (group_follow_loop its (S (S f)) [] []) (t :: r) ([], []) (t :: r).
Proof.
  intros Ht. destruct (follow_stop_miss t Ht) as (H1 & H2 & _).
  cbn [group_follow_loop].
  eapply runs_bind; [apply runs_exact_miss, H1|].
  eapply runs_bind; [apply runs_exact_miss, H2|].
  eapply runs_bind; [apply runs_follow_stop, Ht|]. apply runs_ret.
Qed.

Lemma runs_group_atom f a tm t r :
  atom_term a = Some tm -> follow_stop t = true ->
  runs (group its (S (S (S f)))) (a :: t :: r) (Some (EBase [] tm [])) (t :: r).
Proof.
  intros Ha Ht. cbn [group].
  eapply runs_bind; [eapply runs_unary_atom, Ha|].
  eapply runs_bind; [eapply runs_term_atom; eassumption|].
  eapply runs_bind; [apply runs_follow_loop_stop, Ht|].
  destruct tm; try apply runs_ret.
  destruct a as [|p|i w| | | | | | |]; simpl in Ha; try discriminate Ha.
  destruct (_ || _); discriminate Ha.
Qed.

Lemma runs_expression_loop_stop f e t r :
  find_op t = None -> runs (expression_loop its (S f) e) (t :: r) e (t :: r).
Proof.
  intros Ht. cbn [expression_loop]. apply runs_next. rewrite Ht.
  apply runs0_put_back, runs_ret.
Qed.

Lemma runs_expression_atom f a tm t r :
  atom_term a = Some tm -> follow_stop t = true -> find_op t = None ->
  token_eqb t (Punct QuestionMark) = false ->
  runs (expression its (S (S (S (S f))))) (a :: t :: r) (Some (EBase [] tm [])) (t :: r).
Proof.
  intros Ha Ht Hf Hq. cbn [expression].
  eapply runs_leading_some; [eapply runs_group_atom; eassumption|].
  eapply runs_bind; [apply runs_expression_loop_stop, Hf|].
  eapply runs_bind; [apply runs_exact_miss, Hq|]. apply runs_ret.
Qed.

End Atoms.

Section Separated.

Context {R : Type} (sep term : Punctuation) (d : R) (g : PM (option R)).

Hypothesis sep_term : token_eqb (Punct sep) (Punct term) = false.

Lemma separated_loop_slots more : forall o elems fuel rest,
  (2 * List.length more + 2 <= fuel)%nat -> Forall (slot_ok sep term g) (o :: more) ->
  runs (separated_loop fuel sep term (Some d) g false elems)
    (sep_toks sep o more ++ Punct term :: rest) (Some (elems ++ sep_values d o more)) rest.
Proof.
  induction more as [|o' more IH]; intros o elems fuel rest Hf Hok;
    destruct fuel as [|f]; try (simpl in Hf; lia);
    inversion Hok as [|? ? Ho Hmore]; subst; cbn [separated_loop].
  - destruct o as [[ts v]|]; simpl.
    + destruct Ho as [(t & ts' & -> & Ht1 & Ht2) Hg]. simpl.
      eapply runs_bind; [apply runs_exact_miss, Ht1|].
      eapply runs_bind; [apply runs_exact_miss, Ht2|]. simpl.
      eapply runs_bind; [apply runs_require; rewrite app_nil_r; apply (Hg term rest); auto|].
      destruct f as [|f]; [lia|]. cbn [separated_loop].
      eapply runs_bind; [apply runs_exact_hit|]. apply runs_ret.
    + eapply runs_bind; [apply runs_exact_hit|]. rewrite app_nil_r. apply runs_ret.
  - destruct o as [[ts v]|]; simpl.
    + destruct Ho as [(t & ts' & -> & Ht1 & Ht2) Hg]. simpl.
      eapply runs_bind; [apply runs_exact_miss, Ht1|].
      eapply runs_bind; [apply runs_exact_miss, Ht2|]. simpl.
      rewrite <- app_assoc. simpl.
      eapply runs_bind; [apply runs_require; rewrite app_comm_cons; apply (Hg sep); auto|].
      destruct f as [|f]; [simpl in Hf; lia|]. cbn [separated_loop].
      eapply runs_bind; [apply runs_exact_miss, sep_term|].
      eapply runs_bind; [apply runs_exact_hit|].
      replace (elems ++ v :: sep_values d o' more) with ((elems ++ [v]) ++ sep_values d o' more)
        by (rewrite <- app_assoc; reflexivity).
      apply IH; [simpl in Hf; lia|exact Hmore].
    + eapply runs_bind; [apply runs_exact_miss, sep_term|].
      eapply runs_bind; [apply runs_exact_hit|].
      replace (elems ++ d :: sep_values d o' more) with ((elems ++ [d]) ++ sep_values d o' more)
        by (rewrite <- app_assoc; reflexivity).
      apply IH; [simpl in Hf; lia|exact Hmore].
Qed.

End Separated.

Lemma sep_toks_length {R} sep (o : option (list Token * R)) more :
  (List.length more <= List.length (sep_toks sep o more))%nat.
Proof.
  revert o. induction more as [|o' more IH]; intros o; simpl; [lia|].
  rewrite length_app. simpl. specialize (IH o'). lia.
Qed.

Lemma parse_error_err {A} (s : PState) : exists e s', @parse_error A s = Some (inr e, s').
Proof.
  destruct s as [c tr inp e nx l ex pb pg].
  destruct nx, inp, e; eexists; eexists; reflexivity.
Qed.

Lemma atom_slot_ok its f o :
  slot_atom o = true -> slot_ok Comma RParen (expression its (S (S (S (S f))))) (atom_slot o).
Proof.
  destruct o as [a|]; simpl; [|trivial]. destruct (atom_term a) as [tm|] eqn:Ha; [|discriminate].
  intros _. simpl. split.
  - exists a, []. split; [reflexivity|].
    destruct a; simpl in Ha; try discriminate; auto.
  - intros p r' Hp. eapply runs_expression_atom; [exact Ha| | |];
      destruct Hp as [->| ->]; reflexivity.
Qed.

Lemma separated_empty_error {R} (sep term : Punctuation) (g : PM (option R)) fuel elems
    rest s :
  token_eqb (Punct sep) (Punct term) = false -> stream s = Punct sep :: rest ->
  exists e s', separated_loop (S fuel) sep term None g false elems s = Some (inr e, s').
Proof.
  intros Hst Hs. cbn [separated_loop].
  destruct (runs_exact_miss (Punct term) (Punct sep) rest Hst s Hs) as (s1 & E1 & S1).
  destruct (runs_exact_hit sep rest s1 S1) as (s2 & E2 & S2).
  unfold pbind at 1. rewrite E1. unfold pbind at 1. rewrite E2.
  apply parse_error_err.
Qed.

Lemma arguments_runs its f o more rest :
  Forall (slot_ok Comma RParen (expression its f)) (o :: more) ->
  runs (arguments its (S f)) (Punct LParen :: sep_toks Comma o more ++ Punct RParen :: rest)
    (Some (sep_values (expr_of_term TermNull) o more)) rest.
Proof.
  intros Hok. cbn [arguments].
  eapply runs_leading_some; [apply runs_exact_hit|].
  eapply runs_bind; [|apply runs_ret].
  apply runs_require. unfold separated. apply runs_with_fuel. intros n Hn.
  change (sep_values (expr_of_term TermNull) o more)
    with ([] ++ sep_values (expr_of_term TermNull) o more).
  apply separated_loop_slots; [reflexivity| |exact Hok].
  pose proof (sep_toks_length Comma o more). rewrite length_app in Hn. simpl in Hn. lia.
Qed.

Lemma pbind_fail {A B} (m : PM A) (k : A -> PM B) ts a ts1 :
  runs m ts a ts1 ->
  (forall s1, stream s1 = ts1 -> exists e s2, k a s1 = Some (inr e, s2)) ->
  forall s, stream s = ts -> exists e s2, pbind m k s = Some (inr e, s2).
Proof.
  intros H1 H2 s Hs. destruct (H1 s Hs) as (s1 & E1 & S1).
  destruct (H2 s1 S1) as (e & s2 & E2). exists e, s2. unfold pbind. rewrite E1. exact E2.
Qed.

Section SeparatedNone.

Context {R : Type} (sep term : Punctuation) (g : PM (option R)).

Hypothesis sep_term : token_eqb (Punct sep) (Punct term) = false.

Lemma separated_loop_none_error more : forall o elems fuel rest,
  (2 * List.length more + 2 <= fuel)%nat -> Forall (slot_ok sep term g) (o :: more) ->
  List.In None (removelast (o :: more)) ->
  forall s, stream s = sep_toks sep o more ++ Punct term :: rest ->
  exists e s', separated_loop fuel sep term None g false elems s = Some (inr e, s').
Proof.
  induction more as [|o' more IH]; intros o elems fuel rest Hf Hok Hin;
    [destruct Hin|].
  destruct fuel as [|f]; [simpl in Hf; lia|].
  inversion Hok as [|? ? Ho Hmore]; subst.
  destruct o as [[ts v]|].
  - destruct Ho as [(t & ts' & -> & Ht1 & Ht2) Hg]. cbn [separated_loop].
    simpl. rewrite <- app_assoc. simpl.
    refine (pbind_fail _ _ _ _ _ (runs_exact_miss _ _ _ Ht1) _). intros s1 S1.
    refine (pbind_fail _ _ _ _ _ (runs_exact_miss _ _ _ Ht2) _ s1 S1). intros s2 S2.
    cbv beta iota. simpl negb. cbv iota.
    rewrite app_comm_cons in S2.
    refine (pbind_fail _ _ _ _ _ (runs_require _ _ _ _ (Hg sep _ (or_introl eq_refl))) _ s2 S2).
    intros s3 S3.
    destruct f as [|f]; [simpl in Hf; lia|]. cbn [separated_loop].
    refine (pbind_fail _ _ _ _ _ (runs_exact_miss _ _ _ sep_term) _ s3 S3). intros s4 S4.
    refine (pbind_fail _ _ _ _ _ (runs_exact_hit _ _) _ s4 S4). intros s5 S5.
    eapply IH; [simpl in Hf; lia|exact Hmore| |exact S5].
    simpl in Hin. destruct Hin as [Hin|Hin]; [discriminate|exact Hin].
  - intros s Hs. simpl in Hs. eapply separated_empty_error; [exact sep_term|exact Hs].
Qed.

End SeparatedNone.

Lemma separated_none_error {R} (sep term : Punctuation) (g : PM (option R)) o more rest s :
  token_eqb (Punct sep) (Punct term) = false ->
  Forall (slot_ok sep term g) (o :: more) -> List.In None (removelast (o :: more)) ->
  stream s = sep_toks sep o more ++ Punct term :: rest ->
  exists e s', separated sep term None g s = Some (inr e, s').
Proof.
  intros Hst Hok Hin Hs. unfold separated, with_fuel.
  eapply separated_loop_none_error; [exact Hst| |exact Hok|exact Hin|exact Hs].
  pose proof (stream_length s). pose proof (sep_toks_length sep o more).
  rewrite Hs, length_app in H. simpl in H. unfold pfuel. lia.
Qed.

Lemma binary_ops_table i :
  List.In i BINARY_OPS ->
  find_op (Punct (op_token i)) = Some i /\ follow_stop (Punct (op_token i)) = true /\
  spec_strength (oper i) = rank i /\ spec_right_assoc (oper i) = right_binding (strength i).
Proof.
  intros H. simpl in H.
  repeat (destruct H as [<-|H]; [repeat split; reflexivity|]). destruct H.
Qed.

Lemma find_op_some t i : find_op t = Some i -> List.In i BINARY_OPS /\ t = Punct (op_token i).
Proof.
  unfold find_op. intros H. apply find_some in H as [Hin Hm]. split; [exact Hin|].
  destruct t; try discriminate Hm. simpl in Hm.
  apply internal_Punctuation_dec_bl in Hm. subst. reflexivity.
Qed.

Lemma spec_right_assoc_strength o : spec_right_assoc o = (spec_strength o =? 9).
Proof. destruct o as [b|b]; [destruct b|]; reflexivity. Qed.

Lemma flatten_build o l r : flatten_ops (build o l r) = fl_join (flatten_ops l) o (flatten_ops r).
Proof. destruct o; reflexivity. Qed.

Lemma top_build o l r : top_op (build o l r) = Some o.
Proof. destruct o; reflexivity. Qed.

Lemma prec_wf_build o l r :
  prec_wf (build o l r) = binds_under o false l && binds_under o true r && prec_wf l && prec_wf r.
Proof. destruct o; reflexivity. Qed.

Lemma fl_join_assoc x o y o' z : fl_join (fl_join x o y) o' z = fl_join x o (fl_join y o' z).
Proof. unfold fl_join. simpl. rewrite <- app_assoc. reflexivity. Qed.

Lemma fl_join_app x o y l : fl_join x o (fl_app y l) = fl_app (fl_join x o y) l.
Proof. unfold fl_join, fl_app. simpl. rewrite <- app_assoc. reflexivity. Qed.

Lemma fl_app_app x l1 l2 : fl_app (fl_app x l1) l2 = fl_app x (l1 ++ l2).
Proof. unfold fl_app. simpl. rewrite app_assoc. reflexivity. Qed.

Lemma fl_seq_app bits : forall ops rhs rhs' l,
  List.length bits = List.length ops -> flatten_ops rhs' = fl_app (flatten_ops rhs) l ->
  fl_seq bits ops rhs' = fl_app (fl_seq bits ops rhs) l.
Proof.
  induction bits as [|b bs IH]; intros [|o os] rhs rhs' l Hl H; simpl in *; try discriminate; auto.
  rewrite (IH os rhs rhs' l) by auto. apply fl_join_app.
Qed.

Lemma fl_seq_snoc bits : forall ops rhs o x,
  List.length bits = List.length ops ->
  fl_seq (bits ++ [rhs]) (ops ++ [o]) x =
    fl_app (fl_seq bits ops rhs) ((o, fst (flatten_ops x)) :: snd (flatten_ops x)).
Proof.
  induction bits as [|b bs IH]; intros [|o' os] rhs o x Hl; simpl in *; try discriminate.
  - reflexivity.
  - rewrite IH by lia. apply fl_join_app.
Qed.

Lemma binds_under_lt o side e : below (spec_strength o) e -> binds_under o side e = true.
Proof.
  unfold below, binds_under. destruct (top_op e) as [c|]; [|reflexivity].
  intros H. apply orb_true_iff. left. apply Z.ltb_lt, H.
Qed.

Lemma binds_under_le o side e :
  below_eq (spec_strength o) e -> spec_right_assoc o = side -> binds_under o side e = true.
Proof.
  unfold below_eq, binds_under. destruct (top_op e) as [c|]; [|reflexivity].
  intros H <-. apply orb_true_iff. destruct (Z.lt_ge_cases (spec_strength c) (spec_strength o)).
  - left. apply Z.ltb_lt. assumption.
  - right. rewrite Bool.eqb_reflx, andb_true_r. apply Z.eqb_eq. lia.
Qed.

Lemma below_below_eq p e : below p e -> below_eq p e.
Proof. unfold below, below_eq. destruct (top_op e); auto. lia. Qed.

Lemma build_right_ok p bits : forall ops rhs,
  List.length bits = List.length ops ->
  Forall (fun o => spec_strength o = p /\ spec_right_assoc o = true) ops ->
  Forall (fun b => prec_wf b = true /\ below p b) bits ->
  prec_wf rhs = true -> below p rhs ->
  prec_wf (build_right ops bits rhs) = true /\ below_eq p (build_right ops bits rhs) /\
  flatten_ops (build_right ops bits rhs) = fl_seq bits ops rhs /\
  (ops <> [] -> exists o, top_op (build_right ops bits rhs) = Some o /\ spec_strength o = p).
Proof.
  induction bits as [|b bs IH]; intros [|o os] rhs Hl Ho Hb Hw Hr; simpl in Hl; try discriminate.
  - repeat split; auto using below_below_eq. intros []; reflexivity.
  - inversion Ho as [|? ? [Hop Hoa] Hos]; subst. inversion Hb as [|? ? [Hbw Hbb] Hbs]; subst.
    destruct (IH os rhs ltac:(lia) Hos Hbs Hw Hr) as (Iw & Ib & If & _).
    change (build_right (o :: os) (b :: bs) rhs) with (build o b (build_right os bs rhs)).
    rewrite prec_wf_build, flatten_build, top_build, If. repeat split.
    + rewrite Iw, Hbw, binds_under_lt, binds_under_le; auto; rewrite ?Hop; auto.
    + unfold below_eq. rewrite top_build. lia.
    + intros _. exists o. auto.
Qed.

Lemma build_left_aux_ok p items : forall ops result,
  List.length ops = S (List.length items) ->
  Forall (fun o => spec_strength o = p /\ spec_right_assoc o = false) ops ->
  Forall (fun b => prec_wf b = true /\ below p b) items ->
  prec_wf result = true -> below_eq p result ->
  exists R o, build_left_aux result items ops = (R, [o]) /\ spec_strength o = p /\
    spec_right_assoc o = false /\ prec_wf R = true /\ below_eq p R /\
    forall rhs, fl_seq (result :: items) ops rhs = fl_join (flatten_ops R) o (flatten_ops rhs).
Proof.
  induction items as [|i is IH]; intros ops result Hl Ho Hi Hw Hb.
  - destruct ops as [|o [|]]; simpl in Hl; try discriminate.
    inversion Ho as [|? ? [Hop Hoa] _]; subst.
    exists result, o. repeat split; auto.
  - destruct ops as [|o os]; simpl in Hl; try discriminate.
    inversion Ho as [|? ? [Hop Hoa] Hos]; subst. inversion Hi as [|? ? [Hiw Hib] His]; subst.
    destruct os as [|o' os']; [simpl in Hl; lia|].
    destruct (IH (o' :: os') (build o result i) ltac:(simpl in *; lia) Hos His)
      as (R & o2 & E & H1 & H2 & H3 & H4 & H5).
    + rewrite prec_wf_build, Hw, Hiw, binds_under_le, binds_under_lt; auto; rewrite ?Hop; auto.
    + unfold below_eq. rewrite top_build. lia.
    + exists R, o2. simpl. rewrite E. repeat split; auto.
      intros rhs. rewrite <- H5. simpl. rewrite flatten_build. symmetry. apply fl_join_assoc.
Qed.

Lemma build_left_ok p bits ops rhs :
  bits <> [] -> List.length bits = List.length ops ->
  Forall (fun o => spec_strength o = p /\ spec_right_assoc o = false) ops ->
  Forall (fun b => prec_wf b = true /\ below p b) bits ->
  prec_wf rhs = true -> below p rhs ->
  exists T o, build_left bits ops rhs = Some T /\ prec_wf T = true /\ top_op T = Some o /\
    spec_strength o = p /\ flatten_ops T = fl_seq bits ops rhs.
Proof.
  intros Hne Hl Ho Hb Hw Hr. destruct bits as [|b items]; [congruence|].
  inversion Hb as [|? ? [Hbw Hbb] Hbs]; subst.
  destruct (build_left_aux_ok p items ops b ltac:(simpl in Hl; lia) Ho Hbs Hbw
              (below_below_eq p b Hbb)) as (R & o & E & H1 & H2 & H3 & H4 & H5).
  exists (build o R rhs), o. unfold build_left. rewrite E. repeat split.
  - rewrite prec_wf_build, H3, Hw, binds_under_le, binds_under_lt; auto; rewrite ?H1; auto.
  - apply top_build.
  - exact H1.
  - rewrite flatten_build. symmetry. apply H5.
Qed.

Lemma chain_toks_cons e c : chain_toks (e :: c) = Punct (op_token (fst e)) :: snd e :: chain_toks c.
Proof. reflexivity. Qed.

Lemma chain_flat_app c1 c2 : chain_flat (c1 ++ c2) = chain_flat c1 ++ chain_flat c2.
Proof. apply map_app. Qed.

Lemma fl_app_nil x : fl_app x [] = x.
Proof. destruct x. unfold fl_app. simpl. rewrite app_nil_r. reflexivity. Qed.

Lemma right_binding_rank s : right_binding s = (strength_rank s =? 9).
Proof. destruct s; reflexivity. Qed.

Lemma chain_head c t r :
  chain_ok c -> tail_ok t ->
  exists t' r', chain_toks c ++ t :: r = t' :: r' /\ follow_stop t' = true.
Proof.
  intros Hc [Ht _]. destruct c as [|[i a] c].
  - exists t, r. auto.
  - inversion Hc as [|? ? [Hi _] _]; subst. simpl in Hi.
    exists (Punct (op_token i)), (a :: chain_toks c ++ t :: r). split; [reflexivity|].
    apply (binary_ops_table i Hi).
Qed.

Lemma below_leaf p a : below p (atom_leaf a).
Proof. exact I. Qed.

Lemma next_below_leaf c a : next_below c (atom_leaf a).
Proof. destruct c; exact I. Qed.

Section Chains.

Variable its : list Z -> option InputType.

Lemma runs_group_operand f a c t r :
  atom_term a <> None -> chain_ok c -> tail_ok t ->
  runs (group its (S (S (S f)))) (a :: chain_toks c ++ t :: r) (Some (atom_leaf a))
    (chain_toks c ++ t :: r).
Proof.
  intros Ha Hc Ht. destruct (chain_head c t r Hc Ht) as (t' & r' & E & Hs). rewrite E.
  unfold atom_leaf. destruct (atom_term a) as [tm|] eqn:Ea; [|congruence].
  apply runs_group_atom; assumption.
Qed.

End Chains.

Lemma chain_ok_app c1 c2 : chain_ok (c1 ++ c2) -> chain_ok c1 /\ chain_ok c2.
Proof. unfold chain_ok. rewrite Forall_app. auto. Qed.

Lemma loop_step its f :
  part_ok its f -> loop_ok its f -> loop_ok its (S f).
Proof.
  intros IHp IHl prev bits ops rhs c t r Hprev Hc Ht Hinv Hnb Hf.
  destruct Hinv as (Hne & Hlen & Hops & Hbits & Hrw & Hrb).
  destruct c as [|[i1 a1] c'].
  - exists [], [], bits, ops, rhs.
    refine (conj (conj eq_refl (conj (Forall_nil _) I)) (conj _ (conj _ _))).
    + intros s Hs. destruct Ht as (_ & Hfo & _). revert s Hs. simpl.
      cbn [expression_part_loop]. apply runs_next. rewrite Hfo.
      apply runs0_put_back, runs_ret.
    + exact (conj Hne (conj Hlen (conj Hops (conj Hbits (conj Hrw Hrb))))).
    + rewrite fl_app_nil. reflexivity.
  - inversion Hc as [|? ? [Hi1 Ha1] Hc']; subst. simpl fst in *; simpl snd in *.
    destruct (binary_ops_table i1 Hi1) as (Hfind & _ & Hss & _).
    simpl in Hf.
    assert (Hcmp : forall X (k : comparison -> X),
      k (strength_cmp (strength i1) (strength prev)) = k (Z.compare (rank i1) (rank prev)))
      by reflexivity.
    destruct (Z.compare_spec (rank i1) (rank prev)) as [Heq|Hlt|Hgt].
    + (* equal strength: one more operand *)
      pose proof (runs_group_operand its (f - 3) a1 c' t r Ha1 Hc' Ht) as Hg.
      replace (S (S (S (f - 3)))) with f in Hg by lia.
      destruct (IHl prev (bits ++ [rhs]) (ops ++ [oper i1]) (atom_leaf a1) c' t r Hprev Hc' Ht)
        as (c1 & c2 & bits' & ops' & rhs' & Hsp & Hrun & Hinv' & Hfl).
      { refine (conj _ (conj _ (conj _ (conj _ (conj _ _))))).
        - destruct bits; simpl; congruence.
        - rewrite !length_app. simpl. lia.
        - apply Forall_app. split; auto. constructor; [|constructor]. lia.
        - apply Forall_app. split; auto.
        - reflexivity.
        - apply below_leaf. }
      { apply next_below_leaf. }
      { lia. }
      destruct Hsp as (-> & Hc1 & Hc2).
      exists ((i1, a1) :: c1), c2, bits', ops', rhs'.
      refine (conj (conj _ (conj _ Hc2)) (conj _ (conj Hinv' _))).
      * reflexivity.
      * constructor; simpl; [lia|auto].
      * rewrite chain_toks_cons. simpl. apply runs_next. rewrite Hfind.
        unfold strength_cmp. fold (rank i1). fold (rank prev). rewrite Heq, Z.compare_refl.
        apply runs_runs0. eapply runs_bind; [apply runs_require, Hg|]. exact Hrun.
      * rewrite Hfl, fl_seq_snoc by exact Hlen. rewrite fl_app_app. reflexivity.
    + (* tighter: a nested part *)
      destruct (IHp rhs i1 a1 c' t r Hi1 Hc' Ha1 Ht Hrw Hnb ltac:(lia))
        as (c1' & c2' & T & o & Hsp' & Hrun' & Tw & Tt & To & Tf).
      destruct Hsp' as (-> & Hc1' & Hc2').
      destruct (chain_ok_app c1' c2' Hc') as [_ Hc2ok].
      destruct (IHl prev bits ops T c2' t r Hprev Hc2ok Ht)
        as (c1 & c2 & bits' & ops' & rhs' & Hsp & Hrun & Hinv' & Hfl).
      { refine (conj Hne (conj Hlen (conj Hops (conj Hbits (conj Tw _))))).
        unfold below. rewrite Tt. lia. }
      { destruct c2' as [|x c2'']; [exact I|]. unfold next_below, below. rewrite Tt. lia. }
      { rewrite length_app in Hf. lia. }
      destruct Hsp as (-> & Hc1 & Hc2).
      exists ((i1, a1) :: c1' ++ c1), c2, bits', ops', rhs'.
      refine (conj (conj _ (conj _ Hc2)) (conj _ (conj Hinv' _))).
      * rewrite app_assoc. reflexivity.
      * constructor; [simpl; lia|]. apply Forall_app. split; auto.
        eapply Forall_impl; [|exact Hc1']. intros x Hx. cbv beta in Hx |- *. lia.
      * rewrite chain_toks_cons. simpl. apply runs_next. rewrite Hfind.
        unfold strength_cmp. fold (rank i1). fold (rank prev).
        rewrite (proj2 (Z.compare_lt_iff _ _) Hlt).
        apply runs_runs0. eapply runs_bind; [apply runs_require, Hrun'|]. exact Hrun.
      * rewrite Hfl, (fl_seq_app bits ops rhs T ((oper i1, atom_leaf a1) :: chain_flat c1'))
          by (auto; rewrite Tf; reflexivity).
        rewrite fl_app_app. simpl. rewrite chain_flat_app. reflexivity.
    + (* looser: the operator is put back *)
      exists [], ((i1, a1) :: c'), bits, ops, rhs.
      refine (conj (conj eq_refl (conj (Forall_nil _) _)) (conj _ (conj _ _))).
      * simpl. lia.
      * rewrite chain_toks_cons. simpl. apply runs_next. rewrite Hfind.
        unfold strength_cmp. fold (rank i1). fold (rank prev).
        rewrite (proj2 (Z.compare_gt_iff _ _) Hgt).
        apply runs0_put_back. apply runs_ret.
      * exact (conj Hne (conj Hlen (conj Hops (conj Hbits (conj Hrw Hrb))))).
      * rewrite fl_app_nil. reflexivity.
Qed.

Lemma part_step its f : loop_ok its f -> part_ok its (S f).
Proof.
  intros IHl lhs info a c t r Hi Hc Ha Ht Hlw Hlb Hf.
  destruct (binary_ops_table info Hi) as (_ & _ & Hss & Hra).
  pose proof (runs_group_operand its (f - 3) a c t r Ha Hc Ht) as Hg.
  replace (S (S (S (f - 3)))) with f in Hg by lia.
  destruct (IHl info [lhs] [oper info] (atom_leaf a) c t r Hi Hc Ht)
    as (c1 & c2 & bits' & ops' & rhs' & Hsp & Hrun & Hinv' & Hfl).
  { refine (conj _ (conj eq_refl (conj _ (conj _ (conj eq_refl (below_leaf _ _)))))).
    - congruence.
    - constructor; [exact Hss|constructor].
    - constructor; [auto|constructor]. }
  { apply next_below_leaf. }
  { lia. }
  destruct Hinv' as (Hne & Hlen & Hops & Hbits & Hrw & Hrb).
  assert (Hfl' : fl_seq bits' ops' rhs' = fl_join (flatten_ops lhs) (oper info) (atom_leaf a, chain_flat c1))
    by (rewrite Hfl; unfold fl_app, fl_join; simpl; rewrite <- app_assoc; reflexivity).
  destruct (right_binding (strength info)) eqn:Erb.
  - assert (Hops' : Forall (fun o => spec_strength o = rank info /\ spec_right_assoc o = true) ops').
    { eapply Forall_impl; [|exact Hops]. intros o Ho. split; [exact Ho|].
      rewrite spec_right_assoc_strength, Ho. rewrite right_binding_rank in Erb. exact Erb. }
    destruct (build_right_ok (rank info) bits' ops' rhs' Hlen Hops' Hbits Hrw Hrb)
      as (Tw & _ & Tf & Tt).
    destruct Tt as (o & Tt & To).
    { destruct ops'; [destruct bits'; simpl in Hlen; congruence|discriminate]. }
    exists c1, c2, (build_right ops' bits' rhs'), o.
    refine (conj Hsp (conj _ (conj Tw (conj Tt (conj To _))))).
    + cbn [expression_part]. eapply runs_bind; [apply runs_require, Hg|].
      eapply runs_bind; [exact Hrun|]. cbv beta iota. rewrite Erb. apply runs_ret.
    + rewrite Tf. exact Hfl'.
  - assert (Hops' : Forall (fun o => spec_strength o = rank info /\ spec_right_assoc o = false) ops').
    { eapply Forall_impl; [|exact Hops]. intros o Ho. split; [exact Ho|].
      rewrite spec_right_assoc_strength, Ho. rewrite right_binding_rank in Erb. exact Erb. }
    destruct (build_left_ok (rank info) bits' ops' rhs' Hne Hlen Hops' Hbits Hrw Hrb)
      as (T & o & E & Tw & Tt & To & Tf).
    exists c1, c2, T, o.
    refine (conj Hsp (conj _ (conj Tw (conj Tt (conj To _))))).
    + cbn [expression_part]. eapply runs_bind; [apply runs_require, Hg|].
      eapply runs_bind; [exact Hrun|]. cbv beta iota. rewrite Erb, E. apply runs_ret.
    + rewrite Tf. exact Hfl'.
Qed.

Lemma part_loop_ok its fuel : part_ok its fuel /\ loop_ok its fuel.
Proof.
  induction fuel as [|f [IHp IHl]].
  - split; [intros ? ? ? ? ? ? ? ? ? ? ? ? Hf|intros ? ? ? ? ? ? ? ? ? ? ? Hf]; lia.
  - split; [apply part_step, IHl|apply loop_step; assumption].
Qed.

Lemma expression_loop_ok its fuel : forall expr c t r,
  chain_ok c -> tail_ok t -> prec_wf expr = true -> next_below c expr ->
  (2 * List.length c + 4 <= fuel)%nat ->
  exists T, runs (expression_loop its fuel expr) (chain_toks c ++ t :: r) T (t :: r) /\
    prec_wf T = true /\ flatten_ops T = fl_app (flatten_ops expr) (chain_flat c).
Proof.
  induction fuel as [|f IH]; intros expr c t r Hc Ht Hw Hnb Hf; [lia|].
  destruct c as [|[i1 a1] c'].
  - exists expr. refine (conj _ (conj Hw _)); [|rewrite fl_app_nil; reflexivity].
    destruct Ht as (_ & Hfo & _). simpl. cbn [expression_loop]. apply runs_next. rewrite Hfo.
    apply runs0_put_back, runs_ret.
  - inversion Hc as [|? ? [Hi1 Ha1] Hc']; subst. simpl fst in *; simpl snd in *. simpl in Hf.
    destruct (binary_ops_table i1 Hi1) as (Hfind & _ & _ & _).
    destruct (proj1 (part_loop_ok its f) expr i1 a1 c' t r Hi1 Hc' Ha1 Ht Hw Hnb ltac:(lia))
      as (c1 & c2 & T1 & o & (-> & Hc1 & Hc2) & Hrun1 & T1w & T1t & T1o & T1f).
    destruct (chain_ok_app c1 c2 Hc') as [_ Hc2ok].
    destruct (IH T1 c2 t r Hc2ok Ht T1w) as (T & Hrun & Tw & Tf).
    { destruct c2 as [|x c2']; [exact I|]. unfold next_below, below. rewrite T1t. lia. }
    { rewrite length_app in Hf. lia. }
    exists T. refine (conj _ (conj Tw _)).
    + rewrite chain_toks_cons. simpl. cbn [expression_loop]. apply runs_next. rewrite Hfind.
      apply runs_runs0. eapply runs_bind; [apply runs_require, Hrun1|]. exact Hrun.
    + rewrite Tf, T1f. unfold fl_app, fl_join. simpl. rewrite chain_flat_app, <- app_assoc.
      reflexivity.
Qed.

Lemma expression_ok its fuel a0 c t r :
  atom_term a0 <> None -> chain_ok c -> tail_ok t -> (2 * List.length c + 5 <= fuel)%nat ->
  exists T, runs (expression its fuel) (a0 :: chain_toks c ++ t :: r) (Some T) (t :: r) /\
    prec_wf T = true /\ flatten_ops T = (atom_leaf a0, chain_flat c).
Proof.
  intros Ha Hc Ht Hf. destruct fuel as [|f]; [lia|].
  pose proof (runs_group_operand its (f - 3) a0 c t r Ha Hc Ht) as Hg.
  replace (S (S (S (f - 3)))) with f in Hg by lia.
  destruct (expression_loop_ok its f (atom_leaf a0) c t r Hc Ht eq_refl (next_below_leaf c a0)
              ltac:(lia)) as (T & Hrun & Tw & Tf).
  exists T. refine (conj _ (conj Tw _)); [|rewrite Tf; reflexivity].
  cbn [expression]. eapply runs_leading_some; [exact Hg|].
  eapply runs_bind; [exact Hrun|].
  destruct Ht as (_ & _ & Hq).
  eapply runs_bind; [apply runs_exact_miss, Hq|]. apply runs_ret.
Qed.

Lemma binds_under_below_eq o side e : binds_under o side e = true -> below_eq (spec_strength o) e.
Proof.
  unfold binds_under, below_eq. destruct (top_op e) as [c|]; [|auto].
  rewrite orb_true_iff, andb_true_iff, Z.ltb_lt, Z.eqb_eq. lia.
Qed.

Lemma binds_under_strict o e :
  spec_right_assoc o = false -> binds_under o true e = true -> below (spec_strength o) e.
Proof.
  unfold binds_under, below. intros Ha. rewrite Ha. destruct (top_op e) as [c|]; [|auto].
  rewrite orb_true_iff, andb_true_iff, Z.ltb_lt. simpl. intuition discriminate.
Qed.

Lemma binds_under_strict_left o e :
  spec_right_assoc o = true -> binds_under o false e = true -> below (spec_strength o) e.
Proof.
  unfold binds_under, below. intros Ha. rewrite Ha. destruct (top_op e) as [c|]; [|auto].
  rewrite orb_true_iff, andb_true_iff, Z.ltb_lt. simpl. intuition discriminate.
Qed.

(** Views of an operator node as [build]. *)
Lemma expr_cases e :
  (top_op e = None /\ flatten_ops e = (e, []) /\ prec_wf e = true) \/
  exists o l r, e = build o l r.
Proof.
  destruct e as [u tm fo|b l r|b l r|c x y].
  - left. auto.
  - right. exists (OBinaryOp b), l, r. reflexivity.
  - right. exists (OAssignOp b), l, r. reflexivity.
  - left. auto.
Qed.

Lemma wf_ops_bound_node o l r p
  (IHl : forall p, prec_wf l = true -> below_eq p l ->
         Forall (fun e => spec_strength (fst e) <= p) (snd (flatten_ops l)))
  (IHr : forall p, prec_wf r = true -> below_eq p r ->
         Forall (fun e => spec_strength (fst e) <= p) (snd (flatten_ops r))) :
  prec_wf (build o l r) = true -> below_eq p (build o l r) ->
  Forall (fun e => spec_strength (fst e) <= p) (snd (flatten_ops (build o l r))).
Proof.
  rewrite prec_wf_build, !andb_true_iff. intros [[[Hl Hr] Hwl] Hwr] Hb.
  unfold below_eq in Hb. rewrite top_build in Hb. rewrite flatten_build. unfold fl_join. cbn [snd].
  apply Forall_app. split; [|constructor; [cbn [fst]; lia|]].
  - eapply Forall_impl; [|apply IHl; [exact Hwl|exact (binds_under_below_eq _ _ _ Hl)]].
    intros e He. cbv beta in *. lia.
  - eapply Forall_impl; [|apply IHr; [exact Hwr|exact (binds_under_below_eq _ _ _ Hr)]].
    intros e He. cbv beta in *. lia.
Qed.

Lemma wf_ops_bound T : forall p,
  prec_wf T = true -> below_eq p T -> Forall (fun e => spec_strength (fst e) <= p) (snd (flatten_ops T)).
Proof.
  induction T as [u tm fo|b l IHl r IHr|b l IHl r IHr|c IHc x IHx y IHy]
    using Expression_ind; intros p; try (intros; constructor; fail).
  - exact (wf_ops_bound_node (OBinaryOp b) l r p IHl IHr).
  - exact (wf_ops_bound_node (OAssignOp b) l r p IHl IHr).
Qed.

Lemma wf_ops_strict T p :
  prec_wf T = true -> below p T -> Forall (fun e => spec_strength (fst e) < p) (snd (flatten_ops T)).
Proof.
  intros Hw Hb. destruct (expr_cases T) as [(_ & -> & _)|(o & l & r & ->)]; [constructor|].
  unfold below in Hb. rewrite top_build in Hb.
  eapply Forall_impl; [|apply (wf_ops_bound _ (spec_strength o) Hw)].
  - intros e He. cbv beta in *. lia.
  - unfold below_eq. rewrite top_build. lia.
Qed.

Lemma split_last {A} (P : A -> Prop) (A1 : list A) : forall x1 B1 A2 x2 B2,
  A1 ++ x1 :: B1 = A2 ++ x2 :: B2 -> P x1 -> P x2 ->
  Forall (fun e => ~ P e) B1 -> Forall (fun e => ~ P e) B2 -> A1 = A2 /\ x1 = x2 /\ B1 = B2.
Proof.
  induction A1 as [|a A1 IH]; intros x1 B1 [|b A2] x2 B2 E H1 H2 F1 F2; simpl in E;
    injection E as E1 E2; subst.
  - auto.
  - rewrite Forall_forall in F1. exfalso. apply (F1 x2); auto. apply in_or_app. right. left. auto.
  - rewrite Forall_forall in F2. exfalso. apply (F2 x1); auto. apply in_or_app. right. left. auto.
  - destruct (IH _ _ _ _ _ E2 H1 H2 F1 F2) as (-> & -> & ->). auto.
Qed.

Lemma split_first {A} (P : A -> Prop) (A1 : list A) : forall x1 B1 A2 x2 B2,
  A1 ++ x1 :: B1 = A2 ++ x2 :: B2 -> P x1 -> P x2 ->
  Forall (fun e => ~ P e) A1 -> Forall (fun e => ~ P e) A2 -> A1 = A2 /\ x1 = x2 /\ B1 = B2.
Proof.
  induction A1 as [|a A1 IH]; intros x1 B1 [|b A2] x2 B2 E H1 H2 F1 F2; simpl in E;
    injection E as E1 E2; subst.
  - auto.
  - inversion F2; contradiction.
  - inversion F1; contradiction.
  - inversion F1; inversion F2; subst.
    destruct (IH _ _ _ _ _ E2 H1 H2 ltac:(assumption) ltac:(assumption)) as (-> & -> & ->). auto.
Qed.

Lemma flatten_build_split o l r :
  flatten_ops (build o l r) =
    (fst (flatten_ops l), snd (flatten_ops l) ++ (o, fst (flatten_ops r)) :: snd (flatten_ops r)).
Proof. rewrite flatten_build. reflexivity. Qed.

Lemma pair_eq {A B} (x y : A * B) : fst x = fst y -> snd x = snd y -> x = y.
Proof. destruct x, y; simpl; intros -> ->; reflexivity. Qed.

Lemma unique_node o1 l1 r1 o2 l2 r2
  (IHl : forall T2, prec_wf l1 = true -> prec_wf T2 = true -> flatten_ops l1 = flatten_ops T2 -> l1 = T2)
  (IHr : forall T2, prec_wf r1 = true -> prec_wf T2 = true -> flatten_ops r1 = flatten_ops T2 -> r1 = T2) :
  prec_wf (build o1 l1 r1) = true -> prec_wf (build o2 l2 r2) = true ->
  flatten_ops (build o1 l1 r1) = flatten_ops (build o2 l2 r2) -> build o1 l1 r1 = build o2 l2 r2.
Proof.
  intros W1 W2 E.
  pose proof (wf_ops_bound _ (spec_strength o1) W1) as B1.
  pose proof (wf_ops_bound _ (spec_strength o2) W2) as B2.
  unfold below_eq in B1, B2. rewrite top_build in B1, B2.
  specialize (B1 (Z.le_refl _)). specialize (B2 (Z.le_refl _)).
  rewrite E in B1. rewrite <- E in B2.
  rewrite (flatten_build_split o1 l1 r1), (flatten_build_split o2 l2 r2) in E.
  rewrite (flatten_build_split o2 l2 r2) in B1. rewrite (flatten_build_split o1 l1 r1) in B2.
  cbn [snd] in B1, B2.
  rewrite Forall_app in B1, B2. destruct B1 as [_ B1]. destruct B2 as [_ B2].
  inversion B1 as [|? ? Hs1 _]. inversion B2 as [|? ? Hs2 _]. cbn [fst] in Hs1, Hs2.
  assert (Hs : spec_strength o2 = spec_strength o1) by lia. clear Hs1 Hs2 B1 B2.
  injection E as Ex EL.
  rewrite prec_wf_build, !andb_true_iff in W1, W2.
  destruct W1 as [[[Hl1 Hr1] Hwl1] Hwr1]. destruct W2 as [[[Hl2 Hr2] Hwl2] Hwr2].
  set (P := fun e : Op * Expression => spec_strength (fst e) = spec_strength o1).
  assert (Hsplit : snd (flatten_ops l1) = snd (flatten_ops l2) /\
                   (o1, fst (flatten_ops r1)) = (o2, fst (flatten_ops r2)) /\
                   snd (flatten_ops r1) = snd (flatten_ops r2)).
  { destruct (spec_right_assoc o1) eqn:Ea.
    - assert (Ea2 : spec_right_assoc o2 = true)
        by (rewrite spec_right_assoc_strength in *; rewrite Hs; exact Ea).
      apply (split_first P _ _ _ _ _ _ EL); [reflexivity|exact Hs| |].
      + eapply Forall_impl; [|apply (wf_ops_strict _ _ Hwl1 (binds_under_strict_left _ _ Ea Hl1))].
        intros e He. unfold P. cbv beta in *. lia.
      + eapply Forall_impl; [|apply (wf_ops_strict _ _ Hwl2 (binds_under_strict_left _ _ Ea2 Hl2))].
        intros e He. unfold P. cbv beta in *. lia.
    - assert (Ea2 : spec_right_assoc o2 = false)
        by (rewrite spec_right_assoc_strength in *; rewrite Hs; exact Ea).
      apply (split_last P _ _ _ _ _ _ EL); [reflexivity|exact Hs| |].
      + eapply Forall_impl; [|apply (wf_ops_strict _ _ Hwr1 (binds_under_strict _ _ Ea Hr1))].
        intros e He. unfold P. cbv beta in *. lia.
      + eapply Forall_impl; [|apply (wf_ops_strict _ _ Hwr2 (binds_under_strict _ _ Ea2 Hr2))].
        intros e He. unfold P. cbv beta in *. lia. }
  destruct Hsplit as (HA & Ho & HB). injection Ho as <- Hy.
  rewrite (IHl l2 Hwl1 Hwl2 (pair_eq _ _ Ex HA)), (IHr r2 Hwr1 Hwr2 (pair_eq _ _ Hy HB)).
  reflexivity.
Qed.

Lemma prec_wf_unique T1 : forall T2,
  prec_wf T1 = true -> prec_wf T2 = true -> flatten_ops T1 = flatten_ops T2 -> T1 = T2.
Proof.
  assert (Hleaf : forall T o l r, top_op T = None -> flatten_ops T = (T, []) ->
            flatten_ops T <> flatten_ops (build o l r)).
  { intros T o l r _ E1 E2. rewrite E1, flatten_build_split in E2. injection E2 as _ E2.
    destruct (snd (flatten_ops l)); discriminate. }
  induction T1 as [u tm fo|b l IHl r IHr|b l IHl r IHr|c IHc x IHx y IHy]
    using Expression_ind; intros T2 W1 W2 E;
    destruct (expr_cases T2) as [(N2 & F2 & _)|(o2 & l2 & r2 & ->)].
  - rewrite F2 in E. injection E as E. exact E.
  - exfalso. exact (Hleaf (EBase u tm fo) o2 l2 r2 eq_refl eq_refl E).
  - exfalso. exact (Hleaf T2 (OBinaryOp b) l r N2 F2 (eq_sym E)).
  - exact (unique_node (OBinaryOp b) l r o2 l2 r2 IHl IHr W1 W2 E).
  - exfalso. exact (Hleaf T2 (OAssignOp b) l r N2 F2 (eq_sym E)).
  - exact (unique_node (OAssignOp b) l r o2 l2 r2 IHl IHr W1 W2 E).
  - rewrite F2 in E. injection E as E. exact E.
  - exfalso. exact (Hleaf (ETernaryOp c x y) o2 l2 r2 eq_refl eq_refl E).
Qed.

(** C1: for an operand followed by a chain of binary and assignment
    operators with atom operands, [expression] returns a tree whose operands
    and operators, read left to right, are exactly those of the input, in
    which every operator binds its operands according to the strength table
    of the specification (tighter groups first, equal strengths folding to the
    left except assignments, which fold to the right), and it is the only tree
    with these two properties. *)
Theorem expression_precedence its fuel a0 (c : list (OpInfo * Token)) t r s :
  atom_term a0 <> None -> chain_ok c -> tail_ok t -> (2 * List.length c + 5 <= fuel)%nat ->
  stream s = a0 :: chain_toks c ++ t :: r ->
  exists T s', expression its fuel s = Some (inl (Some T), s') /\ stream s' = t :: r /\
    flatten_ops T = (atom_leaf a0, chain_flat c) /\ prec_wf T = true /\
    forall T', prec_wf T' = true -> flatten_ops T' = (atom_leaf a0, chain_flat c) -> T' = T.
Proof.
  intros Ha Hc Ht Hf Hs.
  destruct (expression_ok its fuel a0 c t r Ha Hc Ht Hf) as (T & Hrun & Tw & Tf).
  destruct (Hrun s Hs) as (s' & E & S').
  exists T, s'. refine (conj E (conj S' (conj Tf (conj Tw _)))).
  intros T' W' F'. apply prec_wf_unique; [exact W'|exact Tw|congruence].
Qed.

Lemma expression_precedence_witness :
  (exists T s', expression (fun _ => None) 11%nat (parser_new [] (lexed "a = 1 + 2 * 3")) =
      Some (inl (Some T), s') /\ stream s' = [Punct Newline; Eof] /\
    flatten_ops T = (atom_leaf (Ident (bytes "a") true),
      chain_flat [(mkOpInfo Assign_ Assign (OAssignOp AAssign), Int 1);
                  (mkOpInfo Add_ Add (OBinaryOp BAdd), Int 2);
                  (mkOpInfo Mul_ Mul (OBinaryOp BMul), Int 3)]) /\ prec_wf T = true /\
    forall T', prec_wf T' = true -> flatten_ops T' = flatten_ops T -> T' = T) /\
  expression_of_source (fun _ => None) (bytes "a = 1 + 2 * 3") =
    Some (inl (Some (EAssignOp AAssign (leaf_ident "a")
      (EBinaryOp BAdd (expr_of_term (TermInt 1))
         (EBinaryOp BMul (expr_of_term (TermInt 2)) (expr_of_term (TermInt 3))))))) /\
  expression_of_source (fun _ => None) (bytes "a = b = c") =
    Some (inl (Some (EAssignOp AAssign (leaf_ident "a")
      (EAssignOp AAssign (leaf_ident "b") (leaf_ident "c"))))).
Proof.
  split; [|split; vm_compute; reflexivity].
  destruct (expression_precedence (fun _ => None) 11%nat (Ident (bytes "a") true)
     [(mkOpInfo Assign_ Assign (OAssignOp AAssign), Int 1);
      (mkOpInfo Add_ Add (OBinaryOp BAdd), Int 2);
      (mkOpInfo Mul_ Mul (OBinaryOp BMul), Int 3)] (Punct Newline) [Eof]
     (parser_new [] (lexed "a = 1 + 2 * 3"))) as (T & s' & E & S' & F & W & U).
  - discriminate.
  - unfold chain_ok.
    repeat (apply Forall_cons; [split; [simpl; repeat (first [left; reflexivity | right])
                                       |discriminate]|]).
    apply Forall_nil.
  - split; [reflexivity|split; reflexivity].
  - simpl. lia.
  - vm_compute. reflexivity.
  - exists T, s'. refine (conj E (conj S' (conj F (conj W _)))).
    intros T' W' F'. apply U; [exact W'|rewrite F'; exact F].
Defined.

Lemma annotate_keeps (s : PState) :
  exists s', annotate s = Some (inl tt, s') /\ tree s' = tree s /\ pctx s' = pctx s /\
    procs_good s' = procs_good s /\ procs_bad s' = procs_bad s.
Proof.
  destruct s as [c tr inp e nx l ex pb pg].
  destruct nx, inp, e; eexists; (split; [reflexivity|]); repeat split.
Qed.

(** C10: in every argument list, whatever its arguments are, an empty slot
    between commas or before the first comma stands for a [null] argument,
    and an empty slot before the closing parenthesis is dropped (so [f(a,)]
    has one argument); a separated list that allows no empty slot ends in an
    error on every list with an empty slot before its last. *)
Theorem arguments_empty_slots :
  (forall its f (o : option (list Token * Expression)) more rest s,
     Forall (slot_ok Comma RParen (expression its f)) (o :: more) ->
     stream s = Punct LParen :: sep_toks Comma o more ++ Punct RParen :: rest ->
     exists s', arguments its (S f) s =
                  Some (inl (Some (sep_values (expr_of_term TermNull) o more)), s') /\
                stream s' = rest) /\
  (forall R (sep term : Punctuation) (g : PM (option R)) o more rest s,
     token_eqb (Punct sep) (Punct term) = false ->
     Forall (slot_ok sep term g) (o :: more) -> List.In None (removelast (o :: more)) ->
     stream s = sep_toks sep o more ++ Punct term :: rest ->
     exists e s', separated sep term None g s = Some (inr e, s')).
Proof.
  split.
  - intros its f o more rest s Hok Hs. exact (arguments_runs its f o more rest Hok s Hs).
  - intros R sep term g o more rest s. apply separated_none_error.
Qed.

Lemma x_plus_1_slot its f : (7 <= f)%nat ->
  slot_ok Comma RParen (expression its f) (Some ([ident_tok "x"; Punct Add; Int 1], x_plus_1)).
Proof.
  intros Hf. split.
  - exists (ident_tok "x"), [Punct Add; Int 1]. split; [reflexivity|split; reflexivity].
  - intros p r' Hp.
    assert (Ht : tail_ok (Punct p)) by (destruct Hp as [-> | ->]; repeat split).
    destruct (expression_ok its f (ident_tok "x") [(mkOpInfo Add_ Add (OBinaryOp BAdd), Int 1)]
                (Punct p) r' ltac:(discriminate) ltac:(repeat constructor; simpl; auto 20; discriminate)
                Ht ltac:(simpl; lia)) as (T & Hr & W & F).
    replace x_plus_1 with T; [exact Hr|].
    apply prec_wf_unique; [exact W|reflexivity|rewrite F; reflexivity].
Qed.

(** [(,x+1)] gives [null] and [x + 1]; [a,,b)] is an error where empty
    slots are not allowed; [f(a,,g(b))] has three arguments. *)
Lemma arguments_empty_slots_witness :
  (exists s', arguments (fun _ => None) 8%nat
     (parser_new [] (toks [Punct LParen; Punct Comma; ident_tok "x"; Punct Add; Int 1; Punct RParen]))
     = Some (inl (Some [expr_of_term TermNull; x_plus_1]), s') /\ stream s' = [Eof]) /\
  (exists e s', separated Comma RParen None (expression (fun _ => None) 4%nat)
     (parser_new [] (toks [ident_tok "a"; Punct Comma; Punct Comma; ident_tok "b"; Punct RParen]))
     = Some (inr e, s')) /\
  expression_of_source (fun _ => None) (bytes "f(,x+1)") =
    Some (inl (Some (EBase [] (TermCall (bytes "f") [expr_of_term TermNull; x_plus_1]) []))) /\
  expression_of_source (fun _ => None) (bytes "f(a,,g(b))") =
    Some (inl (Some (EBase [] (TermCall (bytes "f")
      [leaf_ident "a"; expr_of_term TermNull;
       EBase [] (TermCall (bytes "g") [leaf_ident "b"]) []]) []))) /\
  expression_of_source (fun _ => None) (bytes "f(a,)") =
    Some (inl (Some (EBase [] (TermCall (bytes "f") [leaf_ident "a"]) []))).
Proof.
  split; [|split; [|repeat split; vm_compute; reflexivity]].
  - apply ((proj1 arguments_empty_slots) (fun _ => None) 7%nat None
             [Some ([ident_tok "x"; Punct Add; Int 1], x_plus_1)] [Eof]).
    + constructor; [exact I|]. constructor; [apply x_plus_1_slot; lia|constructor].
    + reflexivity.
  - apply ((proj2 arguments_empty_slots) Expression Comma RParen (expression (fun _ => None) 4%nat)
             (Some ([ident_tok "a"], leaf_ident "a")) [None; Some ([ident_tok "b"], leaf_ident "b")]
             [Eof]).
    + reflexivity.
    + constructor; [exact (atom_slot_ok (fun _ => None) 0 (Some (ident_tok "a")) eq_refl)|].
      constructor; [exact I|]. constructor; [|constructor].
      exact (atom_slot_ok (fun _ => None) 0 (Some (ident_tok "b")) eq_refl).
    + simpl. auto.
    + reflexivity.
Defined.

(** The parser's computations other than [add_tree] and [proc_body_result]
    leave the object tree and the proc-body counters alone. *)
Lemma keeps_ret {A} (a : A) : keeps (pret a).
Proof. intros s r s' H. injection H as <- <-. auto. Qed.
Lemma keeps_perr {A} (e : Diag) : keeps (@perr A e).
Proof. intros s r s' H. injection H as <- <-. auto. Qed.
Lemma keeps_panic {A} : keeps (@ppanic A).
Proof. intros s r s' H. discriminate H. Qed.
Lemma keeps_pget : keeps pget.
Proof. intros s r s' H. injection H as <- <-. auto. Qed.
Lemma keeps_bind {A B} (m : PM A) (k : A -> PM B) :
  keeps m -> (forall a, keeps (k a)) -> keeps (pbind m k).
Proof.
  intros Hm Hk s r s' H. unfold pbind in H.
  destruct (m s) as [[[a|e] s1]|] eqn:E; try discriminate.
  - destruct (Hm _ _ _ E) as (T1 & B1 & G1). destruct (Hk a _ _ _ H) as (T2 & B2 & G2).
    rewrite T2, B2, G2. auto.
  - injection H as <- <-. exact (Hm _ _ _ E).
Qed.
Lemma keeps_ptry {A} (m : PM A) : keeps m -> keeps (ptry m).
Proof.
  intros Hm s r s' H. unfold ptry in H.
  destruct (m s) as [[r1 s1]|] eqn:E; try discriminate.
  injection H as <- <-. exact (Hm _ _ _ E).
Qed.
Lemma keeps_pnext_tok w : keeps (pnext_tok w).
Proof.
  intros s r s' H. unfold pnext_tok in H.
  destruct s as [c tr inp e nx l ex pb pg]; simpl in H.
  destruct nx; [|destruct inp; [destruct e|]]; simpl in H; destruct w;
    injection H as <- <-; simpl; auto.
Qed.
Lemma keeps_pput_back t : keeps (pput_back t).
Proof.
  intros s r s' H. unfold pput_back in H. destruct (pnext s); try discriminate.
  injection H as <- <-. destruct s; simpl; auto.
Qed.
Lemma keeps_perror m : keeps (perror m).
Proof. intros s r s' H. injection H as <- <-. auto. Qed.
Lemma keeps_pregister d : keeps (pregister d).
Proof. intros s r s' H. injection H as <- <-. destruct s; simpl; auto. Qed.
Lemma keeps_with_fuel {A} (k : nat -> PM A) : (forall n, keeps (k n)) -> keeps (with_fuel k).
Proof. intros Hk s r s' H. exact (Hk _ _ _ _ H). Qed.

Ltac keeps_ext := fail.

Ltac intro_args := repeat lazymatch goal with |- keeps _ => fail | |- forall _, _ => intro end.

Ltac keeps_tac :=
  repeat (cbv beta zeta;
    match goal with
    | |- keeps (pbind _ _) => apply keeps_bind; [|intros ?]
    | |- keeps (pret _) => apply keeps_ret
    | |- keeps (perr _) => apply keeps_perr
    | |- keeps ppanic => apply keeps_panic
    | |- keeps pget => apply keeps_pget
    | |- keeps (ptry _) => apply keeps_ptry
    | |- keeps (pnext_tok _) => apply keeps_pnext_tok
    | |- keeps (pput_back _) => apply keeps_pput_back
    | |- keeps (perror _) => apply keeps_perror
    | |- keeps (pregister _) => apply keeps_pregister
    | |- keeps (with_fuel _) => apply keeps_with_fuel; intros ?
    | |- keeps (match ?x with _ => _ end) => destruct x
    | |- keeps (if ?x then _ else _) => destruct x
    | H : keeps ?m |- keeps ?m => exact H
    | H : forall _, keeps _ |- keeps _ => apply H
    | H : forall _ _, keeps _ |- keeps _ => apply H
    | H : forall _ _ _, keeps _ |- keeps _ => apply H
    | H : forall _ _ _ _, keeps _ |- keeps _ => apply H
    | |- keeps _ => keeps_ext
    | |- keeps _ => progress unfold exact, try_another, ident, exact_ident, path_separator,
                      comma_or_semicolon, require, parse_error, describe_parse_error, leading,
                      success, SUCCESS, pnone, updated_location, annotate, tree_path,
                      var_annotations, ignore_group, input_type, separated, perror_err
    end).

Lemma keeps_unary_loop n u : keeps (unary_loop n u).
Proof. revert u; induction n; intros u; cbn [unary_loop]; keeps_tac. Qed.
Lemma keeps_prefab_loop n p : keeps (prefab_loop n p).
Proof. revert p; induction n; intros p; cbn [prefab_loop]; keeps_tac. Qed.
Lemma keeps_tree_path_loop n p : keeps (tree_path_loop n p).
Proof. revert p; induction n; intros p; cbn [tree_path_loop]; keeps_tac. Qed.
Lemma keeps_ignore_group_loop n l r d : keeps (ignore_group_loop n l r d).
Proof. revert d; induction n; intros d; cbn [ignore_group_loop]; keeps_tac. Qed.
Lemma keeps_separated_loop {R} n sep term (ae : option R) g c el :
  keeps g -> keeps (separated_loop n sep term ae g c el).
Proof. intros Hg. revert c el; induction n; intros c el; cbn [separated_loop]; keeps_tac. Qed.

Ltac keeps_ext ::= first [ apply keeps_unary_loop | apply keeps_prefab_loop
  | apply keeps_tree_path_loop | apply keeps_ignore_group_loop | apply keeps_separated_loop ].

Lemma keeps_var_annotations_loop n : keeps (var_annotations_loop n).
Proof. induction n; cbn [var_annotations_loop]; keeps_tac. Qed.
Lemma keeps_input_type_loop its n a : keeps (input_type_loop its n a).
Proof. revert a; induction n; intros a; cbn [input_type_loop]; keeps_tac. Qed.

Ltac keeps_ext ::= first [ apply keeps_unary_loop | apply keeps_prefab_loop
  | apply keeps_tree_path_loop | apply keeps_ignore_group_loop | apply keeps_separated_loop
  | apply keeps_var_annotations_loop | apply keeps_input_type_loop ].

Lemma keeps_expression its n :
  keeps (expression its n) /\ (forall e, keeps (expression_loop its n e)) /\
  (forall l p, keeps (expression_part its n l p)) /\
  (forall p b o r, keeps (expression_part_loop its n p b o r)) /\
  keeps (group its n) /\ (forall u fs, keeps (group_follow_loop its n u fs)) /\
  keeps (term its n) /\ (forall ps, keeps (interp_loop its n ps)) /\
  keeps (follow its n) /\ (forall k, keeps (follow_index its n k)) /\
  keeps (arguments its n) /\ keeps (prefab its n) /\ keeps (input_specifier its n).
Proof.
  induction n as [|f IH].
  - repeat match goal with |- _ /\ _ => split end; intro_args;
      cbn [expression expression_loop expression_part expression_part_loop group
           group_follow_loop term interp_loop follow follow_index arguments prefab
           input_specifier];
      keeps_tac.
  - destruct IH as (I1 & I2 & I3 & I4 & I5 & I6 & I7 & I8 & I9 & I10 & I11 & I12 & I13).
    repeat match goal with |- _ /\ _ => split end; intro_args;
      cbn [expression expression_loop expression_part expression_part_loop group
           group_follow_loop term interp_loop follow follow_index arguments prefab
           input_specifier];
      keeps_tac.
Qed.

Lemma keeps_expr its n : keeps (expression its n).
Proof. exact (proj1 (keeps_expression its n)). Qed.
Lemma keeps_input_specifier its n : keeps (input_specifier its n).
Proof. apply (keeps_expression its n). Qed.

Ltac keeps_ext ::= first [ apply keeps_unary_loop | apply keeps_prefab_loop
  | apply keeps_tree_path_loop | apply keeps_ignore_group_loop | apply keeps_separated_loop
  | apply keeps_var_annotations_loop | apply keeps_input_type_loop | apply keeps_expr
  | apply keeps_input_specifier ].

Lemma keeps_proc_parameter its f : keeps (proc_parameter its f).
Proof. unfold proc_parameter. keeps_tac. Qed.

Lemma keeps_read_any_tt n :
  (forall t, keeps (read_any_tt n t)) /\ (forall c t, keeps (read_any_tt_loop n c t)).
Proof.
  induction n as [|f [I1 I2]]; split; intro_args; cbn [read_any_tt read_any_tt_loop]; keeps_tac.
Qed.

Ltac keeps_ext ::= first [ apply keeps_unary_loop | apply keeps_prefab_loop
  | apply keeps_tree_path_loop | apply keeps_ignore_group_loop | apply keeps_separated_loop
  | apply keeps_var_annotations_loop | apply keeps_input_type_loop | apply keeps_expr
  | apply keeps_input_specifier | apply keeps_proc_parameter | apply (proj1 (keeps_read_any_tt _)) ].

Lemma keeps_proc_body_loop n b : keeps (proc_body_loop n b).
Proof. revert b; induction n; intros b; cbn [proc_body_loop]; keeps_tac. Qed.

Ltac keeps_ext ::= first [ apply keeps_unary_loop | apply keeps_prefab_loop
  | apply keeps_tree_path_loop | apply keeps_ignore_group_loop | apply keeps_separated_loop
  | apply keeps_var_annotations_loop | apply keeps_input_type_loop | apply keeps_expr
  | apply keeps_input_specifier | apply keeps_proc_parameter | apply (proj1 (keeps_read_any_tt _))
  | apply keeps_proc_body_loop ].

Lemma annotate_stream (s : PState) :
  exists s', annotate s = Some (inl tt, s') /\ stream s' = stream s /\ tree s' = tree s /\
    procs_good s' = procs_good s /\ procs_bad s' = procs_bad s.
Proof.
  destruct s as [c tr inp e nx l ex pb pg].
  destruct nx, inp, e; eexists; (split; [reflexivity|]); unfold stream; simpl; repeat split.
Qed.

Lemma pbind_inl {A B} (m : PM A) (k : A -> PM B) s a s1 :
  m s = Some (inl a, s1) -> pbind m k s = k a s1.
Proof. intros E. unfold pbind. rewrite E. reflexivity. Qed.

Lemma pbind_inl_inv {A B} (m : PM A) (k : A -> PM B) s b s2 :
  pbind m k s = Some (inl b, s2) -> exists a s1, m s = Some (inl a, s1) /\ k a s1 = Some (inl b, s2).
Proof.
  unfold pbind. destruct (m s) as [[[a|e] s1]|]; intros E; try discriminate.
  exists a, s1. auto.
Qed.

Lemma proc_body_result_fail its dbg body s err c' :
  run_subparser its (pctx s) body = Some (inr err, c') ->
  proc_body_result its dbg body s =
    Some (inl (Some tt), set_pctx (if dbg then c' ++ [set_severity SevHint err] else c')
                           (set_procs_bad (procs_bad s + 1)%N s)).
Proof.
  intros E. unfold proc_body_result, pbind at 1, pget. rewrite E.
  destruct dbg; destruct s; reflexivity.
Qed.

Ltac keeps_of H :=
  match type of H with
  | ?m ?s = Some (?r, ?s') =>
      let K := fresh "K" in
      assert (K : keeps m) by keeps_tac;
      destruct (K _ _ _ H) as (? & ? & ?); clear K
  end.

Lemma tree_entry_proc_fail its dbg f (parent : PathStack) (s s1 s2 s3 s4 s5 s6 : PState)
    (absolute : bool) (path : list (list Z)) (params : list Parameter_) (body0 body_tt : list LocatedToken) :
  let new_stack := if absolute then [path] else path :: parent in
  (_ <- updated_location ;; tree_path) s = Some (inl (Some (absolute, path)), s1) ->
  (if absolute && has_parent parent
   then e <- perror (MsgNestedAbsolute path (path_iter parent)) ;;
        pregister (set_severity SevWarning e)
   else pret tt) s1 = Some (inl tt, s2) ->
  (require var_annotations ;;; pnext_tok (Some (LStr "contents"))) s2 =
    Some (inl (Punct LParen), s3) ->
  require (separated Comma RParen None (proc_parameter its f)) s3 = Some (inl params, s4) ->
  (add_tree (AddProc (plocation s3) (path_iter new_stack) (path_len new_stack) params) ;;;
   annotate ;;;
   _ <- updated_location ;;
   require (with_fuel (fun n => read_any_tt n []))) s4 = Some (inl body0, s5) ->
  with_fuel (fun n => proc_body_loop n body0) s5 = Some (inl body_tt, s6) ->
  (forall c, exists err c', run_subparser its c body_tt = Some (inr err, c')) ->
  exists s', tree_entry its dbg (S f) parent s = Some (inl (Some tt), s') /\
    tree s' = tree s ++ [AddProc (plocation s3) (path_iter new_stack) (path_len new_stack) params] /\
    procs_bad s' = (procs_bad s + 1)%N /\ procs_good s' = procs_good s /\
    stream s' = stream s6.
Proof.
  intros new_stack H1 H2 H3 H4 H5 H6 Hfail.
  keeps_of H1.
  keeps_of H2.
  keeps_of H3.
  keeps_of H4.
  keeps_of H6.
  apply pbind_inl_inv in H1 as (l0 & su & EU & ET).
  apply pbind_inl_inv in H3 as (u3 & sv & EV & EN).
  apply pbind_inl_inv in H5 as (u5 & sa & EA & H5).
  apply pbind_inl_inv in H5 as (u6 & sb & EB & H5).
  apply pbind_inl_inv in H5 as (l1 & sc & EC & ER).
  keeps_of EB. keeps_of EC. keeps_of ER.
  unfold add_tree, pmodify in EA. injection EA as <- <-.
  destruct (annotate_stream s6) as (s7 & A7 & S7 & T7 & G7 & B7).
  destruct (Hfail (pctx s7)) as (err & c' & EF).
  eexists. split.
  - cbn [tree_entry].
    rewrite (pbind_inl _ _ _ _ _ EU). unfold leading. rewrite (pbind_inl _ _ _ _ _ ET).
    cbv beta iota.
    rewrite (pbind_inl _ _ _ _ _ H2). rewrite (pbind_inl _ _ _ _ _ EV).
    rewrite (pbind_inl _ _ _ _ _ EN). cbv beta iota.
    rewrite (pbind_inl pget _ s3 s3 s3 eq_refl). cbv beta zeta.
    rewrite (pbind_inl _ _ _ _ _ H4).
    unfold add_tree at 1. rewrite (pbind_inl (pmodify _) _ s4 tt _ eq_refl).
    fold new_stack.
    rewrite (pbind_inl _ _ _ _ _ EB). rewrite (pbind_inl _ _ _ _ _ EC).
    rewrite (pbind_inl _ _ _ _ _ ER). rewrite (pbind_inl _ _ _ _ _ H6).
    rewrite (pbind_inl _ _ _ _ _ A7).
    exact (proc_body_result_fail its dbg body_tt s7 err c' EF).
  - cbn [tree procs_bad procs_good set_pctx set_procs_bad set_tree] in *.
    repeat split; try congruence.
    unfold stream in *. destruct s7; simpl in *.
    congruence.
Qed.

Lemma tree_entries_S its dbg f parent terminator :
  tree_entries its dbg (S f) parent terminator =
    (t <- pnext_tok (Some (match terminator with Eof => LStr "newline" | _ => LNewlineTok terminator end)) ;;
     if token_eqb t terminator || token_eqb t Eof then SUCCESS
     else if token_eqb t (Punct Semicolon) then tree_entries its dbg f parent terminator
     else pput_back t ;;; require (tree_entry its dbg f parent) ;;; tree_entries its dbg f parent terminator).
Proof. reflexivity. Qed.

Lemma tree_entries_next its dbg f parent terminator s t s1 s2 :
  pnext_tok (Some (match terminator with Eof => LStr "newline" | _ => LNewlineTok terminator end)) s =
    Some (inl t, s1) ->
  token_eqb t terminator || token_eqb t Eof = false ->
  token_eqb t (Punct Semicolon) = false ->
  (pput_back t ;;; tree_entry its dbg f parent) s1 = Some (inl (Some tt), s2) ->
  tree_entries its dbg (S f) parent terminator s = tree_entries its dbg f parent terminator s2.
Proof.
  intros E1 Ht Hs E2. rewrite tree_entries_S. rewrite (pbind_inl _ _ _ _ _ E1). cbv beta.
  rewrite Ht, Hs. apply pbind_inl_inv in E2 as (u & sp & EP & ET).
  rewrite (pbind_inl _ _ _ _ _ EP). cbv beta.
  assert (ER : require (tree_entry its dbg f parent) sp = Some (inl tt, s2))
    by (unfold require, pbind, ptry; rewrite ET; reflexivity).
  rewrite (pbind_inl _ _ _ _ _ ER). reflexivity.
Qed.

(** C4 (as the code has it): when the sub-parser of a proc body fails, the
    parse goes on: [procs_bad] is incremented and the body's error is
    registered as a [Hint] only in builds with [debug_assertions]; otherwise
    no diagnostic is registered at all.  A body that parses increments
    [procs_good] and leaves the tree and [procs_bad] alone.  In general, when
    [tree_entry] reads a path, [(], the parameters and a body whose
    sub-parse fails, the entry succeeds, the tree gains exactly the
    [AddProc] call, [procs_bad] goes up by one, and [tree_entries] goes on
    with the next entry after it. *)
Theorem proc_body_counters its dbg :
  (forall body s err c', run_subparser its (pctx s) body = Some (inr err, c') ->
     proc_body_result its dbg body s =
       Some (inl (Some tt), set_pctx (if dbg then c' ++ [set_severity SevHint err] else c')
                              (set_procs_bad (procs_bad s + 1)%N s))) /\
  (forall body s stmts c', run_subparser its (pctx s) body = Some (inl stmts, c') ->
     exists s', proc_body_result its dbg body s = Some (inl (Some tt), s') /\
       procs_good s' = (procs_good s + 1)%N /\ procs_bad s' = procs_bad s /\
       tree s' = tree s /\ pctx s' = c') /\
  (forall f (parent : PathStack) (s s1 s2 s3 s4 s5 s6 : PState) (absolute : bool)
          (path : list (list Z)) (params : list Parameter_) (body0 body_tt : list LocatedToken),
     let new_stack := if absolute then [path] else path :: parent in
     (_ <- updated_location ;; tree_path) s = Some (inl (Some (absolute, path)), s1) ->
     (if absolute && has_parent parent
      then e <- perror (MsgNestedAbsolute path (path_iter parent)) ;;
           pregister (set_severity SevWarning e)
      else pret tt) s1 = Some (inl tt, s2) ->
     (require var_annotations ;;; pnext_tok (Some (LStr "contents"))) s2 =
       Some (inl (Punct LParen), s3) ->
     require (separated Comma RParen None (proc_parameter its f)) s3 = Some (inl params, s4) ->
     (add_tree (AddProc (plocation s3) (path_iter new_stack) (path_len new_stack) params) ;;;
      annotate ;;;
      _ <- updated_location ;;
      require (with_fuel (fun n => read_any_tt n []))) s4 = Some (inl body0, s5) ->
     with_fuel (fun n => proc_body_loop n body0) s5 = Some (inl body_tt, s6) ->
     (forall c, exists err c', run_subparser its c body_tt = Some (inr err, c')) ->
     exists s', tree_entry its dbg (S f) parent s = Some (inl (Some tt), s') /\
       tree s' = tree s ++ [AddProc (plocation s3) (path_iter new_stack) (path_len new_stack) params] /\
       procs_bad s' = (procs_bad s + 1)%N /\ procs_good s' = procs_good s /\
       stream s' = stream s6) /\
  (forall f parent terminator s t s1 s2,
     pnext_tok (Some (match terminator with Eof => LStr "newline" | _ => LNewlineTok terminator end)) s =
       Some (inl t, s1) ->
     (token_eqb t terminator || token_eqb t Eof) = false ->
     token_eqb t (Punct Semicolon) = false ->
     (pput_back t ;;; tree_entry its dbg f parent) s1 = Some (inl (Some tt), s2) ->
     tree_entries its dbg (S f) parent terminator s = tree_entries its dbg f parent terminator s2).
Proof.
  split; [|split; [|split]].
  - intros body s err c'. apply proc_body_result_fail.
  - intros body s stmts c' E. unfold proc_body_result, pbind at 1, pget. rewrite E.
    destruct dbg.
    + set (s1 := set_procs_good (procs_good (set_pctx c' s) + 1)%N (set_pctx c' s)).
      destruct (annotate_keeps s1) as (s2 & A & T2 & C2 & G2 & B2).
      exists s2. unfold pbind, pmodify. fold s1. rewrite A. split; [reflexivity|].
      rewrite T2, C2, G2, B2. destruct s; repeat split.
    + exists (set_procs_good (procs_good s + 1)%N (set_pctx c' s)).
      destruct s; repeat split.
  - intros f parent s s1 s2 s3 s4 s5 s6 absolute path params body0 body_tt.
    apply tree_entry_proc_fail.
  - intros f parent terminator s t s1 s2. apply tree_entries_next.
Qed.

(** The body [{ return 1 }] fails; the proc [/proc/f()] with that body is
    still registered, and the entries after it are read. *)
Lemma proc_body_counters_witness :
  (run_subparser (fun _ => None) [] bad_body = Some (inr bad_body_error, []) /\
   proc_body_result (fun _ => None) false bad_body (parser_new [] []) =
     Some (inl (Some tt), set_procs_bad 1 (parser_new [] [])) /\
   proc_body_result (fun _ => None) true bad_body (parser_new [] []) =
     Some (inl (Some tt), set_pctx [set_severity SevHint bad_body_error]
                            (set_procs_bad 1 (parser_new [] [])))) /\
  (exists s', tree_entry (fun _ => None) false 20 [[]] bp_s = Some (inl (Some tt), s') /\
     tree s' = [AddProc default_location [bytes "proc"; bytes "f"] 2 []] /\
     procs_bad s' = 1%N /\ procs_good s' = 0%N /\
     stream s' = [Punct Semicolon; Punct Slash; ident_tok "obj"; Punct Slash; ident_tok "x";
                  Punct Semicolon; Eof]) /\
  (tree_entries (fun _ => None) false 21 [[]] Eof bp_s =
     tree_entries (fun _ => None) false 20 [[]] Eof bp_t2 /\
   tree bp_t2 = [AddProc default_location [bytes "proc"; bytes "f"] 2 []] /\
   procs_bad bp_t2 = 1%N).
Proof.
  split; [split; [vm_compute; reflexivity|split]|split].
  - exact (proj1 (proc_body_counters (fun _ => None) false)
             bad_body (parser_new [] []) bad_body_error [] ltac:(vm_compute; reflexivity)).
  - exact (proj1 (proc_body_counters (fun _ => None) true)
             bad_body (parser_new [] []) bad_body_error [] ltac:(vm_compute; reflexivity)).
  - destruct (proj1 (proj2 (proj2 (proc_body_counters (fun _ => None) false)))
                19%nat [[]] bp_s bp_s1 bp_s2 bp_s3 bp_s4 bp_s5 bp_s6 true [bytes "proc"; bytes "f"] []
                bad_body bad_body
                ltac:(vm_compute; reflexivity) ltac:(vm_compute; reflexivity)
                ltac:(vm_compute; reflexivity) ltac:(vm_compute; reflexivity)
                ltac:(vm_compute; reflexivity) ltac:(vm_compute; reflexivity)
                ltac:(intros c; exists bad_body_error, c; vm_compute; reflexivity))
      as (s' & E & T & B & G & St).
    exists s'. split; [exact E|]. rewrite T, B, G, St. vm_compute. repeat split.
  - split; [|split; vm_compute; reflexivity].
    exact (proj2 (proj2 (proj2 (proc_body_counters (fun _ => None) false)))
             20%nat [[]] Eof bp_s (Punct Slash) bp_t1 bp_t2
             ltac:(vm_compute; reflexivity) ltac:(vm_compute; reflexivity)
             ltac:(vm_compute; reflexivity) ltac:(vm_compute; reflexivity)).
Defined.

Lemma proc_failure_silent_in_release :
  exists s, parse (fun _ => None) false [] bad_proc_file = Some s /\
    pctx s = [] /\ procs_bad s = 1%N /\ procs_good s = 0%N /\
    tree s = [AddProc default_location [bytes "proc"; bytes "f"] 2 [];
              AddEntry default_location [bytes "obj"; bytes "x"] 2].
Proof. eexists. split; [vm_compute; reflexivity|]. vm_compute. repeat split. Qed.

(** X7: parsing an expression (and every part of it: operands, terms,
    follows, argument lists, prefabs, input specifiers) never touches the
    object tree or the proc-body counters. *)
Theorem expression_keeps_tree its fuel (s s' : PState) r :
  expression its fuel s = Some (r, s') ->
  tree s' = tree s /\ procs_bad s' = procs_bad s /\ procs_good s' = procs_good s.
Proof. intros E. exact (proj1 (keeps_expression its fuel) s r s' E). Qed.

(** [x + 1] parsed from a parser whose tree already holds an entry. *)
Lemma expression_keeps_tree_witness :
  let s := set_tree [AddEntry default_location [bytes "obj"] 1]
             (parser_new [] (toks [ident_tok "x"; Punct Add; Int 1])) in
  expression (fun _ => None) 8 s = Some (inl (Some x_plus_1), pstate_after (expression (fun _ => None) 8) s) /\
  tree (pstate_after (expression (fun _ => None) 8) s) = [AddEntry default_location [bytes "obj"] 1].
Proof.
  intros s.
  assert (E : expression (fun _ => None) 8 s =
                Some (inl (Some x_plus_1), pstate_after (expression (fun _ => None) 8) s))
    by (vm_compute; reflexivity).
  split; [exact E|]. rewrite (proj1 (expression_keeps_tree _ _ _ _ _ E)). reflexivity.
Defined.
